(** * blog-engine: the content pipeline of [main.go]

    A shallow embedding of [loadPosts] (reading the embedded [content/*.md]
    files, splitting the front matter, extracting [Title] and [Date], deriving
    the slug and the summary, sorting the cache) and of the lookup loop of the
    [/post/] handler, together with the library functions of Go's [strings],
    [unicode/utf8], [unicode], [path/filepath], [time] and [sort] packages that
    the code calls.

    Go strings are byte sequences: they are modelled by [string], whose
    characters ([ascii]) are exactly the 256 byte values, so [length] is
    Go's [len] and every index below is a byte index. *)

From Stdlib Require Import String Ascii List ZArith Lia Bool Arith.
From Stdlib Require Import Permutation Sorted.
Import ListNotations.

Open Scope string_scope.
Open Scope nat_scope.

(** ** Slices of a string *)

(** [s[n:]] *)
Fixpoint slice_from (n : nat) (s : string) : string :=
  match n, s with
  | 0, _ => s
  | S _, EmptyString => EmptyString
  | S n', String _ s' => slice_from n' s'
  end.

(** [s[:n]] *)
Fixpoint slice_to (n : nat) (s : string) : string :=
  match n, s with
  | 0, _ => EmptyString
  | S _, EmptyString => EmptyString
  | S n', String c s' => String c (slice_to n' s')
  end.

(** The numeric value of a byte. *)
Definition byte_val (c : ascii) : Z := Z.of_N (N_of_ascii c).

(** The string read backwards (used to scan from the end). *)
Fixpoint string_rev (s : string) : string :=
  match s with
  | EmptyString => EmptyString
  | String c s' => string_rev s' ++ String c EmptyString
  end.

(** ** Package [unicode/utf8] *)

Module utf8.

Local Open Scope Z_scope.

Definition RuneError : Z := 65533.
Definition RuneSelf : Z := 128.
Definition UTFMax : nat := 4%nat.

Definition locb : Z := 128.
Definition hicb : Z := 191.

(** The entries of the table [first]: [xx] invalid, [as_] ASCII, the others
    pack the accept-range index (high nibble) and the size (low nibble). *)
Definition xx : Z := 241.
Definition as_ : Z := 240.
Definition s1 : Z := 2.
Definition s2 : Z := 19.
Definition s3 : Z := 3.
Definition s4 : Z := 35.
Definition s5 : Z := 52.
Definition s6 : Z := 4.
Definition s7 : Z := 68.

Definition first (b : Z) : Z :=
  if b <? 128 then as_
  else if b <? 194 then xx
  else if b <? 224 then s1
  else if b =? 224 then s2
  else if b <? 237 then s3
  else if b =? 237 then s4
  else if b <? 240 then s3
  else if b =? 240 then s5
  else if b <? 244 then s6
  else if b =? 244 then s7
  else xx.

(** [acceptRanges[i]] as the pair (lo, hi). *)
Definition acceptRanges (i : Z) : Z * Z :=
  if i =? 1 then (160, hicb)
  else if i =? 2 then (locb, 159)
  else if i =? 3 then (144, hicb)
  else if i =? 4 then (locb, 143)
  else (locb, hicb).

Definition mask2 : Z := 31.
Definition mask3 : Z := 15.
Definition mask4 : Z := 7.
Definition maskx : Z := 63.

(** [RuneStart(b)]: [b&0xC0 != 0x80]. *)
Definition RuneStart (b : Z) : bool := negb (Z.land b 192 =? 128).

(** [DecodeRuneInString(s)]: the first rune of [s] and its width in bytes;
    [(RuneError, 0)] on the empty string, [(RuneError, 1)] on an invalid
    encoding. *)
Definition DecodeRuneInString (s : string) : Z * nat :=
  match s with
  | EmptyString => (RuneError, 0%nat)
  | String c0 r0 =>
    let b0 := byte_val c0 in
    let x := first b0 in
    if as_ <=? x then (if x =? xx then RuneError else b0, 1%nat)
    else
      let sz := Z.to_nat (Z.land x 7) in
      let accept := acceptRanges (Z.shiftr x 4) in
      if (String.length s <? sz)%nat then (RuneError, 1%nat)
      else
        match r0 with
        | EmptyString => (RuneError, 1%nat)
        | String c1 r1 =>
          let b1 := byte_val c1 in
          if (b1 <? fst accept) || (snd accept <? b1) then (RuneError, 1%nat)
          else if (sz <=? 2)%nat then
            (Z.lor (Z.shiftl (Z.land b0 mask2) 6) (Z.land b1 maskx), 2%nat)
          else
            match r1 with
            | EmptyString => (RuneError, 1%nat)
            | String c2 r2 =>
              let b2 := byte_val c2 in
              if (b2 <? locb) || (hicb <? b2) then (RuneError, 1%nat)
              else if (sz <=? 3)%nat then
                (Z.lor (Z.lor (Z.shiftl (Z.land b0 mask3) 12)
                              (Z.shiftl (Z.land b1 maskx) 6))
                       (Z.land b2 maskx), 3%nat)
              else
                match r2 with
                | EmptyString => (RuneError, 1%nat)
                | String c3 _ =>
                  let b3 := byte_val c3 in
                  if (b3 <? locb) || (hicb <? b3) then (RuneError, 1%nat)
                  else
                    (Z.lor (Z.lor (Z.lor (Z.shiftl (Z.land b0 mask4) 18)
                                         (Z.shiftl (Z.land b1 maskx) 12))
                                  (Z.shiftl (Z.land b2 maskx) 6))
                           (Z.land b3 maskx), 4%nat)
                end
            end
        end
  end.

(** The backward scan of [DecodeLastRuneInString]: starting at [start],
    move down while [start >= lim] and the byte is not a rune start. *)
Fixpoint lastStart (fuel : nat) (s : string) (start lim : Z) : Z :=
  match fuel with
  | O => start
  | S k =>
    if start <? lim then start
    else
      match get (Z.to_nat start) s with
      | Some c => if RuneStart (byte_val c) then start
                  else lastStart k s (start - 1) lim
      | None => start
      end
  end.

(** [DecodeLastRuneInString(s)]: the last rune of [s] and its width. *)
Definition DecodeLastRuneInString (s : string) : Z * nat :=
  let end_ := Z.of_nat (String.length s) in
  if end_ =? 0 then (RuneError, 0%nat)
  else
    let start := end_ - 1 in
    match get (Z.to_nat start) s with
    | None => (RuneError, 0%nat)
    | Some c =>
      let r := byte_val c in
      if r <? RuneSelf then (r, 1%nat)
      else
        let lim := Z.max 0 (end_ - Z.of_nat UTFMax) in
        let start := lastStart UTFMax s (start - 1) lim in
        let start := Z.max 0 start in
        let '(r, size) := DecodeRuneInString (slice_from (Z.to_nat start) s) in
        if start + Z.of_nat size =? end_ then (r, size) else (RuneError, 1%nat)
    end.

(** The loop of [ValidString]: [fuel] bounds the number of iterations (each
    consumes at least one byte). *)
Fixpoint ValidString_loop (fuel : nat) (s : string) : bool :=
  match fuel with
  | O => match s with EmptyString => true | _ => false end
  | S k =>
    match s with
    | EmptyString => true
    | String c0 r0 =>
      let si := byte_val c0 in
      if si <? RuneSelf then ValidString_loop k r0
      else
        let x := first si in
        if x =? xx then false
        else
          let size := Z.to_nat (Z.land x 7) in
          if (String.length s <? size)%nat then false
          else
            let accept := acceptRanges (Z.shiftr x 4) in
            let at_ (i : nat) : Z :=
              match get i s with Some c => byte_val c | None => 0 end in
            if (at_ 1%nat <? fst accept) || (snd accept <? at_ 1%nat) then false
            else if (size =? 2)%nat then ValidString_loop k (slice_from size s)
            else if (at_ 2%nat <? locb) || (hicb <? at_ 2%nat) then false
            else if (size =? 3)%nat then ValidString_loop k (slice_from size s)
            else if (at_ 3%nat <? locb) || (hicb <? at_ 3%nat) then false
            else ValidString_loop k (slice_from size s)
    end
  end.

Definition ValidString (s : string) : bool := ValidString_loop (String.length s) s.

(** [RuneCountInString(s)]: one per decoded rune, an invalid byte counting
    as one rune of width 1. *)
Fixpoint RuneCount_loop (fuel : nat) (s : string) : nat :=
  match fuel with
  | O => O
  | S k =>
    match s with
    | EmptyString => O
    | _ => let '(_, size) := DecodeRuneInString s in
           S (RuneCount_loop k (slice_from size s))
    end
  end.

Definition RuneCountInString (s : string) : nat := RuneCount_loop (String.length s) s.

End utf8.

(** ** Package [unicode] *)

Module unicode.

Local Open Scope Z_scope.

Definition MaxLatin1 : Z := 255.

(** [IsSpace(r)]: in Latin-1 the six ASCII spaces, U+0085 and U+00A0;
    beyond it the code points of the [White_Space] property. *)
Definition IsSpace (r : Z) : bool :=
  if r <=? MaxLatin1 then
    (r =? 9) || (r =? 10) || (r =? 11) || (r =? 12) || (r =? 13) ||
    (r =? 32) || (r =? 133) || (r =? 160)
  else
    (r =? 5760) || ((8192 <=? r) && (r <=? 8202)) || (r =? 8232) ||
    (r =? 8233) || (r =? 8239) || (r =? 8287) || (r =? 12288).

End unicode.

(** ** Package [strings] *)

Module strings.

(** [HasPrefix(s, prefix)]: [len(s) >= len(prefix) && s[:len(prefix)] == prefix]. *)
Definition HasPrefix (s prefix : string) : bool :=
  (String.length prefix <=? String.length s) &&
  String.eqb (slice_to (String.length prefix) s) prefix.

(** [HasSuffix(s, suffix)]:
    [len(s) >= len(suffix) && s[len(s)-len(suffix):] == suffix]. *)
Definition HasSuffix (s suffix : string) : bool :=
  (String.length suffix <=? String.length s) &&
  String.eqb (slice_from (String.length s - String.length suffix) s) suffix.

Definition TrimPrefix (s prefix : string) : string :=
  if HasPrefix s prefix then slice_from (String.length prefix) s else s.

Definition TrimSuffix (s suffix : string) : string :=
  if HasSuffix s suffix then slice_to (String.length s - String.length suffix) s
  else s.

(** [Index(s, substr)]: the byte index of the first instance of [substr] in
    [s]; [None] stands for Go's [-1]. *)
Fixpoint Index (s substr : string) : option nat :=
  if HasPrefix s substr then Some 0
  else
    match s with
    | EmptyString => None
    | String _ s' => option_map S (Index s' substr)
    end.

(** The loop of [Count] for a non-empty [substr]: non-overlapping instances. *)
Fixpoint Count_loop (fuel : nat) (s substr : string) : nat :=
  match fuel with
  | 0 => 0
  | S k =>
    match Index s substr with
    | None => 0
    | Some i => S (Count_loop k (slice_from (i + String.length substr) s) substr)
    end
  end.

Definition Count (s substr : string) : nat :=
  if (String.length substr =? 0)%nat then S (utf8.RuneCountInString s)
  else Count_loop (String.length s) s substr.

(** The loop of [explode]: [k] more one-rune pieces, then the remainder. *)
Fixpoint explode_loop (k : nat) (s : string) : list string :=
  match k with
  | 0 => [s]
  | S k' =>
    let '(_, size) := utf8.DecodeRuneInString s in
    slice_to size s :: explode_loop k' (slice_from size s)
  end.

(** [explode(s, n)]: [s] split into UTF-8 sequences, at most [n] pieces. *)
Definition explode (s : string) (n : Z) : list string :=
  let l := Z.of_nat (utf8.RuneCountInString s) in
  let n := if (n <? 0)%Z || (l <? n)%Z then l else n in
  if (0 <? n)%Z then explode_loop (Z.to_nat (n - 1)) s else [].

(** The loop of [genSplit] with [sepSave = 0]: [k] is [n - 1 - i], the number
    of separators that may still be cut at. *)
Fixpoint genSplit_loop (k : nat) (s sep : string) : list string :=
  match k with
  | 0 => [s]
  | S k' =>
    match Index s sep with
    | None => [s]
    | Some m =>
      slice_to m s :: genSplit_loop k' (slice_from (m + String.length sep) s) sep
    end
  end.

(** [genSplit(s, sep, 0, n)]. *)
Definition genSplit (s sep : string) (n : Z) : list string :=
  if (n =? 0)%Z then []
  else if (String.length sep =? 0)%nat then explode s n
  else
    let n := (if n <? 0 then Z.of_nat (Count s sep) + 1 else n)%Z in
    let n := (if Z.of_nat (String.length s) + 1 <? n
              then Z.of_nat (String.length s) + 1 else n)%Z in
    genSplit_loop (Z.to_nat (n - 1)) s sep.

Definition SplitN (s sep : string) (n : Z) : list string := genSplit s sep n.

Definition Split (s sep : string) : list string := genSplit s sep (-1).

(** The table [asciiSpace]: tab, newline, vertical tab, form feed, carriage
    return and space. *)
Definition asciiSpace (c : ascii) : bool :=
  let b := byte_val c in
  ((b =? 9) || (b =? 10) || (b =? 11) || (b =? 12) || (b =? 13) || (b =? 32))%Z.

(** [indexFunc(s, f, truth)]: ranging over the runes of [s] (of the string
    that remains, [i] bytes into the original), the index of the first rune
    [r] with [f(r) == truth]. *)
Fixpoint indexFunc_loop (fuel : nat) (s : string) (i : nat)
  (f : Z -> bool) (truth : bool) : option nat :=
  match fuel with
  | 0 => None
  | S k =>
    match s with
    | EmptyString => None
    | _ =>
      let '(r, size) := utf8.DecodeRuneInString s in
      if Bool.eqb (f r) truth then Some i
      else indexFunc_loop k (slice_from size s) (i + size) f truth
    end
  end.

Definition indexFunc (s : string) (f : Z -> bool) (truth : bool) : option nat :=
  indexFunc_loop (String.length s) s 0 f truth.

(** [lastIndexFunc(s, f, truth)]: the same from the end; [i] is the length
    of the prefix still to be examined. *)
Fixpoint lastIndexFunc_loop (fuel : nat) (s : string) (i : nat)
  (f : Z -> bool) (truth : bool) : option nat :=
  match fuel with
  | 0 => None
  | S k =>
    if (i =? 0)%nat then None
    else
      let '(r, size) := utf8.DecodeLastRuneInString (slice_to i s) in
      let i := i - size in
      if Bool.eqb (f r) truth then Some i
      else lastIndexFunc_loop k s i f truth
  end.

Definition lastIndexFunc (s : string) (f : Z -> bool) (truth : bool) : option nat :=
  lastIndexFunc_loop (String.length s) s (String.length s) f truth.

Definition TrimLeftFunc (s : string) (f : Z -> bool) : string :=
  match indexFunc s f false with
  | None => EmptyString
  | Some i => slice_from i s
  end.

Definition TrimRightFunc (s : string) (f : Z -> bool) : string :=
  match lastIndexFunc s f false with
  | Some i =>
    match get i s with
    | Some c =>
      if (utf8.RuneSelf <=? byte_val c)%Z then
        let '(_, wid) := utf8.DecodeRuneInString (slice_from i s) in
        slice_to (i + wid) s
      else slice_to (i + 1) s
    | None => slice_to (i + 1) s
    end
  | None => EmptyString
  end.

Definition TrimFunc (s : string) (f : Z -> bool) : string :=
  TrimRightFunc (TrimLeftFunc s f) f.

(** One of the two ASCII fast-path loops of [TrimSpace], on the bytes in
    the order the loop visits them: it stops at the first byte that is not
    an ASCII space, and reports whether that byte is non-ASCII (the case in
    which [TrimSpace] falls back to the rune-aware functions). *)
Fixpoint skipAsciiSpace (s : string) : bool * string :=
  match s with
  | EmptyString => (false, EmptyString)
  | String c s' =>
    if (utf8.RuneSelf <=? byte_val c)%Z then (true, s)
    else if asciiSpace c then skipAsciiSpace s'
    else (false, s)
  end.

(** [TrimSpace(s)]: the first loop runs from the front, the second from the
    end of what the first left ([s[start:]], read backwards). *)
Definition TrimSpace (s : string) : string :=
  let '(nonAscii, fromStart) := skipAsciiSpace s in
  if nonAscii then TrimFunc fromStart unicode.IsSpace
  else
    let '(nonAscii, kept) := skipAsciiSpace (string_rev fromStart) in
    if nonAscii then TrimRightFunc (string_rev kept) unicode.IsSpace
    else string_rev kept.

End strings.

(** ** Package [path/filepath] *)

Module filepath.

(** [os.IsPathSeparator] of a Unix build: the slash. *)
Definition IsPathSeparator (c : ascii) : bool := Ascii.eqb c "/"%char.

(** The loop of [Ext], [i] running down from [len(path) - 1]: [before] is
    [path[:i+1]] read backwards and [after] is [path[i+1:]]. *)
Fixpoint Ext_loop (before after : string) : string :=
  match before with
  | EmptyString => EmptyString
  | String c before' =>
    if IsPathSeparator c then EmptyString
    else if Ascii.eqb c "."%char then String c after
    else Ext_loop before' (String c after)
  end.

(** [Ext(path)]: the suffix beginning at the final dot in the final element
    of [path]; empty if there is no dot. *)
Definition Ext (path : string) : string := Ext_loop (string_rev path) EmptyString.

End filepath.

(** ** Package [time] *)

Module time.

Local Open Scope Z_scope.

(** A [Time] is modelled by the instant it denotes: the seconds elapsed
    since January 1, year 1, 00:00:00 UTC (what [t.sec()] returns).  The
    times of this program have no nanoseconds and no monotonic reading. *)
Definition Time : Type := Z.

(** The zero [Time{}]: January 1, year 1, 00:00:00 UTC. *)
Definition zero : Time := 0.

(** [t.After(u)] *)
Definition After (t u : Time) : bool := u <? t.

Definition secondsPerDay : Z := 86400.

Definition isLeap (year : Z) : bool :=
  (year mod 4 =? 0) && (negb (year mod 100 =? 0) || (year mod 400 =? 0)).

(** [daysBefore[m]]: the days of a non-leap year before month [m + 1]. *)
Definition daysBefore (m : Z) : Z :=
  nth (Z.to_nat m) [0; 31; 59; 90; 120; 151; 181; 212; 243; 273; 304; 334; 365] 0.

Definition daysIn (m year : Z) : Z :=
  if (m =? 2) && isLeap year then 29
  else daysBefore m - daysBefore (m - 1).

(** The days from January 1, year 1 to January 1 of [year]. *)
Definition daysSinceYear1 (year : Z) : Z :=
  let y := year - 1 in
  365 * y + y / 4 - y / 100 + y / 400.

(** [Date(year, month, day, 0, 0, 0, 0, UTC)] for a month in 1..12. *)
Definition Date (year month day : Z) : Time :=
  let d := daysSinceYear1 year + daysBefore (month - 1) in
  let d := if isLeap year && (3 <=? month) then d + 1 else d in
  let d := d + (day - 1) in
  d * secondsPerDay.

(** [isDigit(s, i)] *)
Definition isDigit (s : string) (i : nat) : bool :=
  match get i s with
  | Some c => (48 <=? byte_val c) && (byte_val c <=? 57)
  | None => false
  end.

Definition digit (s : string) (i : nat) : Z :=
  match get i s with
  | Some c => byte_val c - 48
  | None => 0
  end.

(** [getnum(s, true)]: exactly two digits; the number and the rest. *)
Definition getnum_fixed (s : string) : option (Z * string) :=
  if isDigit s 0 && isDigit s 1
  then Some (digit s 0 * 10 + digit s 1, slice_from 2 s)
  else None.

(** The four-digit year of [stdLongYear]: [len(value) >= 4], then [atoi]
    of [value[0:4]], which fails unless all four bytes are digits. *)
Definition longYear (value : string) : option (Z * string) :=
  if (4 <=? String.length value)%nat && isDigit value 0 && isDigit value 1
     && isDigit value 2 && isDigit value 3
  then Some (digit value 0 * 1000 + digit value 1 * 100
             + digit value 2 * 10 + digit value 3, slice_from 4 value)
  else None.

(** [skip(value, "-")] *)
Definition skipDash (value : string) : option string :=
  match value with
  | String c rest => if Ascii.eqb c "-"%char then Some rest else None
  | EmptyString => None
  end.

Inductive ParseError : Type :=
| errBad
| monthOutOfRange
| extraText
| dayOutOfRange.

(** [Parse("2006-01-02", value)]: the layout's chunks are the long year,
    ["-"], the zero-padded month, ["-"], the zero-padded day, and nothing
    may follow.  Every failure returns the zero [Time{}] with the error. *)
Definition Parse_2006_01_02 (value : string) : Time * option ParseError :=
  match longYear value with
  | None => (zero, Some errBad)
  | Some (year, value) =>
    match skipDash value with
    | None => (zero, Some errBad)
    | Some value =>
      match getnum_fixed value with
      | None => (zero, Some errBad)
      | Some (month, value) =>
        if (month <=? 0) || (12 <? month) then (zero, Some monthOutOfRange)
        else
          match skipDash value with
          | None => (zero, Some errBad)
          | Some value =>
            match getnum_fixed value with
            | None => (zero, Some errBad)
            | Some (day, value) =>
              if negb (String.length value =? 0)%nat then (zero, Some extraText)
              else if (day <? 1) || (daysIn month year <? day)
                   then (zero, Some dayOutOfRange)
              else (Date year month day, None)
            end
          end
      end
    end
  end.

End time.

(** ** Package [sort] *)

Module sort.

(** What [Less] must be for [sort.Slice]: a strict weak ordering. *)
Definition StrictWeakOrder {A : Type} (less : A -> A -> bool) : Prop :=
  (forall x, less x x = false) /\
  (forall x y z, less x y = true -> less y z = true -> less x z = true) /\
  (forall x y z, less x y = false -> less y z = false -> less x z = false).

(** A slice is in the order of [less] when no later element is less than
    an earlier one. *)
Definition ordered {A : Type} (less : A -> A -> bool) : list A -> Prop :=
  StronglySorted (fun a b => less b a = false).

(** The documented contract of [sort.Slice(x, less)]: the slice is left a
    rearrangement of itself, in the order of [less].  Its documentation adds
    that the sort is not guaranteed to be stable, so nothing more is
    promised about elements neither of which is less than the other.  The
    algorithm embedded below meets it ([Slice_Sorts]). *)
Definition Sorts (Slice : forall A : Type, (A -> A -> bool) -> list A -> list A) : Prop :=
  forall (A : Type) (less : A -> A -> bool), StrictWeakOrder less ->
  forall x : list A, Permutation x (Slice A less x) /\ ordered less (Slice A less x).

(** The inner loop of [insertionSort_func]: the element at [j] moves down
    while it is less than its left neighbour.  [left] is the sorted part
    [data[a:j]] read backwards. *)
Fixpoint sink {A : Type} (less : A -> A -> bool) (x : A) (left : list A) : list A :=
  match left with
  | [] => [x]
  | y :: left' => if less x y then y :: sink less x left' else x :: left
  end.

(** Insertion sort on a list: the elements are sunk one after the other.
    It is what [Slice] computes on a slice of at most 12 elements (see
    [Slice_small] below). *)
Definition insertionSort (A : Type) (less : A -> A -> bool) (x : list A) : list A :=
  rev (fold_left (fun left e => sink less e left) x []).

(** *** The algorithm of [Slice]: pattern-defeating quicksort

    The implementation of Go 1.19 and later ([zsortfunc.go]).  [data] is the
    slice being sorted; [Less] and [Swap] are the two operations the
    algorithm has on it, indices are Go [int]s, and every loop carries a
    bound on the iterations it can make. *)

Section Pdqsort.

Context {A : Type} (less : A -> A -> bool).

Local Open Scope Z_scope.

Definition elem (data : list A) (i : Z) : option A :=
  if i <? 0 then None else nth_error data (Z.to_nat i).

(** [data[n] = x] *)
Fixpoint store (n : nat) (x : A) (data : list A) : list A :=
  match data, n with
  | [], _ => []
  | _ :: rest, O => x :: rest
  | y :: rest, S n' => y :: store n' x rest
  end.

(** [data.Less(i, j)]: [less] of the elements at [i] and [j]. *)
Definition Less (data : list A) (i j : Z) : bool :=
  match elem data i, elem data j with
  | Some x, Some y => less x y
  | _, _ => false
  end.

(** [data.Swap(i, j)] *)
Definition Swap (data : list A) (i j : Z) : list A :=
  match elem data i, elem data j with
  | Some x, Some y => store (Z.to_nat j) x (store (Z.to_nat i) y data)
  | _, _ => data
  end.

(** [for j := i; j > a && data.Less(j, j-1); j-- { data.Swap(j, j-1) }] *)
Fixpoint insertionSort_inner (fuel : nat) (data : list A) (a j : Z) : list A :=
  match fuel with
  | O => data
  | S k =>
    if (a <? j) && Less data j (j - 1)
    then insertionSort_inner k (Swap data j (j - 1)) a (j - 1)
    else data
  end.

Fixpoint insertionSort_outer (fuel : nat) (data : list A) (a b i : Z) : list A :=
  match fuel with
  | O => data
  | S k =>
    if i <? b
    then insertionSort_outer k (insertionSort_inner (Z.to_nat (i - a)) data a i) a b (i + 1)
    else data
  end.

Definition insertionSort_func (data : list A) (a b : Z) : list A :=
  insertionSort_outer (Z.to_nat (b - a)) data a b (a + 1).

Fixpoint siftDown_loop (fuel : nat) (data : list A) (root hi first : Z) : list A :=
  match fuel with
  | O => data
  | S k =>
    let child := 2 * root + 1 in
    if hi <=? child then data
    else
      let child :=
        if (child + 1 <? hi) && Less data (first + child) (first + child + 1)
        then child + 1 else child in
      if negb (Less data (first + root) (first + child)) then data
      else siftDown_loop k (Swap data (first + root) (first + child)) child hi first
  end.

Definition siftDown_func (data : list A) (lo hi first : Z) : list A :=
  siftDown_loop (Z.to_nat hi) data lo hi first.

(** [for i := (hi - 1) / 2; i >= 0; i-- { siftDown_func(data, i, hi, first) }] *)
Fixpoint heapSort_build (fuel : nat) (data : list A) (i hi first : Z) : list A :=
  match fuel with
  | O => data
  | S k =>
    if i <? 0 then data
    else heapSort_build k (siftDown_func data i hi first) (i - 1) hi first
  end.

(** [for i := hi - 1; i >= 0; i-- { data.Swap(first, first+i); siftDown_func(data, lo, i, first) }] *)
Fixpoint heapSort_pop (fuel : nat) (data : list A) (i lo first : Z) : list A :=
  match fuel with
  | O => data
  | S k =>
    if i <? 0 then data
    else heapSort_pop k (siftDown_func (Swap data first (first + i)) lo i first)
                      (i - 1) lo first
  end.

Definition heapSort_func (data : list A) (a b : Z) : list A :=
  let first := a in
  let lo := 0 in
  let hi := b - a in
  let data := heapSort_build (S (Z.to_nat hi)) data (Z.quot (hi - 1) 2) hi first in
  heapSort_pop (S (Z.to_nat hi)) data (hi - 1) lo first.

(** [for i <= j && data.Less(i, a) { i++ }] *)
Fixpoint skipLess (fuel : nat) (data : list A) (a i j : Z) : Z :=
  match fuel with
  | O => i
  | S k => if (i <=? j) && Less data i a then skipLess k data a (i + 1) j else i
  end.

(** [for i <= j && !data.Less(j, a) { j-- }] *)
Fixpoint skipNotLess (fuel : nat) (data : list A) (a i j : Z) : Z :=
  match fuel with
  | O => j
  | S k => if (i <=? j) && negb (Less data j a) then skipNotLess k data a i (j - 1) else j
  end.

(** The second loop of [partitionLeftRight_func]; it returns the data and [j]. *)
Fixpoint partitionLeftRight_loop (fuel : nat) (data : list A) (a i j : Z) : list A * Z :=
  match fuel with
  | O => (data, j)
  | S k =>
    let i := skipLess (S (Z.to_nat (j - i))) data a i j in
    let j := skipNotLess (S (Z.to_nat (j - i))) data a i j in
    if j <? i then (data, j)
    else partitionLeftRight_loop k (Swap data i j) a (i + 1) (j - 1)
  end.

(** [partitionLeftRight_func(data, a, b, pivot)]: the data, the new index
    of the pivot and whether the slice was already partitioned. *)
Definition partitionLeftRight_func (data : list A) (a b pivot : Z) : list A * Z * bool :=
  let data := Swap data a pivot in
  let i := a + 1 in
  let j := b - 1 in
  let i := skipLess (S (Z.to_nat (j - i))) data a i j in
  let j := skipNotLess (S (Z.to_nat (j - i))) data a i j in
  if j <? i then (Swap data j a, j, true)
  else
    let data := Swap data i j in
    let i := i + 1 in
    let j := j - 1 in
    let '(data, j) := partitionLeftRight_loop (S (Z.to_nat (b - a))) data a i j in
    (Swap data j a, j, false).

(** [for i <= j && !data.Less(a, i) { i++ }] *)
Fixpoint skipNotGreater (fuel : nat) (data : list A) (a i j : Z) : Z :=
  match fuel with
  | O => i
  | S k => if (i <=? j) && negb (Less data a i) then skipNotGreater k data a (i + 1) j else i
  end.

(** [for i <= j && data.Less(a, j) { j-- }] *)
Fixpoint skipGreater (fuel : nat) (data : list A) (a i j : Z) : Z :=
  match fuel with
  | O => j
  | S k => if (i <=? j) && Less data a j then skipGreater k data a i (j - 1) else j
  end.

Fixpoint partitionEqual_loop (fuel : nat) (data : list A) (a i j : Z) : list A * Z :=
  match fuel with
  | O => (data, i)
  | S k =>
    let i := skipNotGreater (S (Z.to_nat (j - i))) data a i j in
    let j := skipGreater (S (Z.to_nat (j - i))) data a i j in
    if j <? i then (data, i)
    else partitionEqual_loop k (Swap data i j) a (i + 1) (j - 1)
  end.

(** [partitionEqual_func(data, a, b, pivot)]: the data and the new pivot. *)
Definition partitionEqual_func (data : list A) (a b pivot : Z) : list A * Z :=
  let data := Swap data a pivot in
  partitionEqual_loop (S (Z.to_nat (b - a))) data a (a + 1) (b - 1).

(** [for i < b && !data.Less(i, i-1) { i++ }] *)
Fixpoint skipOrdered (fuel : nat) (data : list A) (i b : Z) : Z :=
  match fuel with
  | O => i
  | S k => if (i <? b) && negb (Less data i (i - 1)) then skipOrdered k data (i + 1) b else i
  end.

(** [for j := i - 1; j >= 1; j-- { if !data.Less(j, j-1) { break }; data.Swap(j, j-1) }] *)
Fixpoint shiftLeft (fuel : nat) (data : list A) (j : Z) : list A :=
  match fuel with
  | O => data
  | S k =>
    if j <? 1 then data
    else if negb (Less data j (j - 1)) then data
    else shiftLeft k (Swap data j (j - 1)) (j - 1)
  end.

(** [for j := i + 1; j < b; j++ { if !data.Less(j, j-1) { break }; data.Swap(j, j-1) }] *)
Fixpoint shiftRight (fuel : nat) (data : list A) (j b : Z) : list A :=
  match fuel with
  | O => data
  | S k =>
    if b <=? j then data
    else if negb (Less data j (j - 1)) then data
    else shiftRight k (Swap data j (j - 1)) (j + 1) b
  end.

Definition maxSteps : nat := 5%nat.
Definition shortestShifting : Z := 50.

(** The loop of [partialInsertionSort_func] over [j < maxSteps]; [i] is
    kept from one step to the next. *)
Fixpoint partialInsertionSort_loop (steps : nat) (data : list A) (a b i : Z) : list A * bool :=
  match steps with
  | O => (data, false)
  | S k =>
    let i := skipOrdered (S (Z.to_nat (b - i))) data i b in
    if i =? b then (data, true)
    else if b - a <? shortestShifting then (data, false)
    else
      let data := Swap data i (i - 1) in
      let data := if 2 <=? i - a then shiftLeft (Z.to_nat i) data (i - 1) else data in
      let data := if 2 <=? b - i then shiftRight (Z.to_nat (b - i)) data (i + 1) b else data in
      partialInsertionSort_loop k data a b i
  end.

Definition partialInsertionSort_func (data : list A) (a b : Z) : list A * bool :=
  partialInsertionSort_loop maxSteps data a b (a + 1).

(** [xorshift.Next()] on a [uint64]: the new state, which is also the
    value returned. *)
Definition uint64 (x : Z) : Z := x mod 2 ^ 64.

Definition xorshift_Next (r : Z) : Z :=
  let r := Z.lxor r (uint64 (Z.shiftl r 13)) in
  let r := Z.lxor r (Z.shiftr r 7) in
  let r := Z.lxor r (uint64 (Z.shiftl r 17)) in
  r.

(** [bits.Len(x)]: the number of bits needed to represent [x]. *)
Definition bits_Len (x : Z) : Z := if x <=? 0 then 0 else Z.log2 x + 1.

Definition nextPowerOfTwo (length : Z) : Z := Z.shiftl 1 (bits_Len length).

Fixpoint breakPatterns_loop (n : nat) (data : list A) (a length idx i random modulus : Z) : list A :=
  match n with
  | O => data
  | S k =>
    let random := xorshift_Next random in
    let other := Z.land random (modulus - 1) in
    let other := if length <=? other then other - length else other in
    breakPatterns_loop k (Swap data (idx - 1 + i) (a + other)) a length idx (i + 1) random modulus
  end.

Definition breakPatterns_func (data : list A) (a b : Z) : list A :=
  let length := b - a in
  if 8 <=? length then
    let random := length in
    let modulus := nextPowerOfTwo length in
    let idx := a + Z.quot length 4 * 2 - 1 in
    breakPatterns_loop 3 data a length idx 0 random modulus
  else data.

Inductive sortedHint : Type :=
| unknownHint
| increasingHint
| decreasingHint.

(** [order2_func(data, a, b, &swaps)]: the two indices and the new count. *)
Definition order2_func (data : list A) (a b swaps : Z) : Z * Z * Z :=
  if Less data b a then (b, a, swaps + 1) else (a, b, swaps).

Definition median_func (data : list A) (a b c swaps : Z) : Z * Z :=
  let '(a, b, swaps) := order2_func data a b swaps in
  let '(b, c, swaps) := order2_func data b c swaps in
  let '(a, b, swaps) := order2_func data a b swaps in
  (b, swaps).

Definition medianAdjacent_func (data : list A) (a swaps : Z) : Z * Z :=
  median_func data (a - 1) a (a + 1) swaps.

Definition shortestNinther : Z := 50.
Definition maxSwaps : Z := 4 * 3.

Definition choosePivot_func (data : list A) (a b : Z) : Z * sortedHint :=
  let l := b - a in
  let swaps := 0 in
  let i := a + Z.quot l 4 * 1 in
  let j := a + Z.quot l 4 * 2 in
  let k := a + Z.quot l 4 * 3 in
  let '(j, swaps) :=
    if 8 <=? l then
      let '(i, j, k, swaps) :=
        if shortestNinther <=? l then
          let '(i, swaps) := medianAdjacent_func data i swaps in
          let '(j, swaps) := medianAdjacent_func data j swaps in
          let '(k, swaps) := medianAdjacent_func data k swaps in
          (i, j, k, swaps)
        else (i, j, k, swaps) in
      median_func data i j k swaps
    else (j, swaps) in
  if swaps =? 0 then (j, increasingHint)
  else if swaps =? maxSwaps then (j, decreasingHint)
  else (j, unknownHint).

Fixpoint reverseRange_loop (fuel : nat) (data : list A) (i j : Z) : list A :=
  match fuel with
  | O => data
  | S k => if i <? j then reverseRange_loop k (Swap data i j) (i + 1) (j - 1) else data
  end.

Definition reverseRange_func (data : list A) (a b : Z) : list A :=
  reverseRange_loop (Z.to_nat (b - a)) data a (b - 1).

Definition maxInsertion : Z := 12.

Definition isIncreasing (hint : sortedHint) : bool :=
  match hint with increasingHint => true | _ => false end.

Definition isDecreasing (hint : sortedHint) : bool :=
  match hint with decreasingHint => true | _ => false end.

(** [pdqsort_func(data, a, b, limit)]: each turn of its loop either returns
    or goes on with a shorter [data[a:b]], and the call it makes on the
    other part is on a shorter slice too, so [fuel] bounds both. *)
Fixpoint pdqsort_loop (fuel : nat) (data : list A) (a b limit : Z)
  (wasBalanced wasPartitioned : bool) : list A :=
  match fuel with
  | O => data
  | S k =>
    let length := b - a in
    if length <=? maxInsertion then insertionSort_func data a b
    else if limit =? 0 then heapSort_func data a b
    else
      let '(data, limit) :=
        if negb wasBalanced then (breakPatterns_func data a b, limit - 1)
        else (data, limit) in
      let '(pivot, hint) := choosePivot_func data a b in
      let '(data, pivot, hint) :=
        if isDecreasing hint
        then (reverseRange_func data a b, (b - 1) - (pivot - a), increasingHint)
        else (data, pivot, hint) in
      let '(data, done) :=
        if wasBalanced && wasPartitioned && isIncreasing hint
        then partialInsertionSort_func data a b
        else (data, false) in
      if done then data
      else if (0 <? a) && negb (Less data (a - 1) pivot) then
        let '(data, mid) := partitionEqual_func data a b pivot in
        pdqsort_loop k data mid b limit wasBalanced wasPartitioned
      else
        let '(data, mid, alreadyPartitioned) := partitionLeftRight_func data a b pivot in
        let wasPartitioned := alreadyPartitioned in
        let leftLen := mid - a in
        let rightLen := b - mid in
        let balanceThreshold := Z.quot length 8 in
        if leftLen <? rightLen then
          let wasBalanced := balanceThreshold <=? leftLen in
          let data := pdqsort_loop k data a mid limit true true in
          pdqsort_loop k data (mid + 1) b limit wasBalanced wasPartitioned
        else
          let wasBalanced := balanceThreshold <=? rightLen in
          let data := pdqsort_loop k data (mid + 1) b limit true true in
          pdqsort_loop k data a mid limit wasBalanced wasPartitioned
  end.

Definition pdqsort_func (data : list A) (a b limit : Z) : list A :=
  pdqsort_loop (S (Z.to_nat (b - a))) data a b limit true true.

End Pdqsort.

(** [Slice(x, less)] *)
Definition Slice (A : Type) (less : A -> A -> bool) (x : list A) : list A :=
  let length := Z.of_nat (List.length x) in
  let limit := bits_Len length in
  pdqsort_func less x 0 length limit.

End sort.

(** ** The program: [main.go] *)

(** An [error] value, by its message. *)
Definition error : Type := string.

(** The embedded file system [contentFS], as far as the program uses it:
    [ReadDir(name)] gives the names of the directory's entries (what
    [fileEntry.Name()] returns, in the order of the listing) and
    [ReadFile(name)] a file's bytes; either may fail. *)
Record FS : Type := {
  ReadDir : string -> error + list string;
  ReadFile : string -> error + string
}.

(** [type Post struct]; [Content], a [template.HTML], is a string. *)
Record Post : Type := {
  Title : string;
  Date : time.Time;
  Slug : string;
  Content : string;
  Summary : string
}.

(** [Post{}] *)
Definition zeroPost : Post :=
  {| Title := ""; Date := time.zero; Slug := ""; Content := ""; Summary := "" |}.

Definition setTitle (post : Post) (v : string) : Post :=
  {| Title := v; Date := Date post; Slug := Slug post;
     Content := Content post; Summary := Summary post |}.

Definition setDate (post : Post) (v : time.Time) : Post :=
  {| Title := Title post; Date := v; Slug := Slug post;
     Content := Content post; Summary := Summary post |}.

Definition setSlug (post : Post) (v : string) : Post :=
  {| Title := Title post; Date := Date post; Slug := v;
     Content := Content post; Summary := Summary post |}.

Definition setContent (post : Post) (v : string) : Post :=
  {| Title := Title post; Date := Date post; Slug := Slug post;
     Content := v; Summary := Summary post |}.

Definition setSummary (post : Post) (v : string) : Post :=
  {| Title := Title post; Date := Date post; Slug := Slug post;
     Content := Content post; Summary := v |}.

(** What the loader writes with [log.Println] before it skips a file. *)
Inductive LogLine : Type :=
| ErrorReadingFile (err : error)
| ErrorParsingFile (name : string)
| ErrorConvertingGoldmark (err : error).

(** The line-feed separator ["\n"]. *)
Definition LF : string := String (ascii_of_nat 10) EmptyString.

(** The body of the loop over the metadata lines (lines 126-134). *)
Definition metaLine (post : Post) (line : string) : Post :=
  let post :=
    if strings.HasPrefix line "Title: "
    then setTitle post (strings.TrimPrefix line "Title: ")
    else post in
  if strings.HasPrefix line "Date: "
  then
    let dateStr := strings.TrimPrefix line "Date: " in
    setDate post (fst (time.Parse_2006_01_02 (strings.TrimSpace dateStr)))
  else post.

(** The summary of a raw body (lines 148-152). *)
Definition summarize (bodyRaw : string) : string :=
  if 150 <? String.length bodyRaw
  then slice_to 150 bodyRaw ++ "..."
  else bodyRaw.

(** The slug of a file name (lines 137-138). *)
Definition slugOf (filename : string) : string :=
  strings.TrimSuffix filename (filepath.Ext filename).

(** The cache and what the loader has logged while it runs. *)
Record Loading : Type := {
  posts : list Post;
  logged : list LogLine
}.

(** [log.Println(...); continue] *)
Definition logAndContinue (st : Loading) (line : LogLine) : Loading :=
  {| posts := posts st; logged := (logged st ++ [line])%list |}.

(** [posts = append(posts, post)] *)
Definition appendPost (st : Loading) (post : Post) : Loading :=
  {| posts := (posts st ++ [post])%list; logged := logged st |}.

(** The state in which the program serves requests: the global
    [postCache], the lines logged while loading, and the count printed
    with ["Loaded posts:"]. *)
Record Loaded : Type := {
  postCache : list Post;
  logLines : list LogLine;
  printedCount : nat
}.

(** [type IndexData struct] and [type PostData struct] *)
Module IndexData.
Record t : Type := { Title : string; Posts : list Post }.
End IndexData.

Module PostData.
Record t : Type := { Title : string; Post : Post }.
End PostData.

(** What a handler does: it answers not-found ([http.NotFound]), answers
    status 500 with the template error ([http.Error]), panics
    ([template.Must]), or executes its template on the data. *)
Inductive Response : Type :=
| NotFound
| TemplateError (err : error)
| Panics (err : error)
| IndexPage (data : IndexData.t)
| PostPage (data : PostData.t).

Section Program.

(** [goldmark.Convert([]byte(bodyRaw), &buf)]: the markup written to the
    buffer, or the error returned. *)
Variable goldmark_Convert : string -> error + string.

(** [sort.Slice]: the properties below assume of it what its documentation
    promises ([sort.Sorts]), whichever algorithm the Go release has;
    [sort.Slice] is the algorithm of the current releases, and it keeps the
    promise ([Slice_Sorts]). *)
Variable sort_Slice : forall A : Type, (A -> A -> bool) -> list A -> list A.

(** The part of the loop body that depends on one file only (lines
    112-152): the post to append, or the line to log before [continue]. *)
Definition parsePost (filename content : string) : LogLine + Post :=
  let parts := strings.SplitN content "---" 3 in
  if List.length parts <? 3 then inl (ErrorParsingFile filename)
  else
    let metaRaw := nth 1 parts "" in
    let bodyRaw := nth 2 parts "" in
    let post := zeroPost in
    let lines := strings.Split metaRaw LF in
    let post := fold_left metaLine lines post in
    let post := setSlug post (slugOf filename) in
    match goldmark_Convert bodyRaw with
    | inl err => inl (ErrorConvertingGoldmark err)
    | inr html =>
      let post := setContent post html in
      let post := setSummary post (summarize bodyRaw) in
      inr post
    end.

(** Reading and parsing one entry (lines 105-152). *)
Definition loadEntry (contentFS : FS) (name : string) : LogLine + Post :=
  match ReadFile contentFS ("content/" ++ name) with
  | inl err => inl (ErrorReadingFile err)
  | inr content => parsePost name content
  end.

(** One iteration of the loop over [files] (lines 104-155). *)
Definition loadStep (contentFS : FS) (st : Loading) (name : string) : Loading :=
  match loadEntry contentFS name with
  | inl line => logAndContinue st line
  | inr post => appendPost st post
  end.

(** The comparison handed to [sort.Slice] (line 159). *)
Definition byDate (p q : Post) : bool := time.After (Date p) (Date q).

(** [loadPosts()]: [inl err] is [log.Fatal(err)]. *)
Definition loadPosts (contentFS : FS) : error + Loaded :=
  match ReadDir contentFS "content" with
  | inl err => inl err
  | inr files =>
    let st := fold_left (loadStep contentFS) files
                        {| posts := []; logged := [] |} in
    let sorted := sort_Slice Post byDate (posts st) in
    inr {| postCache := sorted;
           logLines := logged st;
           printedCount := List.length sorted |}
  end.

End Program.

(** The loop of the [/post/] handler (lines 54-62): [(foundPost, found)]. *)
Fixpoint scanPosts (slug : string) (cache : list Post) : Post * bool :=
  match cache with
  | [] => (zeroPost, false)
  | p :: rest =>
    if String.eqb (Slug p) slug then (p, true) else scanPosts slug rest
  end.

(** The handler of [/post/] (lines 50-78).  [parsed] is the outcome of
    [template.ParseFiles]: the error, if it returns one. *)
Definition postHandler (parsed : option error) (cache : list Post) (path : string)
  : Response :=
  let slug := strings.TrimPrefix path "/post/" in
  let '(foundPost, found) := scanPosts slug cache in
  if negb found then NotFound
  else
    match parsed with
    | Some err => Panics err
    | None =>
      PostPage {| PostData.Title := Title foundPost; PostData.Post := foundPost |}
    end.


(** The read operation the specification calls [findBySlug]: the outcome of
    the handler's loop, [None] when it ends with [found] false. *)
Definition findBySlug (cache : list Post) (id : string) : option Post :=
  let '(foundPost, found) := scanPosts id cache in
  if found then Some foundPost else None.

(** The directive [//go:embed content/*.md] (line 18): the listing of
    [content] succeeds, names each entry once, and every name matches
    [*.md]. *)
Definition embedsContent (contentFS : FS) : Prop :=
  exists files : list string,
    ReadDir contentFS "content" = inr files /\
    NoDup files /\
    Forall (fun name => exists stem, name = stem ++ ".md") files.

(** ** Notions of the specification *)

(** The three-segment structure: the split on ["---"] yields three parts. *)
Definition threeSegments (content : string) : Prop :=
  3 <= List.length (strings.SplitN content "---" 3).

(** The raw body: the third segment. *)
Definition bodyOf (content : string) : string :=
  nth 2 (strings.SplitN content "---" 3) "".

(** The metadata lines: the second segment, split at line feeds. *)
Definition metaLinesOf (content : string) : list string :=
  strings.Split (nth 1 (strings.SplitN content "---" 3) "") LF.

(** The header fields of a document. *)
Definition headerOf (content : string) : Post :=
  fold_left metaLine (metaLinesOf content) zeroPost.

(** The post of a document whose body converts to [html]. *)
Definition postOf (filename content html : string) : Post :=
  setSummary (setContent (setSlug (headerOf content) (slugOf filename)) html)
             (summarize (bodyOf content)).

(** The value of the last header line with the given prefix, if any. *)
Definition headerValue (prefix : string) (lines : list string) : option string :=
  fold_left (fun acc line =>
               if strings.HasPrefix line prefix
               then Some (strings.TrimPrefix line prefix) else acc)
            lines None.

(** A date value parses when [time.Parse] returns no error for it once
    trimmed. *)
Definition parseable (dateStr : string) : bool :=
  match snd (time.Parse_2006_01_02 (strings.TrimSpace dateStr)) with
  | None => true
  | Some _ => false
  end.

(** The date header of a document is missing or does not parse. *)
Definition dateMissingOrUnparseable (content : string) : Prop :=
  headerValue "Date: " (metaLinesOf content) = None \/
  exists v, headerValue "Date: " (metaLinesOf content) = Some v /\ parseable v = false.

(** Every occurrence of [q] in [l] comes before every occurrence of [p]. *)
Definition precedes (q p : Post) (l : list Post) : Prop :=
  forall i j, nth_error l i = Some p -> nth_error l j = Some q -> j < i.

(** Descending by date: each document is no older than the next. *)
Definition descending (l : list Post) : Prop :=
  forall i, S i < List.length l ->
    (Date (nth (S i) l zeroPost) <= Date (nth i l zeroPost))%Z.

(** The documents of [l] published at [d], in the order of [l]. *)
Definition publishedAt (d : time.Time) (l : list Post) : list Post :=
  filter (fun p => Z.eqb (Date p) d) l.

(** [sorted] keeps the relative order [l] has among documents of equal
    date. *)
Definition stable (l sorted : list Post) : Prop :=
  forall d, publishedAt d sorted = publishedAt d l.

(** ** Notions of the calendar and of the date line *)

(** A calendar day: a month of the year and a day of that month. *)
Definition validDate (year month day : Z) : Prop :=
  (1 <= month <= 12 /\ 1 <= day <= time.daysIn month year)%Z.

(** The first day comes before the second in the calendar. *)
Definition earlierDay (y m d y' m' d' : Z) : Prop :=
  (y < y' \/ (y = y' /\ (m < m' \/ (m = m' /\ d < d'))))%Z.

(** The number of a day in its year, from 0, and the days of a year. *)
Definition dayOfYear (year month day : Z) : Z :=
  (time.daysBefore (month - 1)
   + (if time.isLeap year && (3 <=? month) then 1 else 0) + (day - 1))%Z.

Definition daysOf (year : Z) : Z := if time.isLeap year then 366%Z else 365%Z.

(** A decimal digit, and its value. *)
Definition isDigitByte (c : ascii) : bool :=
  ((48 <=? byte_val c) && (byte_val c <=? 57))%Z.

Definition digitOf (c : ascii) : Z := (byte_val c - 48)%Z.

(** The ten bytes [YYYY-MM-DD]. *)
Definition dateValue (y1 y2 y3 y4 m1 m2 d1 d2 : ascii) : string :=
  String y1 (String y2 (String y3 (String y4 (String "-"
    (String m1 (String m2 (String "-" (String d1 (String d2 EmptyString))))))))).

(** A string of ASCII white space only. *)
Fixpoint allAsciiSpace (s : string) : bool :=
  match s with
  | EmptyString => true
  | String c s' => strings.asciiSpace c && allAsciiSpace s'
  end.

(** ** Notions of the documented format *)

(** A source file in the documented format. *)
Definition document (title date body : string) : string :=
  "---" ++ LF ++ "Title: " ++ title ++ LF ++ "Date: " ++ date ++ LF ++ "---" ++ LF ++ body.

(** Its metadata block, between the two delimiters. *)
Definition headerBlock (title date : string) : string :=
  LF ++ "Title: " ++ title ++ LF ++ "Date: " ++ date ++ LF.

(** The byte [c] is none of the bytes of [sep]. *)
Fixpoint without (c : ascii) (sep : string) : bool :=
  match sep with
  | EmptyString => true
  | String d sep' => negb (Ascii.eqb c d) && without c sep'
  end.

(** ** Notions for the correctness of [sort.Slice]

    The functions of [pdqsort_func] work on a range [data[a:b]] of the
    slice.  These are the relations their loops keep. *)

Section Ranges.

Local Open Scope Z_scope.

Context {A : Type} (less : A -> A -> bool).
Implicit Types (data : list A) (i j k a b mid first lo hi r : Z).

(** [len(data)] *)
Definition len data : Z := Z.of_nat (List.length data).

(** [data[a:b]] *)
Definition seg data a b : list A :=
  firstn (Z.to_nat (b - a)) (skipn (Z.to_nat a) data).

(** A property of every element of [data[a:b]]. *)
Definition all_on (P : A -> Prop) data a b : Prop :=
  forall k x, a <= k < b -> sort.elem data k = Some x -> P x.

(** [data'] is [data] with the elements of [data[a:b]] rearranged. *)
Definition Within a b data data' : Prop :=
  0 <= a /\ a <= b /\ b <= len data /\
  len data' = len data /\
  (forall k, k < a \/ b <= k -> sort.elem data' k = sort.elem data k) /\
  Permutation (seg data a b) (seg data' a b).

(** [data[a:b]] is in the order of [less]. *)
Definition sorted_on (less : A -> A -> bool) data a b : Prop :=
  forall i j x y, a <= i -> i < j -> j < b ->
    sort.elem data i = Some x -> sort.elem data j = Some y -> less y x = false.

(** The index [k] of [Swap data i j] holds what [data] holds at [tr i j k]. *)
Definition tr i j k : Z := if k =? j then i else if k =? i then j else k.

(** What the two scans of [partitionLeftRight_func] have established:
    everything between [a] and [i] is less than the pivot at [a], and
    nothing after [j] is. *)
Definition scanned data a b i j : Prop :=
  a + 1 <= i /\ j <= b - 1 /\ i <= j + 1 /\
  (forall k, a < k < i -> sort.Less less data k a = true) /\
  (forall k, j < k < b -> sort.Less less data k a = false).

(** The postcondition of a partition around the element at [mid]. *)
Definition partitioned data a b mid : Prop :=
  a <= mid < b /\
  exists p, sort.elem data mid = Some p /\
    all_on (fun x => less x p = true) data a mid /\
    all_on (fun x => less x p = false) data (mid + 1) b.

(** What the two scans of [partitionEqual_func] have established: the pivot
    at [a] is less than nothing between [a] and [i], and less than
    everything after [j]. *)
Definition scannedEq data a b i j : Prop :=
  a + 1 <= i /\ j <= b - 1 /\ i <= j + 1 /\
  (forall k, a < k < i -> sort.Less less data a k = false) /\
  (forall k, j < k < b -> sort.Less less data a k = true).

(** The postcondition of [partitionEqual_func]: [data[a:mid]] holds the
    elements the pivot is not less than, [data[mid:b]] those it is less
    than. *)
Definition partitionedEq data a b mid (p : A) : Prop :=
  a < mid <= b /\
  all_on (fun x => less p x = false) data a mid /\
  all_on (fun x => less p x = true) data mid b.

(** No element of [data[a:b]] is less than the element before [a], if
    there is one. *)
Definition lowbound data a b : Prop :=
  forall q, sort.elem data (a - 1) = Some q ->
    all_on (fun x => less x q = false) data a b.

(** The node [r] of the heap at [data[first:]] is not less than its
    children below [hi]. *)
Definition heap_at data first hi r : Prop :=
  forall c, c = 2 * r + 1 \/ c = 2 * r + 2 -> c < hi ->
    sort.Less less data (first + r) (first + c) = false.

Definition heap_from data first lo hi : Prop :=
  forall r, lo <= r < hi -> heap_at data first hi r.

(** The state of the second loop of [heapSort_func] with [m] nodes left in
    the heap: a heap, followed by a sorted part that holds nothing less
    than a node of the heap. *)
Definition popping data first hi m : Prop :=
  heap_from data first 0 m /\
  sorted_on less data (first + m) (first + hi) /\
  (forall r s, 0 <= r < m -> m <= s < hi ->
     sort.Less less data (first + s) (first + r) = false).

End Ranges.

(** ** Sample environments *)

(** A converter that wraps the body in one paragraph, and one that fails:
    stand-ins for the two outcomes of [goldmark.Convert]. *)
Definition paragraph (bodyRaw : string) : error + string :=
  inr ("<p>" ++ bodyRaw ++ "</p>").

Definition failing (bodyRaw : string) : error + string :=
  inl "render failure".

(** A file system holding the given files of the directory [content]. *)
Definition contentOf (files : list (string * string)) : FS :=
  {| ReadDir := fun dir =>
       if String.eqb dir "content" then inr (map fst files)
       else inl "file does not exist";
     ReadFile := fun path =>
       match find (fun f => String.eqb ("content/" ++ fst f) path) files with
       | Some f => inr (snd f)
       | None => inl "file does not exist"
       end |}.

(** [n] copies of a byte. *)
Fixpoint repeated (c : ascii) (n : nat) : string :=
  match n with
  | 0 => EmptyString
  | S n' => String c (repeated c n')
  end.

(** A source file with the given date line and body. *)
Definition sourceFile (date body : string) : string :=
  "---" ++ LF ++ "Title: Post" ++ LF ++ "Date: " ++ date ++ LF ++ "---" ++ LF ++ body.

(** Two documents of the specification's scenario A, and one whose body is
    a hundred two-byte characters (U+00E9, bytes C3 A9). *)
Definition postA : string := sourceFile "2024-01-01" "Hello".

Definition postB : string := sourceFile "2024-06-01" (repeated "x" 200).

Fixpoint accents (n : nat) : string :=
  match n with
  | 0 => EmptyString
  | S n' => String (ascii_of_nat 195) (String (ascii_of_nat 169) (accents n'))
  end.

Definition accented : string := sourceFile "2024-03-01" (accents 100).

(** A document with a date that does not parse, and one with CRLF line
    ends. *)
Definition undated : string := sourceFile "not-a-date" "No date".

Definition CR : string := String (ascii_of_nat 13) EmptyString.

Definition crlf : string :=
  "---" ++ CR ++ LF ++ "Title: Hello" ++ CR ++ LF ++ "Date: 2024-01-01" ++ CR ++ LF
  ++ "---" ++ CR ++ LF ++ "body".

(** The file system of scenario A, with the undated document added. *)
Definition scenarioA : FS :=
  contentOf [("post-a.md", postA); ("post-b.md", postB); ("undated.md", undated)].


(** Fifty posts named [01.md] to [50.md] in the order they were written,
    one a year from 2001 on, the second on the day of the first. *)
Definition twoDigits (n : nat) : string :=
  String (ascii_of_nat (48 + n / 10)) (String (ascii_of_nat (48 + n mod 10)) EmptyString).

Definition chronicleFile (n : nat) : string * string :=
  (twoDigits n ++ ".md",
   sourceFile ("20" ++ twoDigits (if n =? 2 then 1 else n) ++ "-01-01")
              ("Post " ++ twoDigits n)).

Definition chronicle : FS := contentOf (map chronicleFile (seq 1 50)).

(** A listing with a file of one delimiter only and a file that cannot be
    read. *)
Definition troubled : FS :=
  {| ReadDir := fun dir =>
       if String.eqb dir "content" then inr ["post-a.md"; "torn.md"; "gone.md"]
       else inl "file does not exist";
     ReadFile := fun path =>
       if String.eqb path "content/post-a.md" then inr postA
       else if String.eqb path "content/torn.md"
            then inr ("---" ++ LF ++ "Title: Torn" ++ LF)
            else inl "file does not exist" |}.

(** Three posts, the first and the third of the same day. *)
Definition twins : FS :=
  contentOf [("a.md", sourceFile "2024-01-01" "first");
             ("b.md", sourceFile "2024-06-01" "second");
             ("c.md", sourceFile "2024-01-01" "third")].

(** The posts a listing yields in the order of enumeration, and the lines
    it logs. *)
Definition enumerated (convert : string -> error + string) (contentFS : FS)
  (files : list string) : list Post :=
  flat_map (fun name => match loadEntry convert contentFS name with
                        | inl _ => []
                        | inr post => [post]
                        end) files.

Definition failures (convert : string -> error + string) (contentFS : FS)
  (files : list string) : list LogLine :=
  flat_map (fun name => match loadEntry convert contentFS name with
                        | inl line => [line]
                        | inr _ => []
                        end) files.

(** * Properties *)

(** ** Slices *)

Lemma append_empty_r (s : string) : s ++ "" = s.
Proof. induction s as [|c s IH]; simpl; [reflexivity | now rewrite IH]. Qed.

Lemma append_assoc (a b c : string) : (a ++ b) ++ c = a ++ (b ++ c).
Proof. induction a as [|x a IH]; simpl; [reflexivity | now rewrite IH]. Qed.

Lemma length_append (a b : string) :
  String.length (a ++ b) = String.length a + String.length b.
Proof. induction a as [|x a IH]; simpl; [reflexivity | now rewrite IH]. Qed.

Lemma slice_split (n : nat) (s : string) : slice_to n s ++ slice_from n s = s.
Proof.
  revert s; induction n as [|n IH]; intros [|c s]; simpl; try reflexivity.
  now rewrite IH.
Qed.

Lemma length_slice_to (n : nat) (s : string) :
  String.length (slice_to n s) = Nat.min n (String.length s).
Proof.
  revert s; induction n as [|n IH]; intros [|c s]; simpl; try reflexivity.
  now rewrite IH.
Qed.

Lemma slice_to_append (p r : string) : slice_to (String.length p) (p ++ r) = p.
Proof. induction p as [|c p IH]; simpl; [now destruct r | now rewrite IH]. Qed.

Lemma slice_from_append (p r : string) : slice_from (String.length p) (p ++ r) = r.
Proof. induction p as [|c p IH]; simpl; [reflexivity | exact IH]. Qed.

Lemma slice_to_all (n : nat) (s : string) :
  String.length s <= n -> slice_to n s = s.
Proof.
  revert s; induction n as [|n IH]; intros [|c s] H; simpl in *; try reflexivity.
  - lia.
  - rewrite IH; [reflexivity | lia].
Qed.

(** ** Prefixes and suffixes *)

Lemma HasPrefix_append (p r : string) : strings.HasPrefix (p ++ r) p = true.
Proof.
  unfold strings.HasPrefix. rewrite slice_to_append, String.eqb_refl, length_append.
  rewrite andb_true_r. apply Nat.leb_le. lia.
Qed.

Lemma HasPrefix_inv (s p : string) :
  strings.HasPrefix s p = true -> s = p ++ slice_from (String.length p) s.
Proof.
  unfold strings.HasPrefix. intros H. apply andb_true_iff in H as [_ H].
  apply String.eqb_eq in H.
  rewrite <- H at 1. symmetry. apply slice_split.
Qed.

Lemma TrimPrefix_append (p r : string) : strings.TrimPrefix (p ++ r) p = r.
Proof.
  unfold strings.TrimPrefix. rewrite HasPrefix_append. apply slice_from_append.
Qed.

Lemma HasSuffix_append (p r : string) : strings.HasSuffix (p ++ r) r = true.
Proof.
  unfold strings.HasSuffix. rewrite length_append.
  replace (String.length p + String.length r - String.length r) with (String.length p) by lia.
  rewrite slice_from_append, String.eqb_refl, andb_true_r.
  apply Nat.leb_le. lia.
Qed.

Lemma TrimSuffix_append (p r : string) : strings.TrimSuffix (p ++ r) r = p.
Proof.
  unfold strings.TrimSuffix. rewrite HasSuffix_append, length_append.
  replace (String.length p + String.length r - String.length r) with (String.length p) by lia.
  apply slice_to_append.
Qed.

Lemma append_inj_r (p a b : string) : p ++ a = p ++ b -> a = b.
Proof. induction p as [|c p IH]; simpl; intros H; [exact H | injection H; auto]. Qed.

Lemma append_inj_l (a b r : string) : a ++ r = b ++ r -> a = b.
Proof.
  revert b; induction a as [|c a IH]; intros [|d b] H; simpl in *.
  - reflexivity.
  - exfalso. apply (f_equal String.length) in H. simpl in H.
    rewrite length_append in H. lia.
  - exfalso. apply (f_equal String.length) in H. simpl in H.
    rewrite length_append in H. lia.
  - injection H as -> H. f_equal. now apply IH.
Qed.

(** ** Reversal *)

Lemma string_rev_append (a b : string) :
  string_rev (a ++ b) = string_rev b ++ string_rev a.
Proof.
  induction a as [|c a IH]; simpl.
  - now rewrite append_empty_r.
  - now rewrite IH, append_assoc.
Qed.

Lemma string_rev_involutive (s : string) : string_rev (string_rev s) = s.
Proof.
  induction s as [|c s IH]; simpl; [reflexivity |].
  now rewrite string_rev_append, IH.
Qed.

(** ** The extension and the slug *)

(** The loop of [Ext] returns a suffix of the path it scans. *)
Lemma Ext_loop_suffix (before after : string) :
  exists stem, string_rev before ++ after = stem ++ filepath.Ext_loop before after.
Proof.
  revert after; induction before as [|c before IH]; intros after; simpl.
  - exists after. now rewrite append_empty_r.
  - destruct (filepath.IsPathSeparator c).
    + exists (string_rev before ++ String c after).
      now rewrite append_empty_r, append_assoc.
    + destruct (Ascii.eqb c "."%char).
      * exists (string_rev before). now rewrite append_assoc.
      * destruct (IH (String c after)) as [stem Hstem].
        exists stem. now rewrite append_assoc.
Qed.

Lemma Ext_suffix (path : string) : exists stem, path = stem ++ filepath.Ext path.
Proof.
  destruct (Ext_loop_suffix (string_rev path) "") as [stem H].
  rewrite string_rev_involutive, append_empty_r in H. now exists stem.
Qed.

(** The slug and the extension put the name back together. *)
Lemma slugOf_Ext (filename : string) :
  slugOf filename ++ filepath.Ext filename = filename.
Proof.
  unfold slugOf. destruct (Ext_suffix filename) as [stem H].
  remember (filepath.Ext filename) as ext eqn:E. clear E. subst filename.
  now rewrite TrimSuffix_append.
Qed.

Lemma Ext_md (stem : string) : filepath.Ext (stem ++ ".md") = ".md".
Proof.
  unfold filepath.Ext. rewrite string_rev_append. reflexivity.
Qed.

Lemma slugOf_md (stem : string) : slugOf (stem ++ ".md") = stem.
Proof. unfold slugOf. rewrite Ext_md. apply TrimSuffix_append. Qed.

(** A name without an extension is its own slug, and only such a name. *)
Lemma slugOf_fixed (s : string) : slugOf s = s <-> filepath.Ext s = "".
Proof.
  split; intros H.
  - pose proof (slugOf_Ext s) as E. rewrite H in E.
    apply (append_inj_r s). now rewrite append_empty_r.
  - pose proof (slugOf_Ext s) as E. rewrite H, append_empty_r in E. exact E.
Qed.

(** ** Sorting *)

(** [(l1 ++ [x])] is strongly sorted when [l1] is and [x] comes after all
    of it. *)
Lemma StronglySorted_snoc {A : Type} (R : A -> A -> Prop) (l : list A) (x : A) :
  StronglySorted R l -> Forall (fun y => R y x) l -> StronglySorted R (l ++ [x]).
Proof.
  induction l as [|a l IH]; simpl; intros Hs Hx.
  - constructor; constructor.
  - apply StronglySorted_inv in Hs as [Hs Ha].
    inversion Hx as [|? ? Hax Hx']; subst.
    constructor.
    + now apply IH.
    + apply Forall_app. split; [exact Ha | now constructor].
Qed.

Lemma StronglySorted_rev {A : Type} (R : A -> A -> Prop) (l : list A) :
  StronglySorted R l -> StronglySorted (fun a b => R b a) (rev l).
Proof.
  induction l as [|a l IH]; simpl; intros Hs.
  - constructor.
  - apply StronglySorted_inv in Hs as [Hs Ha].
    apply StronglySorted_snoc; [now apply IH |].
    apply Forall_forall. intros y Hy. apply in_rev in Hy.
    rewrite Forall_forall in Ha. now apply Ha.
Qed.

Section Sink.

Context {A : Type} (less : A -> A -> bool).
Hypothesis less_swo : sort.StrictWeakOrder less.

Lemma less_asym (x y : A) : less x y = true -> less y x = false.
Proof.
  destruct less_swo as (Hirr & Htrans & _). intros Hxy.
  destruct (less y x) eqn:Hyx; [| reflexivity].
  rewrite <- (Hirr x). symmetry. now apply Htrans with y.
Qed.

Lemma sink_perm (x : A) (left : list A) :
  Permutation (x :: left) (sort.sink less x left).
Proof.
  induction left as [|y left IH]; simpl; [reflexivity |].
  destruct (less x y); [| reflexivity].
  rewrite perm_swap. now constructor.
Qed.

(** Sinking keeps the part read backwards in order. *)
Lemma sink_sorted (x : A) (left : list A) :
  StronglySorted (fun a b => less a b = false) left ->
  StronglySorted (fun a b => less a b = false) (sort.sink less x left).
Proof.
  destruct less_swo as (Hirr & Htrans & Hneg).
  induction left as [|y left IH]; simpl; intros Hs.
  - constructor; constructor.
  - apply StronglySorted_inv in Hs as [Hs Hy].
    destruct (less x y) eqn:Hxy.
    + constructor; [now apply IH |].
      apply Forall_forall. intros z Hz.
      apply (Permutation_in _ (Permutation_sym (sink_perm x left))) in Hz.
      destruct Hz as [<- | Hz].
      * now apply less_asym.
      * rewrite Forall_forall in Hy. now apply Hy.
    + constructor; [now constructor |].
      constructor; [exact Hxy |].
      apply Forall_forall. intros z Hz. rewrite Forall_forall in Hy.
      apply Hneg with y; [exact Hxy | now apply Hy].
Qed.

Lemma sinks_perm (x acc : list A) :
  Permutation (rev acc ++ x) (rev (fold_left (fun left e => sort.sink less e left) x acc)).
Proof.
  revert acc; induction x as [|e x IH]; intros acc; simpl.
  - now rewrite app_nil_r.
  - rewrite <- IH. rewrite <- (Permutation_rev (sort.sink less e acc)).
    rewrite <- sink_perm. rewrite <- (Permutation_rev acc).
    apply Permutation_sym, Permutation_middle.
Qed.

Lemma sinks_sorted (x acc : list A) :
  StronglySorted (fun a b => less a b = false) acc ->
  StronglySorted (fun a b => less a b = false)
                 (fold_left (fun left e => sort.sink less e left) x acc).
Proof.
  revert acc; induction x as [|e x IH]; intros acc Hacc; simpl.
  - exact Hacc.
  - apply IH. now apply sink_sorted.
Qed.

Lemma insertionSort_perm (x : list A) : Permutation x (sort.insertionSort A less x).
Proof. exact (sinks_perm x []). Qed.

Lemma insertionSort_ordered (x : list A) :
  sort.ordered less (sort.insertionSort A less x).
Proof.
  unfold sort.ordered, sort.insertionSort.
  apply (StronglySorted_rev (fun a b => less a b = false)).
  apply sinks_sorted. constructor.
Qed.

End Sink.

(** The insertion sort meets the contract of [sort.Slice]. *)
Lemma insertionSort_Sorts : sort.Sorts sort.insertionSort.
Proof.
  intros A less Hswo x. split.
  - now apply insertionSort_perm.
  - now apply insertionSort_ordered.
Qed.

(** *** [Slice] on a short slice *)

Section Small.

Context {A : Type} (less : A -> A -> bool).

Lemma elem_app_at (l1 l2 : list A) (k : nat) :
  sort.elem (l1 ++ l2) (Z.of_nat (List.length l1 + k)) = nth_error l2 k.
Proof.
  unfold sort.elem.
  destruct (Z.ltb_spec (Z.of_nat (List.length l1 + k)) 0) as [H | _]; [lia |].
  rewrite Nat2Z.id. rewrite nth_error_app2 by lia.
  f_equal. lia.
Qed.

Lemma store_app_at (l1 l2 : list A) (k : nat) (x : A) :
  sort.store (List.length l1 + k) x (l1 ++ l2) = (l1 ++ sort.store k x l2)%list.
Proof. induction l1 as [|y l1 IH]; simpl; [reflexivity | now rewrite IH]. Qed.

Lemma Less_adjacent (l1 rest : list A) (x y : A) :
  sort.Less less (l1 ++ y :: x :: rest)
            (Z.of_nat (S (List.length l1))) (Z.of_nat (S (List.length l1)) - 1) = less x y.
Proof.
  unfold sort.Less.
  replace (Z.of_nat (S (List.length l1)) - 1)%Z with (Z.of_nat (List.length l1 + 0)) by lia.
  replace (Z.of_nat (S (List.length l1))) with (Z.of_nat (List.length l1 + 1)) by lia.
  now rewrite !elem_app_at.
Qed.

Lemma Swap_adjacent (l1 rest : list A) (x y : A) :
  sort.Swap (l1 ++ y :: x :: rest)
            (Z.of_nat (S (List.length l1))) (Z.of_nat (S (List.length l1)) - 1) =
  (l1 ++ x :: y :: rest)%list.
Proof.
  unfold sort.Swap.
  replace (Z.of_nat (S (List.length l1)) - 1)%Z with (Z.of_nat (List.length l1 + 0)) by lia.
  replace (Z.of_nat (S (List.length l1))) with (Z.of_nat (List.length l1 + 1)) by lia.
  rewrite !elem_app_at. simpl nth_error.
  rewrite !Nat2Z.id, !store_app_at. reflexivity.
Qed.

Lemma insertionSort_inner_S (fuel : nat) (data : list A) (a j : Z) :
  sort.insertionSort_inner less (S fuel) data a j =
  if ((a <? j)%Z && sort.Less less data j (j - 1))%bool
  then sort.insertionSort_inner less fuel (sort.Swap data j (j - 1)) a (j - 1)
  else data.
Proof. reflexivity. Qed.

Lemma insertionSort_outer_S (fuel : nat) (data : list A) (a b i : Z) :
  sort.insertionSort_outer less (S fuel) data a b i =
  if (i <? b)%Z
  then sort.insertionSort_outer less fuel
         (sort.insertionSort_inner less (Z.to_nat (i - a)) data a i) a b (i + 1)
  else data.
Proof. reflexivity. Qed.

Lemma insertionSort_inner_sink (left rest : list A) (x : A) (fuel : nat) :
  List.length left <= fuel ->
  sort.insertionSort_inner less fuel (rev left ++ x :: rest) 0 (Z.of_nat (List.length left)) =
  (rev (sort.sink less x left) ++ rest)%list.
Proof.
  revert left rest; induction fuel as [|fuel IH]; intros left rest Hfuel.
  - destruct left; [reflexivity | simpl in Hfuel; lia].
  - destruct left as [|y left]; [reflexivity |].
    rewrite insertionSort_inner_S.
    change (List.length (y :: left)) with (S (List.length left)).
    destruct (Z.ltb_spec 0 (Z.of_nat (S (List.length left)))) as [_ | H]; [| lia].
    cbn [andb rev]. rewrite <- app_assoc. cbn [app].
    rewrite <- (length_rev left).
    rewrite Less_adjacent, Swap_adjacent.
    cbn [sort.sink]. destruct (less x y).
    + replace (Z.of_nat (S (List.length (rev left))) - 1)%Z
        with (Z.of_nat (List.length left)) by (rewrite length_rev; lia).
      rewrite IH by (simpl in Hfuel; lia).
      cbn [rev]. now rewrite <- app_assoc.
    + cbn [rev]. now rewrite <- !app_assoc.
Qed.

Lemma insertionSort_outer_sinks (rest left : list A) (fuel : nat) :
  List.length rest <= fuel ->
  sort.insertionSort_outer less fuel (rev left ++ rest) 0
    (Z.of_nat (List.length left + List.length rest)) (Z.of_nat (List.length left)) =
  rev (fold_left (fun left e => sort.sink less e left) rest left).
Proof.
  revert rest left; induction fuel as [|fuel IH]; intros rest left Hfuel.
  - destruct rest; [simpl; now rewrite app_nil_r | simpl in Hfuel; lia].
  - destruct rest as [|x rest].
    + simpl. rewrite app_nil_r.
      destruct (Z.ltb_spec (Z.of_nat (List.length left)) (Z.of_nat (List.length left + 0)));
        [lia | reflexivity].
    + rewrite insertionSort_outer_S.
      destruct (Z.ltb_spec (Z.of_nat (List.length left))
                           (Z.of_nat (List.length left + List.length (x :: rest))))
        as [_ | H]; [| simpl in H; lia].
      replace (Z.to_nat (Z.of_nat (List.length left) - 0)) with (List.length left) by lia.
      rewrite insertionSort_inner_sink by lia.
      assert (Hlen : List.length (sort.sink less x left) = S (List.length left)).
      { clear. induction left as [|y left IHl]; simpl; [reflexivity |].
        destruct (less x y); simpl; [now rewrite IHl | reflexivity]. }
      replace (Z.of_nat (List.length left + List.length (x :: rest)))
        with (Z.of_nat (List.length (sort.sink less x left) + List.length rest))
        by (rewrite Hlen; simpl; lia).
      replace (Z.of_nat (List.length left) + 1)%Z
        with (Z.of_nat (List.length (sort.sink less x left))) by (rewrite Hlen; lia).
      rewrite IH by (simpl in Hfuel; lia). reflexivity.
Qed.

Lemma insertionSort_func_whole (x : list A) :
  sort.insertionSort_func less x 0 (Z.of_nat (List.length x)) = sort.insertionSort A less x.
Proof.
  unfold sort.insertionSort_func, sort.insertionSort.
  destruct x as [|e x]; [reflexivity |].
  replace (Z.to_nat (Z.of_nat (List.length (e :: x)) - 0)) with (S (List.length x))
    by (simpl List.length; lia).
  change (e :: x) with (rev [e] ++ x)%list at 1.
  replace (Z.of_nat (List.length (e :: x))) with (Z.of_nat (List.length [e] + List.length x))
    by (simpl; lia).
  change (0 + 1)%Z with (Z.of_nat (List.length [e])).
  rewrite insertionSort_outer_sinks by lia. reflexivity.
Qed.

End Small.

(** On a slice of at most 12 elements [Slice] is the insertion sort. *)
Lemma Slice_small (A : Type) (less : A -> A -> bool) (x : list A) :
  List.length x <= 12 -> sort.Slice A less x = sort.insertionSort A less x.
Proof.
  intros H. unfold sort.Slice, sort.pdqsort_func. cbn [sort.pdqsort_loop].
  unfold sort.maxInsertion.
  destruct (Z.leb_spec (Z.of_nat (List.length x) - 0) 12) as [_ | H']; [| lia].
  apply insertionSort_func_whole.
Qed.

(** *** [Slice] meets its contract

    Every function of [pdqsort_func] rearranges the range it is given and
    nothing else; the insertion sort, the heap sort and the recursion on
    the two sides of a partition leave the range in the order of [less]. *)

(** *** Slices as arrays *)

Section Arrays.

Local Open Scope Z_scope.

Context {A : Type}.
Implicit Types (data : list A) (i j k a b : Z).

Lemma elem_nat data (n : nat) : sort.elem data (Z.of_nat n) = nth_error data n.
Proof.
  unfold sort.elem. destruct (Z.ltb_spec (Z.of_nat n) 0); [lia |].
  now rewrite Nat2Z.id.
Qed.

Lemma elem_Z data i : 0 <= i -> sort.elem data i = nth_error data (Z.to_nat i).
Proof. intros H. rewrite <- (Z2Nat.id i H) at 1. apply elem_nat. Qed.

Lemma elem_neg data i : i < 0 -> sort.elem data i = None.
Proof. intros H. unfold sort.elem. now destruct (Z.ltb_spec i 0); [| lia]. Qed.

Lemma elem_Some_range data i x : sort.elem data i = Some x -> 0 <= i < len data.
Proof.
  unfold sort.elem, len. destruct (Z.ltb_spec i 0); [discriminate |].
  intros E. assert (Hn : nth_error data (Z.to_nat i) <> None) by congruence.
  apply nth_error_Some in Hn. lia.
Qed.

Lemma elem_in_range data i : 0 <= i < len data -> exists x, sort.elem data i = Some x.
Proof.
  unfold len. intros H. rewrite elem_Z by lia.
  destruct (nth_error data (Z.to_nat i)) eqn:E; [now eexists |].
  apply nth_error_None in E. lia.
Qed.

Lemma elem_out data i : len data <= i -> sort.elem data i = None.
Proof.
  intros H. destruct (sort.elem data i) eqn:E; [| reflexivity].
  apply elem_Some_range in E. lia.
Qed.

Lemma elem_ext data data' :
  (forall k, sort.elem data k = sort.elem data' k) -> data = data'.
Proof.
  intros H. apply nth_error_ext. intros n. rewrite <- !elem_nat. apply H.
Qed.

Lemma length_store (n : nat) (x : A) data : List.length (sort.store n x data) = List.length data.
Proof.
  revert n; induction data as [|y data IH]; intros [|n]; simpl; auto.
Qed.

Lemma nth_error_store_eq (n : nat) (x : A) data :
  (n < List.length data)%nat -> nth_error (sort.store n x data) n = Some x.
Proof.
  revert n; induction data as [|y data IH]; intros [|n] H; simpl in *; try lia; auto.
  apply IH. lia.
Qed.

Lemma nth_error_store_neq (n m : nat) (x : A) data :
  n <> m -> nth_error (sort.store n x data) m = nth_error data m.
Proof.
  revert n m; induction data as [|y data IH]; intros [|n] [|m] H; simpl; auto; try lia.
Qed.

Lemma store_perm (n : nat) (h y : A) (t : list A) :
  nth_error t n = Some y -> Permutation (h :: t) (y :: sort.store n h t).
Proof.
  revert n; induction t as [|z t IH]; intros [|n] H; simpl in *; try discriminate.
  - injection H as ->. apply perm_swap.
  - rewrite perm_swap. rewrite (IH n H). apply perm_swap.
Qed.

Lemma store_store_perm (n m : nat) (x y : A) data :
  nth_error data n = Some x -> nth_error data m = Some y ->
  Permutation data (sort.store m x (sort.store n y data)).
Proof.
  revert n m; induction data as [|h t IH]; intros [|n] [|m] Hn Hm; simpl in *;
    try discriminate.
  - injection Hn as ->. injection Hm as ->. reflexivity.
  - injection Hn as ->. now apply store_perm.
  - injection Hm as ->. now apply store_perm.
  - constructor. now apply IH.
Qed.

Lemma Swap_perm data i j : Permutation data (sort.Swap data i j).
Proof.
  unfold sort.Swap.
  destruct (sort.elem data i) as [x|] eqn:Ei; [| reflexivity].
  destruct (sort.elem data j) as [y|] eqn:Ej; [| reflexivity].
  pose proof (elem_Some_range _ _ _ Ei). pose proof (elem_Some_range _ _ _ Ej).
  rewrite elem_Z in Ei, Ej by lia. now apply store_store_perm.
Qed.

Lemma len_Swap data i j : len (sort.Swap data i j) = len data.
Proof. unfold len. now rewrite <- (Permutation_length (Swap_perm data i j)). Qed.

Lemma elem_Swap data i j k :
  0 <= i < len data -> 0 <= j < len data ->
  sort.elem (sort.Swap data i j) k =
  if k =? j then sort.elem data i
  else if k =? i then sort.elem data j
  else sort.elem data k.
Proof.
  intros Hi Hj. unfold sort.Swap.
  destruct (elem_in_range data i Hi) as [x Ex].
  destruct (elem_in_range data j Hj) as [y Ey].
  rewrite Ex, Ey.
  destruct (Z.ltb_spec k 0) as [Hk | Hk].
  { rewrite !elem_neg by lia.
    destruct (Z.eqb_spec k j); [lia |]. destruct (Z.eqb_spec k i); [lia | reflexivity]. }
  rewrite (elem_Z _ k) by lia.
  unfold len in *.
  destruct (Z.eqb_spec k j) as [-> | Hkj].
  { rewrite nth_error_store_eq; [reflexivity |]. rewrite length_store. lia. }
  rewrite nth_error_store_neq by lia.
  destruct (Z.eqb_spec k i) as [-> | Hki].
  { rewrite nth_error_store_eq; [reflexivity | lia]. }
  rewrite nth_error_store_neq by lia. now rewrite elem_Z by lia.
Qed.

Lemma Less_elem (less : A -> A -> bool) data i j x y :
  sort.elem data i = Some x -> sort.elem data j = Some y ->
  sort.Less less data i j = less x y.
Proof. intros Ei Ej. unfold sort.Less. now rewrite Ei, Ej. Qed.

Lemma nth_error_seg data a b (n : nat) :
  0 <= a ->
  nth_error (seg data a b) n =
  if Z.of_nat n <? b - a then sort.elem data (a + Z.of_nat n) else None.
Proof.
  intros Ha. unfold seg. rewrite nth_error_firstn, nth_error_skipn.
  destruct (Z.ltb_spec (Z.of_nat n) (b - a)) as [H | H].
  - destruct (Nat.ltb_spec n (Z.to_nat (b - a))) as [_ | H']; [| lia].
    rewrite elem_Z by lia. f_equal. lia.
  - destruct (Nat.ltb_spec n (Z.to_nat (b - a))) as [H' | _]; [lia | reflexivity].
Qed.

Lemma elem_seg data a b k :
  0 <= a -> a <= k < b -> sort.elem data k = nth_error (seg data a b) (Z.to_nat (k - a)).
Proof.
  intros Ha Hk. rewrite nth_error_seg by lia.
  destruct (Z.ltb_spec (Z.of_nat (Z.to_nat (k - a))) (b - a)); [| lia].
  f_equal. lia.
Qed.

Lemma seg_ext data data' a b :
  0 <= a ->
  (forall k, a <= k < b -> sort.elem data k = sort.elem data' k) ->
  seg data a b = seg data' a b.
Proof.
  intros Ha H. apply nth_error_ext. intros n. rewrite !nth_error_seg by lia.
  destruct (Z.ltb_spec (Z.of_nat n) (b - a)); [| reflexivity]. apply H. lia.
Qed.

Lemma seg_app data a m b :
  0 <= a -> a <= m -> m <= b -> seg data a b = (seg data a m ++ seg data m b)%list.
Proof.
  intros Ha Hm Hb. apply nth_error_ext. intros n.
  rewrite nth_error_seg by lia.
  assert (Hlen : (List.length (seg data a m) <= Z.to_nat (m - a))%nat)
    by (unfold seg; apply firstn_le_length).
  destruct (Nat.ltb_spec n (List.length (seg data a m))) as [Hn | Hn].
  - rewrite nth_error_app1 by lia. rewrite nth_error_seg by lia.
    destruct (Z.ltb_spec (Z.of_nat n) (m - a)); [| lia].
    destruct (Z.ltb_spec (Z.of_nat n) (b - a)); [reflexivity | lia].
  - rewrite nth_error_app2 by lia. rewrite nth_error_seg by lia.
    destruct (Z.ltb_spec (Z.of_nat n) (m - a)) as [Hnm | Hnm].
    + (* the first segment is cut short by the end of the data *)
      assert (Hnone : nth_error (seg data a m) n = None) by (apply nth_error_None; lia).
      rewrite nth_error_seg in Hnone by lia.
      destruct (Z.ltb_spec (Z.of_nat n) (m - a)); [| lia].
      assert (Hout : len data <= a + Z.of_nat n).
      { destruct (Z.le_gt_cases (len data) (a + Z.of_nat n)) as [|Hin]; [assumption |].
        destruct (elem_in_range data (a + Z.of_nat n)) as [x Ex]; [lia | congruence]. }
      rewrite (elem_out data (a + Z.of_nat n)) by lia.
      rewrite (elem_out data (m + _)) by lia.
      now destruct (_ <? _); destruct (_ <? _).
    + assert (Hfull : List.length (seg data a m) = Z.to_nat (m - a) \/
                      (List.length (seg data a m) < Z.to_nat (m - a))%nat) by lia.
      destruct Hfull as [Hfull | Hshort].
      * rewrite Hfull.
        replace (m + Z.of_nat (n - Z.to_nat (m - a))) with (a + Z.of_nat n) by lia.
        destruct (Z.ltb_spec (Z.of_nat n) (b - a));
          destruct (Z.ltb_spec (Z.of_nat (n - Z.to_nat (m - a))) (b - m)); try lia; reflexivity.
      * assert (Hnone : nth_error (seg data a m) (List.length (seg data a m)) = None)
          by (apply nth_error_None; lia).
        rewrite nth_error_seg in Hnone by lia.
        destruct (Z.ltb_spec (Z.of_nat (List.length (seg data a m))) (m - a)); [| lia].
        assert (Hout : len data <= a + Z.of_nat (List.length (seg data a m))).
        { destruct (Z.le_gt_cases (len data) (a + Z.of_nat (List.length (seg data a m))))
            as [|Hin]; [assumption |].
          destruct (elem_in_range data (a + Z.of_nat (List.length (seg data a m))))
            as [x Ex]; [lia | congruence]. }
        rewrite (elem_out data (a + Z.of_nat n)) by lia.
        rewrite (elem_out data (m + _)) by lia.
        now destruct (_ <? _); destruct (_ <? _).
Qed.

Lemma seg_whole data : seg data 0 (len data) = data.
Proof.
  unfold seg, len. rewrite Z.sub_0_r, Nat2Z.id. simpl. apply firstn_all.
Qed.

Lemma seg_one data k x : sort.elem data k = Some x -> seg data k (k + 1) = [x].
Proof.
  intros E. pose proof (elem_Some_range _ _ _ E) as Hk.
  apply nth_error_ext. intros n. rewrite nth_error_seg by lia.
  destruct n as [|n]; simpl.
  - replace (k + 0) with k by lia. rewrite E.
    destruct (Z.ltb_spec 0 (k + 1 - k)); [reflexivity | lia].
  - destruct (Z.ltb_spec (Z.pos (Pos.of_succ_nat n)) (k + 1 - k)); [lia |].
    now destruct n.
Qed.

Lemma seg_empty data a : seg data a a = [].
Proof. unfold seg. now rewrite Z.sub_diag. Qed.

Lemma length_seg data a b :
  0 <= a -> a <= b -> b <= len data -> Z.of_nat (List.length (seg data a b)) = b - a.
Proof.
  unfold seg, len. intros. rewrite length_firstn, length_skipn. lia.
Qed.

Lemma all_on_seg (P : A -> Prop) data a b :
  0 <= a -> (all_on P data a b <-> Forall P (seg data a b)).
Proof.
  intros Ha. rewrite Forall_forall. split.
  - intros H x Hx. apply In_nth_error in Hx as [n Hn].
    rewrite nth_error_seg in Hn by lia.
    destruct (Z.ltb_spec (Z.of_nat n) (b - a)); [| discriminate].
    apply (H (a + Z.of_nat n)); [lia | exact Hn].
  - intros H k x Hk E. apply H. rewrite (elem_seg data a b) in E by lia.
    eapply nth_error_In, E.
Qed.

End Arrays.

(** *** Rearranging a range: [Within] and [sorted_on] *)

Section Rearranged.

Local Open Scope Z_scope.

Context {A : Type}.
Implicit Types (data : list A) (i j k a b : Z).

Lemma elem_of_seg data a b k :
  0 <= a ->
  sort.elem (seg data a b) k =
  if (0 <=? k) && (k <? b - a) then sort.elem data (a + k) else None.
Proof.
  intros Ha. destruct (Z.leb_spec 0 k) as [Hk | Hk]; simpl.
  - rewrite elem_Z by lia. rewrite nth_error_seg by lia.
    rewrite Z2Nat.id by lia. reflexivity.
  - now rewrite elem_neg by lia.
Qed.

Lemma Within_refl a b data : 0 <= a -> a <= b -> b <= len data -> Within a b data data.
Proof. unfold Within. intuition. Qed.

Lemma Within_len a b data data' : Within a b data data' -> len data' = len data.
Proof. unfold Within. intuition. Qed.

Lemma Within_frame a b data data' k :
  Within a b data data' -> k < a \/ b <= k -> sort.elem data' k = sort.elem data k.
Proof. unfold Within. intros (_ & _ & _ & _ & H & _). apply H. Qed.

Lemma Within_range a b data data' : Within a b data data' -> 0 <= a /\ a <= b /\ b <= len data.
Proof. unfold Within. intuition. Qed.

Lemma Within_trans a b data1 data2 data3 :
  Within a b data1 data2 -> Within a b data2 data3 -> Within a b data1 data3.
Proof.
  intros (Ha & Hab & Hb & Hl & Hf & Hp) (_ & _ & _ & Hl' & Hf' & Hp').
  repeat split; try assumption.
  - congruence.
  - intros k Hk. rewrite Hf' by assumption. now apply Hf.
  - now rewrite Hp.
Qed.

Lemma Within_mono a' b' a b data data' :
  Within a' b' data data' -> 0 <= a -> a <= a' -> b' <= b -> b <= len data ->
  Within a b data data'.
Proof.
  intros (Ha' & Hab' & Hb' & Hl & Hf & Hp) Ha Haa Hbb Hb.
  repeat split; try assumption; try lia.
  - intros k Hk. apply Hf. lia.
  - rewrite (seg_app data a a' b), (seg_app data' a a' b) by lia.
    rewrite (seg_app data a' b' b), (seg_app data' a' b' b) by lia.
    rewrite (seg_ext data' data a a') by (try lia; intros; apply Hf; lia).
    rewrite (seg_ext data' data b' b) by (try lia; intros; apply Hf; lia).
    apply Permutation_app_head. now apply Permutation_app_tail.
Qed.

Lemma Within_perm a b data data' : Within a b data data' -> Permutation data data'.
Proof.
  intros (Ha & Hab & Hb & Hl & Hf & Hp).
  rewrite <- (seg_whole data), <- (seg_whole data'). rewrite Hl.
  rewrite (seg_app data 0 a (len data)), (seg_app data' 0 a (len data)) by lia.
  rewrite (seg_app data a b (len data)), (seg_app data' a b (len data)) by lia.
  rewrite (seg_ext data' data 0 a) by (try lia; intros; apply Hf; lia).
  rewrite (seg_ext data' data b (len data)) by (try lia; intros; apply Hf; lia).
  apply Permutation_app_head. now apply Permutation_app_tail.
Qed.

Lemma Within_all_on (P : A -> Prop) a b data data' :
  Within a b data data' -> all_on P data a b -> all_on P data' a b.
Proof.
  intros (Ha & Hab & Hb & Hl & Hf & Hp) H.
  apply all_on_seg; [assumption |]. apply all_on_seg in H; [| assumption].
  eapply Permutation_Forall; eassumption.
Qed.

Lemma Within_all_on_wider (P : A -> Prop) a b a' b' data data' :
  Within a b data data' -> a' <= a -> b <= b' -> 0 <= a' -> b' <= len data ->
  all_on P data a' b' -> all_on P data' a' b'.
Proof.
  intros HW Ha Hb Ha' Hb'. apply Within_all_on.
  eapply Within_mono; eauto.
Qed.

Lemma seg_Swap data a b i j :
  0 <= a -> b <= len data -> a <= i < b -> a <= j < b ->
  seg (sort.Swap data i j) a b = sort.Swap (seg data a b) (i - a) (j - a).
Proof.
  intros Ha Hb Hi Hj. apply elem_ext. intros k.
  assert (Hlen : len (seg data a b) = b - a) by (apply length_seg; lia).
  rewrite elem_of_seg by lia.
  rewrite (elem_Swap (seg data a b)) by lia.
  rewrite !elem_of_seg by lia.
  destruct (Z.leb_spec 0 k) as [Hk0 | Hk0]; simpl.
  - destruct (Z.ltb_spec k (b - a)) as [Hk1 | Hk1].
    + rewrite elem_Swap by lia.
      replace (a + (i - a)) with i by lia. replace (a + (j - a)) with j by lia.
      destruct (Z.leb_spec 0 (i - a)); [| lia]. destruct (Z.ltb_spec (i - a) (b - a)); [| lia].
      destruct (Z.leb_spec 0 (j - a)); [| lia]. destruct (Z.ltb_spec (j - a) (b - a)); [| lia].
      simpl.
      destruct (Z.eqb_spec (a + k) j); destruct (Z.eqb_spec k (j - a)); try lia; try reflexivity.
      destruct (Z.eqb_spec (a + k) i); destruct (Z.eqb_spec k (i - a)); try lia; reflexivity.
    + destruct (Z.eqb_spec k (j - a)); [lia |].
      destruct (Z.eqb_spec k (i - a)); [lia | reflexivity].
  - destruct (Z.eqb_spec k (j - a)); [lia |].
    destruct (Z.eqb_spec k (i - a)); [lia | reflexivity].
Qed.

Lemma Within_Swap a b data i j :
  0 <= a -> b <= len data -> a <= i < b -> a <= j < b ->
  Within a b data (sort.Swap data i j).
Proof.
  intros Ha Hb Hi Hj. repeat split; try lia.
  - apply len_Swap.
  - intros k Hk. rewrite elem_Swap by lia.
    destruct (Z.eqb_spec k j); [lia |]. destruct (Z.eqb_spec k i); [lia | reflexivity].
  - rewrite seg_Swap by lia. apply Swap_perm.
Qed.

Lemma pairwise_StronglySorted (R : A -> A -> Prop) (l : list A) :
  (forall (n m : nat) x y, (n < m)%nat -> nth_error l n = Some x -> nth_error l m = Some y -> R x y) ->
  StronglySorted R l.
Proof.
  induction l as [|h t IH]; intros H; constructor.
  - apply IH. intros n m x y Hnm Hn Hm. apply (H (S n) (S m)); [lia | assumption | assumption].
  - apply Forall_forall. intros y Hy. apply In_nth_error in Hy as [m Hm].
    apply (H O (S m)); [lia | reflexivity | exact Hm].
Qed.

Lemma sorted_on_seg (less : A -> A -> bool) data a b :
  0 <= a -> sorted_on less data a b -> sort.ordered less (seg data a b).
Proof.
  intros Ha H. apply pairwise_StronglySorted. intros n m x y Hnm Hn Hm.
  rewrite nth_error_seg in Hn, Hm by lia.
  destruct (Z.ltb_spec (Z.of_nat n) (b - a)); [| discriminate].
  destruct (Z.ltb_spec (Z.of_nat m) (b - a)); [| discriminate].
  apply (H (a + Z.of_nat n) (a + Z.of_nat m)); try lia; assumption.
Qed.

Lemma sorted_on_ext (less : A -> A -> bool) data data' a b :
  (forall k, a <= k < b -> sort.elem data' k = sort.elem data k) ->
  sorted_on less data a b -> sorted_on less data' a b.
Proof.
  intros Hext H i j x y Hi Hij Hj Ei Ej.
  rewrite Hext in Ei, Ej by lia. now apply (H i j).
Qed.

Lemma sorted_on_short (less : A -> A -> bool) data a b : b <= a + 1 -> sorted_on less data a b.
Proof. intros H i j x y Hi Hij Hj. lia. Qed.

End Rearranged.

(** *** The order of [less], and [insertionSort_func] *)

Section Order.

Local Open Scope Z_scope.

Context {A : Type} (less : A -> A -> bool).
Hypothesis less_swo : sort.StrictWeakOrder less.
Implicit Types (data : list A) (i j k a b : Z).

Lemma swo_irrefl x : less x x = false.
Proof. now destruct less_swo as (H & _ & _). Qed.

Lemma swo_trans x y z : less x y = true -> less y z = true -> less x z = true.
Proof. destruct less_swo as (_ & H & _). apply H. Qed.

Lemma swo_negtrans x y z : less x y = false -> less y z = false -> less x z = false.
Proof. destruct less_swo as (_ & _ & H). apply H. Qed.

Lemma swo_asym x y : less x y = true -> less y x = false.
Proof.
  intros H. destruct (less y x) eqn:E; [| reflexivity].
  rewrite <- (swo_irrefl x). symmetry. now apply swo_trans with y.
Qed.

(** [x < y <= z] gives [x < z]. *)
Lemma swo_lt_le x y z : less x y = true -> less z y = false -> less x z = true.
Proof.
  intros Hxy Hzy. destruct (less x z) eqn:E; [reflexivity |].
  rewrite (swo_negtrans x z y E Hzy) in Hxy. discriminate.
Qed.

(** [x <= y < z] gives [x < z]. *)
Lemma swo_le_lt x y z : less y x = false -> less y z = true -> less x z = true.
Proof.
  intros Hyx Hyz. destruct (less x z) eqn:E; [reflexivity |].
  rewrite (swo_negtrans y x z Hyx E) in Hyz. discriminate.
Qed.

Ltac swap_cases :=
  repeat match goal with
         | H : context [sort.elem (sort.Swap _ _ _) _] |- _ =>
           rewrite elem_Swap in H by lia
         | |- context [sort.elem (sort.Swap _ _ _) _] => rewrite elem_Swap by lia
         end;
  repeat match goal with
         | H : context [Z.eqb ?u ?v] |- _ => destruct (Z.eqb_spec u v); try lia
         | |- context [Z.eqb ?u ?v] => destruct (Z.eqb_spec u v); try lia
         end.

Ltac same_elem :=
  repeat match goal with
         | H1 : sort.elem ?d ?k = Some ?u, H2 : sort.elem ?d ?k = Some ?v |- _ =>
           assert (u = v) by congruence; subst; clear H2
         end.

(** Close [less v u = false] by a hypothesis on the positions of [u] and [v]. *)
Ltac by_positions H :=
  match goal with
  | Eu : sort.elem ?d ?P = Some ?u, Ev : sort.elem ?d ?Q = Some ?v
    |- less ?v ?u = false =>
    apply (H P Q); try lia; assumption
  end.

Lemma insertionSort_inner_spec (fuel : nat) data a j i :
  0 <= a -> a <= j -> j <= i -> i < len data -> (Z.to_nat (j - a) <= fuel)%nat ->
  sorted_on less data a j ->
  sorted_on less data j (i + 1) ->
  (forall p q x y, a <= p < j -> j < q <= i ->
     sort.elem data p = Some x -> sort.elem data q = Some y -> less y x = false) ->
  Within a (i + 1) data (sort.insertionSort_inner less fuel data a j) /\
  sorted_on less (sort.insertionSort_inner less fuel data a j) a (i + 1).
Proof.
  revert data j. induction fuel as [|fuel IH]; intros data j Ha Haj Hji Hi Hfuel Hleft Hright Hcross.
  - assert (j = a) by lia. subst j. simpl. split; [apply Within_refl; lia | exact Hright].
  - rewrite insertionSort_inner_S.
    destruct (Z.ltb_spec a j) as [Hlt | Hge]; simpl.
    + destruct (elem_in_range data j) as [x Ex]; [lia |].
      destruct (elem_in_range data (j - 1)) as [y Ey]; [lia |].
      rewrite (Less_elem less data j (j - 1) x y Ex Ey).
      destruct (less x y) eqn:Hxy.
      * destruct (IH (sort.Swap data j (j - 1)) (j - 1)) as [HW Hs];
          try lia; try (rewrite len_Swap; lia).
        { intros p q u v Hp Hpq Hq Eu Ev. swap_cases. by_positions Hleft. }
        { intros p q u v Hp Hpq Hq Eu Ev. swap_cases; same_elem;
            first [ now apply swo_asym | by_positions Hcross | by_positions Hright ]. }
        { intros p q u v Hp Hq Eu Ev. swap_cases; same_elem;
            first [ by_positions Hleft | by_positions Hcross ]. }
        split; [| exact Hs].
        eapply Within_trans; [| exact HW].
        apply Within_Swap; lia.
      * split; [apply Within_refl; lia |].
        intros p q u v Hp Hpq Hq Eu Ev.
        destruct (Z.lt_trichotomy q j) as [Hqj | [-> | Hqj]].
        -- apply (Hleft p q); try lia; assumption.
        -- assert (v = x) by congruence. subst.
           destruct (Z.eq_dec p (j - 1)) as [-> | Hp1].
           ++ assert (u = y) by congruence. now subst.
           ++ apply swo_negtrans with y; [exact Hxy |].
              apply (Hleft p (j - 1)); try lia; assumption.
        -- destruct (Z.lt_trichotomy p j) as [Hpj | [-> | Hpj]].
           ++ apply (Hcross p q); try lia; assumption.
           ++ apply (Hright j q); try lia; assumption.
           ++ apply (Hright p q); try lia; assumption.
    + assert (j = a) by lia. subst j.
      split; [apply Within_refl; lia | exact Hright].
Qed.

Lemma insertionSort_outer_spec (fuel : nat) data a b i :
  0 <= a -> a <= i -> i <= b \/ b <= a -> b <= len data -> a <= b ->
  (Z.to_nat (b - i) <= fuel)%nat ->
  sorted_on less data a i ->
  Within a b data (sort.insertionSort_outer less fuel data a b i) /\
  sorted_on less (sort.insertionSort_outer less fuel data a b i) a b.
Proof.
  revert data i. induction fuel as [|fuel IH]; intros data i Ha Hai Hib Hb Hab Hfuel Hs.
  - simpl. split; [apply Within_refl; lia |].
    intros p q x y Hp Hpq Hq. apply (Hs p q); lia.
  - rewrite insertionSort_outer_S.
    destruct (Z.ltb_spec i b) as [Hlt | Hge].
    + destruct (insertionSort_inner_spec (Z.to_nat (i - a)) data a i i) as [HW Hs'];
        try lia; try assumption; try (apply sorted_on_short; lia); try (intros; lia).
      pose proof (Within_len _ _ _ _ HW) as Hl.
      destruct (IH (sort.insertionSort_inner less (Z.to_nat (i - a)) data a i) (i + 1))
        as [HW2 Hs2]; try lia; try assumption.
      split; [| exact Hs2].
      eapply Within_trans; [| exact HW2].
      eapply Within_mono; [exact HW | lia..].
    + split; [apply Within_refl; lia |].
      intros p q x y Hp Hpq Hq. apply (Hs p q); lia.
Qed.

Lemma insertionSort_func_spec data a b :
  0 <= a -> a <= b -> b <= len data ->
  Within a b data (sort.insertionSort_func less data a b) /\
  sorted_on less (sort.insertionSort_func less data a b) a b.
Proof.
  intros Ha Hab Hb. unfold sort.insertionSort_func.
  apply insertionSort_outer_spec; try lia.
  apply sorted_on_short. lia.
Qed.

End Order.

(** *** [partitionLeftRight_func] *)

Section Partition.

Local Open Scope Z_scope.

Context {A : Type} (less : A -> A -> bool).
Hypothesis less_swo : sort.StrictWeakOrder less.
Implicit Types (data : list A) (i j k a b : Z).

Lemma elem_Swap_tr data i j k :
  0 <= i < len data -> 0 <= j < len data ->
  sort.elem (sort.Swap data i j) k = sort.elem data (tr i j k).
Proof.
  intros Hi Hj. rewrite elem_Swap by assumption. unfold tr.
  destruct (k =? j); [reflexivity |]. now destruct (k =? i).
Qed.

Lemma Less_Swap data i j k m :
  0 <= i < len data -> 0 <= j < len data ->
  sort.Less less (sort.Swap data i j) k m = sort.Less less data (tr i j k) (tr i j m).
Proof. intros Hi Hj. unfold sort.Less. now rewrite !elem_Swap_tr. Qed.

Lemma skipLess_S (fuel : nat) data a i j :
  sort.skipLess less (S fuel) data a i j =
  if (i <=? j) && sort.Less less data i a then sort.skipLess less fuel data a (i + 1) j else i.
Proof. reflexivity. Qed.

Lemma skipLess_spec (fuel : nat) data a i j :
  (Z.to_nat (j + 1 - i) <= fuel)%nat ->
  let i' := sort.skipLess less fuel data a i j in
  i <= i' /\ (i <= j + 1 -> i' <= j + 1) /\
  (forall k, i <= k < i' -> sort.Less less data k a = true) /\
  (i' <= j -> sort.Less less data i' a = false).
Proof.
  revert i. induction fuel as [|fuel IH]; intros i Hfuel; cbv zeta.
  - simpl. repeat split; try lia.
  - rewrite skipLess_S. destruct (Z.leb_spec i j) as [Hij | Hij]; simpl.
    + destruct (sort.Less less data i a) eqn:E.
      * destruct (IH (i + 1)) as (H1 & H2 & H3 & H4); [lia |].
        repeat split; try lia; try assumption.
        intros k Hk. destruct (Z.eq_dec k i) as [-> | Hne]; [exact E | apply H3; lia].
      * repeat split; try lia. intros _. exact E.
    + repeat split; try lia.
Qed.

Lemma skipNotLess_S (fuel : nat) data a i j :
  sort.skipNotLess less (S fuel) data a i j =
  if (i <=? j) && negb (sort.Less less data j a)
  then sort.skipNotLess less fuel data a i (j - 1) else j.
Proof. reflexivity. Qed.

Lemma skipNotLess_spec (fuel : nat) data a i j :
  (Z.to_nat (j + 1 - i) <= fuel)%nat ->
  let j' := sort.skipNotLess less fuel data a i j in
  j' <= j /\ (i <= j + 1 -> i <= j' + 1) /\
  (forall k, j' < k <= j -> sort.Less less data k a = false) /\
  (i <= j' -> sort.Less less data j' a = true).
Proof.
  revert j. induction fuel as [|fuel IH]; intros j Hfuel; cbv zeta.
  - simpl. repeat split; try lia.
  - rewrite skipNotLess_S. destruct (Z.leb_spec i j) as [Hij | Hij]; simpl.
    + destruct (sort.Less less data j a) eqn:E; simpl.
      * repeat split; try lia. intros _. exact E.
      * destruct (IH (j - 1)) as (H1 & H2 & H3 & H4); [lia |].
        repeat split; try lia; try assumption.
        intros k Hk. destruct (Z.eq_dec k j) as [-> | Hne]; [exact E | apply H3; lia].
    + repeat split; try lia.
Qed.

Lemma scan_pass data a b i j :
  scanned less data a b i j ->
  let i' := sort.skipLess less (S (Z.to_nat (j - i))) data a i j in
  let j' := sort.skipNotLess less (S (Z.to_nat (j - i'))) data a i' j in
  scanned less data a b i' j' /\ i <= i' /\ j' <= j /\
  (i' <= j' -> sort.Less less data i' a = false /\ sort.Less less data j' a = true).
Proof.
  intros (Hi & Hj & Hij & Hl & Hr). cbv zeta.
  destruct (skipLess_spec (S (Z.to_nat (j - i))) data a i j) as (H1 & H2 & H3 & H4); [lia |].
  set (i' := sort.skipLess less (S (Z.to_nat (j - i))) data a i j) in *.
  destruct (skipNotLess_spec (S (Z.to_nat (j - i'))) data a i' j) as (G1 & G2 & G3 & G4); [lia |].
  set (j' := sort.skipNotLess less (S (Z.to_nat (j - i'))) data a i' j) in *.
  split; [| split; [lia | split; [lia |]]].
  - repeat split; try lia.
    + intros k Hk. destruct (Z.lt_ge_cases k i); [apply Hl; lia | apply H3; lia].
    + intros k Hk. destruct (Z.lt_ge_cases j k); [apply Hr; lia | apply G3; lia].
  - intros Hle. split; [apply H4; lia | apply G4; lia].
Qed.

Lemma partitionLeftRight_loop_S (fuel : nat) data a i j :
  sort.partitionLeftRight_loop less (S fuel) data a i j =
  let i := sort.skipLess less (S (Z.to_nat (j - i))) data a i j in
  let j := sort.skipNotLess less (S (Z.to_nat (j - i))) data a i j in
  if j <? i then (data, j)
  else sort.partitionLeftRight_loop less fuel (sort.Swap data i j) a (i + 1) (j - 1).
Proof. reflexivity. Qed.

Lemma scanned_Swap data a b i j :
  0 <= a -> b <= len data ->
  scanned less data a b i j -> i <= j ->
  sort.Less less data i a = false -> sort.Less less data j a = true ->
  i < j /\ scanned less (sort.Swap data i j) a b (i + 1) (j - 1).
Proof.
  intros Ha Hb (Hi & Hj & Hij & Hl & Hr) Hle Ei Ej.
  assert (Hne : i <> j) by (intros ->; congruence).
  split; [lia |]. repeat split; try lia.
  - intros k Hk. rewrite Less_Swap by lia. unfold tr.
    destruct (Z.eqb_spec k j); [lia |]. destruct (Z.eqb_spec a j); [lia |].
    destruct (Z.eqb_spec a i); [lia |].
    destruct (Z.eqb_spec k i); [exact Ej | apply Hl; lia].
  - intros k Hk. rewrite Less_Swap by lia. unfold tr.
    destruct (Z.eqb_spec a j); [lia |]. destruct (Z.eqb_spec a i); [lia |].
    destruct (Z.eqb_spec k j); [exact Ei |].
    destruct (Z.eqb_spec k i); [lia | apply Hr; lia].
Qed.

Lemma partitionLeftRight_loop_spec (fuel : nat) data a b i j :
  0 <= a -> b <= len data ->
  scanned less data a b i j -> (Z.to_nat (j - i + 2) <= fuel)%nat ->
  let '(data', j') := sort.partitionLeftRight_loop less fuel data a i j in
  Within (a + 1) b data data' /\ scanned less data' a b (j' + 1) j'.
Proof.
  revert data i j. induction fuel as [|fuel IH]; intros data i j Ha Hb Hsc Hfuel.
  - destruct Hsc as (Hi & Hj & Hij & _). lia.
  - rewrite partitionLeftRight_loop_S. cbv zeta.
    destruct (scan_pass data a b i j Hsc) as (Hsc' & Hii & Hjj & Hstop).
    set (i' := sort.skipLess less (S (Z.to_nat (j - i))) data a i j) in *.
    set (j' := sort.skipNotLess less (S (Z.to_nat (j - i'))) data a i' j) in *.
    destruct (Z.ltb_spec j' i') as [Hlt | Hge].
    + split.
      * destruct Hsc as (Hi & Hj & Hij & _). apply Within_refl; lia.
      * destruct Hsc' as (Hi' & Hj' & Hij' & Hl & Hr).
        repeat split; try lia.
        -- intros k Hk. apply Hl. lia.
        -- exact Hr.
    + destruct (Hstop Hge) as [Ei Ej].
      destruct (scanned_Swap data a b i' j' Ha Hb Hsc' Hge Ei Ej) as [Hlt Hsw].
      specialize (IH (sort.Swap data i' j') (i' + 1) (j' - 1)).
      rewrite len_Swap in IH. specialize (IH Ha Hb Hsw).
      destruct (sort.partitionLeftRight_loop less fuel (sort.Swap data i' j') a (i' + 1) (j' - 1))
        as [data' j''].
      destruct IH as [HW Hfin]; [lia |].
      split; [| exact Hfin].
      eapply Within_trans; [| exact HW].
      destruct Hsc' as (Hi' & Hj' & _).
      apply Within_Swap; lia.
Qed.

Lemma scanned_partitioned data a b j :
  0 <= a -> b <= len data ->
  scanned less data a b (j + 1) j ->
  Within a b data (sort.Swap data j a) /\ partitioned less (sort.Swap data j a) a b j.
Proof.
  intros Ha Hb (Hi & Hj & _ & Hl & Hr).
  split; [apply Within_Swap; lia |].
  destruct (elem_in_range data a) as [p Ep]; [lia |].
  split; [lia |]. exists p. split.
  { rewrite elem_Swap_tr by lia. unfold tr.
    destruct (Z.eqb_spec j a); [congruence |]. now rewrite Z.eqb_refl. }
  split.
  - intros k x Hk Ex. rewrite elem_Swap_tr in Ex by lia. unfold tr in Ex.
    destruct (Z.eqb_spec k a) as [-> | Hka].
    + destruct (Z.eqb_spec a j); [lia |].
      rewrite <- (Less_elem less data j a x p Ex Ep). apply Hl. lia.
    + destruct (Z.eqb_spec k j); [lia |].
      rewrite <- (Less_elem less data k a x p Ex Ep). apply Hl. lia.
  - intros k x Hk Ex. rewrite elem_Swap_tr in Ex by lia. unfold tr in Ex.
    destruct (Z.eqb_spec k a); [lia |]. destruct (Z.eqb_spec k j); [lia |].
    rewrite <- (Less_elem less data k a x p Ex Ep). apply Hr. lia.
Qed.

Lemma partitionLeftRight_func_spec data a b pivot :
  0 <= a -> a < b -> b <= len data -> a <= pivot < b ->
  let '(data', mid, _) := sort.partitionLeftRight_func less data a b pivot in
  Within a b data data' /\ partitioned less data' a b mid.
Proof.
  intros Ha Hab Hb Hp. unfold sort.partitionLeftRight_func.
  set (data0 := sort.Swap data a pivot).
  assert (HW0 : Within a b data data0) by (apply Within_Swap; lia).
  assert (Hl0 : len data0 = len data) by apply len_Swap.
  assert (Hsc0 : scanned less data0 a b (a + 1) (b - 1)) by (repeat split; intros; lia).
  destruct (scan_pass data0 a b (a + 1) (b - 1) Hsc0) as (Hsc1 & Hii & Hjj & Hstop).
  cbv zeta in Hsc1, Hii, Hjj, Hstop.
  set (i1 := sort.skipLess less (S (Z.to_nat (b - 1 - (a + 1)))) data0 a (a + 1) (b - 1)) in *.
  set (j1 := sort.skipNotLess less (S (Z.to_nat (b - 1 - i1))) data0 a i1 (b - 1)) in *.
  clearbody j1 i1 data0.
  destruct (Z.ltb_spec j1 i1) as [Hlt | Hge].
  - assert (Hsc2 : scanned less data0 a b (j1 + 1) j1).
    { destruct Hsc1 as (Hi' & Hj' & Hij' & Hl & Hr).
      repeat split; try lia; [intros k Hk; apply Hl; lia | exact Hr]. }
    destruct (scanned_partitioned data0 a b j1) as [HW Hpart]; try lia; try assumption.
    split; [| exact Hpart]. eapply Within_trans; eassumption.
  - destruct (Hstop Hge) as [Ei Ej].
    destruct (scanned_Swap data0 a b i1 j1) as [Hlt Hsw]; try lia; try assumption.
    pose proof (partitionLeftRight_loop_spec (S (Z.to_nat (b - a)))
                  (sort.Swap data0 i1 j1) a b (i1 + 1) (j1 - 1)) as Hloop.
    rewrite len_Swap in Hloop.
    destruct Hsc1 as (Hi1 & Hj1 & _).
    assert (T1 : b <= len data0) by lia.
    assert (T2 : (Z.to_nat (j1 - 1 - (i1 + 1) + 2) <= S (Z.to_nat (b - a)))%nat) by lia.
    specialize (Hloop Ha T1 Hsw T2).
    destruct (sort.partitionLeftRight_loop less (S (Z.to_nat (b - a)))
                (sort.Swap data0 i1 j1) a (i1 + 1) (j1 - 1)) as [data2 j2].
    destruct Hloop as [HW2 Hsc2].
    assert (Hl2 : len data2 = len data) by (rewrite (Within_len _ _ _ _ HW2), len_Swap; lia).
    destruct (scanned_partitioned data2 a b j2) as [HW3 Hpart]; try lia; try assumption.
    split; [| exact Hpart].
    eapply Within_trans; [exact HW0 |].
    eapply Within_trans; [apply (Within_Swap a b data0 i1 j1); lia |].
    eapply Within_trans; [| exact HW3].
    eapply Within_mono; [exact HW2 | try rewrite len_Swap; lia ..].
Qed.

End Partition.

(** *** [partitionEqual_func] *)

Section PartitionEqual.

Local Open Scope Z_scope.

Context {A : Type} (less : A -> A -> bool).
Hypothesis less_swo : sort.StrictWeakOrder less.
Implicit Types (data : list A) (i j k a b : Z).

Lemma skipNotGreater_S (fuel : nat) data a i j :
  sort.skipNotGreater less (S fuel) data a i j =
  if (i <=? j) && negb (sort.Less less data a i)
  then sort.skipNotGreater less fuel data a (i + 1) j else i.
Proof. reflexivity. Qed.

Lemma skipNotGreater_spec (fuel : nat) data a i j :
  (Z.to_nat (j + 1 - i) <= fuel)%nat ->
  let i' := sort.skipNotGreater less fuel data a i j in
  i <= i' /\ (i <= j + 1 -> i' <= j + 1) /\
  (forall k, i <= k < i' -> sort.Less less data a k = false) /\
  (i' <= j -> sort.Less less data a i' = true).
Proof.
  revert i. induction fuel as [|fuel IH]; intros i Hfuel; cbv zeta.
  - simpl. repeat split; try lia.
  - rewrite skipNotGreater_S. destruct (Z.leb_spec i j) as [Hij | Hij]; simpl.
    + destruct (sort.Less less data a i) eqn:E; simpl.
      * repeat split; try lia. intros _. exact E.
      * destruct (IH (i + 1)) as (H1 & H2 & H3 & H4); [lia |].
        repeat split; try lia; try assumption.
        intros k Hk. destruct (Z.eq_dec k i) as [-> | Hne]; [exact E | apply H3; lia].
    + repeat split; try lia.
Qed.

Lemma skipGreater_S (fuel : nat) data a i j :
  sort.skipGreater less (S fuel) data a i j =
  if (i <=? j) && sort.Less less data a j
  then sort.skipGreater less fuel data a i (j - 1) else j.
Proof. reflexivity. Qed.

Lemma skipGreater_spec (fuel : nat) data a i j :
  (Z.to_nat (j + 1 - i) <= fuel)%nat ->
  let j' := sort.skipGreater less fuel data a i j in
  j' <= j /\ (i <= j + 1 -> i <= j' + 1) /\
  (forall k, j' < k <= j -> sort.Less less data a k = true) /\
  (i <= j' -> sort.Less less data a j' = false).
Proof.
  revert j. induction fuel as [|fuel IH]; intros j Hfuel; cbv zeta.
  - simpl. repeat split; try lia.
  - rewrite skipGreater_S. destruct (Z.leb_spec i j) as [Hij | Hij]; simpl.
    + destruct (sort.Less less data a j) eqn:E; simpl.
      * destruct (IH (j - 1)) as (H1 & H2 & H3 & H4); [lia |].
        repeat split; try lia; try assumption.
        intros k Hk. destruct (Z.eq_dec k j) as [-> | Hne]; [exact E | apply H3; lia].
      * repeat split; try lia. intros _. exact E.
    + repeat split; try lia.
Qed.

Lemma scanEq_pass data a b i j :
  scannedEq less data a b i j ->
  let i' := sort.skipNotGreater less (S (Z.to_nat (j - i))) data a i j in
  let j' := sort.skipGreater less (S (Z.to_nat (j - i'))) data a i' j in
  scannedEq less data a b i' j' /\ i <= i' /\ j' <= j /\
  (i' <= j' -> sort.Less less data a i' = true /\ sort.Less less data a j' = false).
Proof.
  intros (Hi & Hj & Hij & Hl & Hr). cbv zeta.
  destruct (skipNotGreater_spec (S (Z.to_nat (j - i))) data a i j) as (H1 & H2 & H3 & H4); [lia |].
  set (i' := sort.skipNotGreater less (S (Z.to_nat (j - i))) data a i j) in *.
  destruct (skipGreater_spec (S (Z.to_nat (j - i'))) data a i' j) as (G1 & G2 & G3 & G4); [lia |].
  set (j' := sort.skipGreater less (S (Z.to_nat (j - i'))) data a i' j) in *.
  split; [| split; [lia | split; [lia |]]].
  - repeat split; try lia.
    + intros k Hk. destruct (Z.lt_ge_cases k i); [apply Hl; lia | apply H3; lia].
    + intros k Hk. destruct (Z.lt_ge_cases j k); [apply Hr; lia | apply G3; lia].
  - intros Hle. split; [apply H4; lia | apply G4; lia].
Qed.

Lemma scannedEq_Swap data a b i j :
  0 <= a -> b <= len data ->
  scannedEq less data a b i j -> i <= j ->
  sort.Less less data a i = true -> sort.Less less data a j = false ->
  i < j /\ scannedEq less (sort.Swap data i j) a b (i + 1) (j - 1).
Proof.
  intros Ha Hb (Hi & Hj & Hij & Hl & Hr) Hle Ei Ej.
  assert (Hne : i <> j) by (intros ->; congruence).
  split; [lia |]. repeat split; try lia.
  - intros k Hk. rewrite Less_Swap by lia. unfold tr.
    destruct (Z.eqb_spec k j); [lia |]. destruct (Z.eqb_spec a j); [lia |].
    destruct (Z.eqb_spec a i); [lia |].
    destruct (Z.eqb_spec k i); [exact Ej | apply Hl; lia].
  - intros k Hk. rewrite Less_Swap by lia. unfold tr.
    destruct (Z.eqb_spec a j); [lia |]. destruct (Z.eqb_spec a i); [lia |].
    destruct (Z.eqb_spec k j); [exact Ei |].
    destruct (Z.eqb_spec k i); [lia | apply Hr; lia].
Qed.

Lemma partitionEqual_loop_S (fuel : nat) data a i j :
  sort.partitionEqual_loop less (S fuel) data a i j =
  let i := sort.skipNotGreater less (S (Z.to_nat (j - i))) data a i j in
  let j := sort.skipGreater less (S (Z.to_nat (j - i))) data a i j in
  if j <? i then (data, i)
  else sort.partitionEqual_loop less fuel (sort.Swap data i j) a (i + 1) (j - 1).
Proof. reflexivity. Qed.

Lemma partitionEqual_loop_spec (fuel : nat) data a b i j :
  0 <= a -> b <= len data ->
  scannedEq less data a b i j -> (Z.to_nat (j - i + 2) <= fuel)%nat ->
  let '(data', i') := sort.partitionEqual_loop less fuel data a i j in
  Within (a + 1) b data data' /\ scannedEq less data' a b i' (i' - 1).
Proof.
  revert data i j. induction fuel as [|fuel IH]; intros data i j Ha Hb Hsc Hfuel.
  - destruct Hsc as (Hi & Hj & Hij & _). lia.
  - rewrite partitionEqual_loop_S. cbv zeta.
    destruct (scanEq_pass data a b i j Hsc) as (Hsc' & Hii & Hjj & Hstop).
    set (i' := sort.skipNotGreater less (S (Z.to_nat (j - i))) data a i j) in *.
    set (j' := sort.skipGreater less (S (Z.to_nat (j - i'))) data a i' j) in *.
    clearbody j' i'.
    destruct (Z.ltb_spec j' i') as [Hlt | Hge].
    + split.
      * destruct Hsc as (Hi & Hj & Hij & _). apply Within_refl; lia.
      * destruct Hsc' as (Hi' & Hj' & Hij' & Hl & Hr).
        repeat split; try lia.
        -- exact Hl.
        -- intros k Hk. apply Hr. lia.
    + destruct (Hstop Hge) as [Ei Ej].
      destruct (scannedEq_Swap data a b i' j' Ha Hb Hsc' Hge Ei Ej) as [Hlt Hsw].
      specialize (IH (sort.Swap data i' j') (i' + 1) (j' - 1)).
      rewrite len_Swap in IH. specialize (IH Ha Hb Hsw).
      destruct (sort.partitionEqual_loop less fuel (sort.Swap data i' j') a (i' + 1) (j' - 1))
        as [data' i''].
      destruct IH as [HW Hfin]; [lia |].
      split; [| exact Hfin].
      eapply Within_trans; [| exact HW].
      destruct Hsc' as (Hi' & Hj' & _).
      apply Within_Swap; lia.
Qed.

Lemma partitionEqual_func_spec data a b pivot p :
  0 <= a -> a < b -> b <= len data -> a <= pivot < b ->
  sort.elem data pivot = Some p ->
  let '(data', mid) := sort.partitionEqual_func less data a b pivot in
  Within a b data data' /\ partitionedEq less data' a b mid p.
Proof.
  intros Ha Hab Hb Hp Ep. unfold sort.partitionEqual_func.
  set (data0 := sort.Swap data a pivot).
  assert (HW0 : Within a b data data0) by (apply Within_Swap; lia).
  assert (Hl0 : len data0 = len data) by apply len_Swap.
  assert (E0 : sort.elem data0 a = Some p).
  { unfold data0. rewrite elem_Swap_tr by lia. unfold tr.
    destruct (Z.eqb_spec a pivot); [congruence |]. now rewrite Z.eqb_refl. }
  assert (Hsc0 : scannedEq less data0 a b (a + 1) (b - 1)) by (repeat split; intros; lia).
  clearbody data0.
  pose proof (partitionEqual_loop_spec (S (Z.to_nat (b - a))) data0 a b (a + 1) (b - 1)) as Hloop.
  assert (T1 : b <= len data0) by lia.
  assert (T2 : (Z.to_nat (b - 1 - (a + 1) + 2) <= S (Z.to_nat (b - a)))%nat) by lia.
  specialize (Hloop Ha T1 Hsc0 T2).
  destruct (sort.partitionEqual_loop less (S (Z.to_nat (b - a))) data0 a (a + 1) (b - 1))
    as [data' mid].
  destruct Hloop as [HW (Hi & Hj & _ & Hl & Hr)].
  split.
  { eapply Within_trans; [exact HW0 |]. eapply Within_mono; [exact HW | lia ..]. }
  assert (E' : sort.elem data' a = Some p)
    by (rewrite (Within_frame _ _ _ _ a HW) by lia; exact E0).
  split; [lia |]. split.
  - intros k x Hk Ex. destruct (Z.eq_dec k a) as [-> | Hne].
    + assert (x = p) by congruence. subst. apply (swo_irrefl less less_swo).
    + rewrite <- (Less_elem less data' a k p x E' Ex). apply Hl. lia.
  - intros k x Hk Ex.
    rewrite <- (Less_elem less data' a k p x E' Ex). apply Hr. lia.
Qed.

End PartitionEqual.

(** *** The functions that only rearrange, and the pivot *)

Section Pieces.

Local Open Scope Z_scope.

Context {A : Type} (less : A -> A -> bool).
Implicit Types (data : list A) (i j k a b : Z).

(** [reverseRange_func] *)

Lemma reverseRange_loop_spec (fuel : nat) data a b i j :
  0 <= a -> a <= b -> b <= len data -> a <= i -> j < b ->
  Within a b data (sort.reverseRange_loop fuel data i j).
Proof.
  revert data i j. induction fuel as [|fuel IH]; intros data i j Ha Hab Hb Hi Hj; simpl.
  - apply Within_refl; lia.
  - destruct (Z.ltb_spec i j).
    + eapply Within_trans; [apply (Within_Swap a b data i j); lia |].
      apply IH; try lia. rewrite len_Swap. lia.
    + apply Within_refl; lia.
Qed.

Lemma reverseRange_func_spec data a b :
  0 <= a -> a <= b -> b <= len data ->
  Within a b data (sort.reverseRange_func data a b).
Proof. intros. unfold sort.reverseRange_func. apply reverseRange_loop_spec; lia. Qed.

(** [choosePivot_func] *)

Lemma order2_func_spec data x y swaps :
  let '(x', y', _) := sort.order2_func less data x y swaps in
  (x' = x /\ y' = y) \/ (x' = y /\ y' = x).
Proof. unfold sort.order2_func. destruct (sort.Less less data y x); auto. Qed.

Lemma median_func_spec data x y z swaps :
  fst (sort.median_func less data x y z swaps) = x \/
  fst (sort.median_func less data x y z swaps) = y \/
  fst (sort.median_func less data x y z swaps) = z.
Proof.
  unfold sort.median_func.
  pose proof (order2_func_spec data x y swaps) as H1.
  destruct (sort.order2_func less data x y swaps) as [[x1 y1] s1].
  pose proof (order2_func_spec data y1 z s1) as H2.
  destruct (sort.order2_func less data y1 z s1) as [[y2 z2] s2].
  pose proof (order2_func_spec data x1 y2 s2) as H3.
  destruct (sort.order2_func less data x1 y2 s2) as [[x3 y3] s3].
  simpl. intuition congruence.
Qed.

Lemma medianAdjacent_func_spec data x swaps :
  x - 1 <= fst (sort.medianAdjacent_func less data x swaps) <= x + 1.
Proof.
  unfold sort.medianAdjacent_func.
  destruct (median_func_spec data (x - 1) x (x + 1) swaps) as [H | [H | H]]; rewrite H; lia.
Qed.

Lemma choosePivot_func_spec data a b :
  8 <= b - a -> a <= fst (sort.choosePivot_func less data a b) < b.
Proof.
  intros Hl. unfold sort.choosePivot_func.
  assert (Hq : Z.quot (b - a) 4 = (b - a) / 4) by (apply Z.quot_div_nonneg; lia).
  rewrite Hq. set (q := (b - a) / 4).
  assert (Hq2 : 2 <= q /\ 4 * q <= b - a).
  { unfold q. split; [apply Z.div_le_lower_bound; lia |].
    apply Z.mul_div_le. lia. }
  clearbody q.
  destruct (Z.leb_spec 8 (b - a)) as [_ | H8]; [| lia].
  destruct (Z.leb_spec sort.shortestNinther (b - a)) as [H50 | H50].
  - pose proof (medianAdjacent_func_spec data (a + q * 1) 0) as Hi.
    destruct (sort.medianAdjacent_func less data (a + q * 1) 0) as [i s1].
    pose proof (medianAdjacent_func_spec data (a + q * 2) s1) as Hj.
    destruct (sort.medianAdjacent_func less data (a + q * 2) s1) as [j s2].
    pose proof (medianAdjacent_func_spec data (a + q * 3) s2) as Hk.
    destruct (sort.medianAdjacent_func less data (a + q * 3) s2) as [k s3].
    simpl in Hi, Hj, Hk.
    pose proof (median_func_spec data i j k s3) as Hm.
    destruct (sort.median_func less data i j k s3) as [m s4]. simpl in Hm.
    assert (a <= m < b) by (destruct Hm as [-> | [-> | ->]]; lia).
    destruct (s4 =? 0); [assumption |]. now destruct (s4 =? sort.maxSwaps).
  - pose proof (median_func_spec data (a + q * 1) (a + q * 2) (a + q * 3) 0) as Hm.
    destruct (sort.median_func less data (a + q * 1) (a + q * 2) (a + q * 3) 0) as [m s4].
    simpl in Hm.
    assert (a <= m < b) by (destruct Hm as [-> | [-> | ->]]; lia).
    destruct (s4 =? 0); [assumption |]. now destruct (s4 =? sort.maxSwaps).
Qed.

(** [breakPatterns_func] *)

Lemma xorshift_Next_nonneg r : 0 <= r -> 0 <= sort.xorshift_Next r.
Proof.
  intros Hr. unfold sort.xorshift_Next, sort.uint64.
  assert (H1 : 0 <= Z.lxor r (Z.shiftl r 13 mod 2 ^ 64)).
  { apply Z.lxor_nonneg. split; intros _; [apply Z.mod_pos_bound; lia | assumption]. }
  set (r1 := Z.lxor r (Z.shiftl r 13 mod 2 ^ 64)) in *. clearbody r1.
  assert (H2 : 0 <= Z.lxor r1 (Z.shiftr r1 7)).
  { apply Z.lxor_nonneg. split; intros _; [now apply Z.shiftr_nonneg | assumption]. }
  set (r2 := Z.lxor r1 (Z.shiftr r1 7)) in *. clearbody r2.
  apply Z.lxor_nonneg. split; intros _; [apply Z.mod_pos_bound; lia | assumption].
Qed.

Lemma nextPowerOfTwo_spec length :
  0 < length ->
  exists s, 0 <= s /\ sort.nextPowerOfTwo length = 2 ^ s /\ 2 ^ s <= 2 * length.
Proof.
  intros Hl. unfold sort.nextPowerOfTwo, sort.bits_Len.
  destruct (Z.leb_spec length 0); [lia |].
  exists (Z.log2 length + 1). pose proof (Z.log2_nonneg length).
  split; [lia |]. split; [apply Z.shiftl_1_l |].
  rewrite Z.pow_add_r by lia. pose proof (Z.log2_spec length Hl). lia.
Qed.

Lemma breakPatterns_loop_spec (n : nat) data a b length idx i random modulus s :
  0 <= a -> a <= b -> b <= len data -> length = b - a -> 0 < length ->
  0 <= random -> 0 <= s -> modulus = 2 ^ s -> modulus <= 2 * length ->
  a <= idx - 1 + i -> idx - 1 + i + Z.of_nat n <= b ->
  Within a b data (sort.breakPatterns_loop n data a length idx i random modulus).
Proof.
  revert data i random. induction n as [|n IH];
    intros data i random Ha Hab Hb Hlen Hpos Hr Hs Hm Hm2 Hlo Hhi; simpl.
  - apply Within_refl; lia.
  - pose proof (xorshift_Next_nonneg random Hr) as Hr'.
    set (random' := sort.xorshift_Next random) in *. clearbody random'.
    assert (Hland : 0 <= Z.land random' (modulus - 1) < modulus).
    { subst modulus. replace (2 ^ s - 1) with (Z.ones s) by (rewrite Z.ones_equiv; lia).
      rewrite Z.land_ones by lia. apply Z.mod_pos_bound. lia. }
    set (other := Z.land random' (modulus - 1)) in *. clearbody other.
    set (other' := if length <=? other then other - length else other).
    assert (Ho : 0 <= other' < length)
      by (unfold other'; destruct (Z.leb_spec length other); lia).
    clearbody other'.
    eapply Within_trans; [apply (Within_Swap a b data (idx - 1 + i) (a + other')); lia |].
    apply (IH _ (i + 1) random'); try lia. rewrite len_Swap. lia.
Qed.

Lemma breakPatterns_func_spec data a b :
  0 <= a -> a <= b -> b <= len data ->
  Within a b data (sort.breakPatterns_func data a b).
Proof.
  intros Ha Hab Hb. unfold sort.breakPatterns_func.
  destruct (Z.leb_spec 8 (b - a)) as [H8 | H8]; [| apply Within_refl; lia].
  destruct (nextPowerOfTwo_spec (b - a)) as (s & Hs & Hm & Hm2); [lia |].
  assert (Hq : Z.quot (b - a) 4 = (b - a) / 4) by (apply Z.quot_div_nonneg; lia).
  rewrite Hq. set (q := (b - a) / 4).
  assert (Hq2 : 2 <= q /\ 4 * q <= b - a).
  { unfold q. split; [apply Z.div_le_lower_bound; lia |].
    apply Z.mul_div_le. lia. }
  clearbody q.
  apply (breakPatterns_loop_spec 3 data a b (b - a) _ 0 (b - a) _ s); try lia.
Qed.

End Pieces.

(** *** [partialInsertionSort_func] *)

Section Partial.

Local Open Scope Z_scope.

Context {A : Type} (less : A -> A -> bool).
Hypothesis less_swo : sort.StrictWeakOrder less.
Implicit Types (data : list A) (i j k a b : Z).

Lemma lowbound_Within a' b' a b data data' :
  Within a' b' data data' -> a <= a' -> b' <= b -> 0 <= a -> b <= len data ->
  lowbound less data a b -> lowbound less data' a b.
Proof.
  intros HW Ha Hb Ha0 Hbl H q Eq.
  rewrite (Within_frame _ _ _ _ (a - 1) HW) in Eq by lia.
  eapply Within_all_on_wider; eauto.
Qed.

Lemma lowbound_sub data a b b' : lowbound less data a b -> b' <= b -> lowbound less data a b'.
Proof. intros H Hb q Eq k x Hk. apply (H q Eq). lia. Qed.

Lemma lowbound_first data a b :
  0 <= a -> a < b -> b <= len data -> lowbound less data a b ->
  sort.Less less data a (a - 1) = false.
Proof.
  intros Ha Hab Hb H. unfold sort.Less.
  destruct (sort.elem data a) as [x|] eqn:Ex; [| reflexivity].
  destruct (sort.elem data (a - 1)) as [q|] eqn:Eq; [| reflexivity].
  apply (H q Eq a x); [lia | exact Ex].
Qed.

Lemma shiftLeft_S (fuel : nat) data j :
  sort.shiftLeft less (S fuel) data j =
  if j <? 1 then data
  else if negb (sort.Less less data j (j - 1)) then data
  else sort.shiftLeft less fuel (sort.Swap data j (j - 1)) (j - 1).
Proof. reflexivity. Qed.

(** Within its bounds the loop that shifts the smaller element to the
    left is the inner loop of the insertion sort. *)
Lemma shiftLeft_inner (fuel : nat) data a j :
  0 <= a -> a <= j -> j < len data -> lowbound less data a (j + 1) ->
  sort.shiftLeft less fuel data j = sort.insertionSort_inner less fuel data a j.
Proof.
  revert data j. induction fuel as [|fuel IH]; intros data j Ha Haj Hj Hlow; [reflexivity |].
  rewrite shiftLeft_S, insertionSort_inner_S.
  destruct (Z.ltb_spec j 1) as [Hj1 | Hj1].
  - destruct (Z.ltb_spec a j); [lia | reflexivity].
  - destruct (sort.Less less data j (j - 1)) eqn:E; simpl.
    + destruct (Z.ltb_spec a j) as [Hlt | Hge]; simpl.
      * apply IH; try lia; [rewrite len_Swap; lia |].
        apply lowbound_sub with (j + 1); [| lia].
        apply (lowbound_Within a (j + 1) a (j + 1) data); try lia; try assumption.
        apply Within_Swap; lia.
      * assert (j = a) by lia. subst j.
        rewrite (lowbound_first data a (a + 1)) in E by (try lia; assumption).
        discriminate.
    + now rewrite andb_false_r.
Qed.

Lemma shiftRight_spec (fuel : nat) data lo j b :
  0 <= lo -> lo <= j - 1 -> lo <= b -> b <= len data ->
  Within lo b data (sort.shiftRight less fuel data j b).
Proof.
  revert data j. induction fuel as [|fuel IH]; intros data j Hlo Hj Hlb Hb; simpl.
  - apply Within_refl; lia.
  - destruct (Z.leb_spec b j); [apply Within_refl; lia |].
    destruct (sort.Less less data j (j - 1)); simpl; [| apply Within_refl; lia].
    eapply Within_trans; [apply (Within_Swap lo b data j (j - 1)); lia |].
    apply IH; try lia. rewrite len_Swap. lia.
Qed.

Lemma skipOrdered_S (fuel : nat) data i b :
  sort.skipOrdered less (S fuel) data i b =
  if (i <? b) && negb (sort.Less less data i (i - 1))
  then sort.skipOrdered less fuel data (i + 1) b else i.
Proof. reflexivity. Qed.

Lemma skipOrdered_spec (fuel : nat) data i b :
  (Z.to_nat (b - i) <= fuel)%nat ->
  let i' := sort.skipOrdered less fuel data i b in
  i <= i' /\ (i <= b -> i' <= b) /\
  (forall k, i <= k < i' -> sort.Less less data k (k - 1) = false) /\
  (i' < b -> sort.Less less data i' (i' - 1) = true).
Proof.
  revert i. induction fuel as [|fuel IH]; intros i Hfuel; cbv zeta.
  - simpl. repeat split; try lia.
  - rewrite skipOrdered_S. destruct (Z.ltb_spec i b) as [Hib | Hib]; simpl.
    + destruct (sort.Less less data i (i - 1)) eqn:E; simpl.
      * repeat split; try lia. intros _. exact E.
      * destruct (IH (i + 1)) as (H1 & H2 & H3 & H4); [lia |].
        repeat split; try lia; try assumption.
        intros k Hk. destruct (Z.eq_dec k i) as [-> | Hne]; [exact E | apply H3; lia].
    + repeat split; try lia.
Qed.

Lemma sorted_on_extend data a i :
  0 <= a -> a < i -> i < len data ->
  sorted_on less data a i -> sort.Less less data i (i - 1) = false ->
  sorted_on less data a (i + 1).
Proof.
  intros Ha Hai Hi Hs E p q x y Hp Hpq Hq Ex Ey.
  destruct (Z.eq_dec q i) as [-> | Hne]; [| apply (Hs p q); try lia; assumption].
  destruct (elem_in_range data (i - 1)) as [z Ez]; [lia |].
  rewrite (Less_elem less data i (i - 1) y z Ey Ez) in E.
  destruct (Z.eq_dec p (i - 1)) as [-> | Hp1].
  - assert (x = z) by congruence. now subst.
  - apply (swo_negtrans less less_swo) with z; [exact E |].
    apply (Hs p (i - 1)); try lia; assumption.
Qed.

Lemma sorted_on_extend_many (n : nat) data a i :
  0 <= a -> a < i -> i + Z.of_nat n <= len data ->
  sorted_on less data a i ->
  (forall k, i <= k < i + Z.of_nat n -> sort.Less less data k (k - 1) = false) ->
  sorted_on less data a (i + Z.of_nat n).
Proof.
  induction n as [|n IH]; intros Ha Hai Hi Hs H.
  - now replace (i + Z.of_nat 0) with i by lia.
  - replace (i + Z.of_nat (S n)) with (i + Z.of_nat n + 1) by lia.
    apply sorted_on_extend; try lia.
    + apply IH; try lia; try assumption. intros k Hk. apply H. lia.
    + apply H. lia.
Qed.

Lemma partialInsertionSort_loop_S (steps : nat) data a b i :
  sort.partialInsertionSort_loop less (S steps) data a b i =
  let i := sort.skipOrdered less (S (Z.to_nat (b - i))) data i b in
  if i =? b then (data, true)
  else if b - a <? sort.shortestShifting then (data, false)
  else
    let data := sort.Swap data i (i - 1) in
    let data := if 2 <=? i - a then sort.shiftLeft less (Z.to_nat i) data (i - 1) else data in
    let data := if 2 <=? b - i then sort.shiftRight less (Z.to_nat (b - i)) data (i + 1) b else data in
    sort.partialInsertionSort_loop less steps data a b i.
Proof. reflexivity. Qed.

Lemma partialInsertionSort_loop_spec (steps : nat) data a b i :
  0 <= a -> a < i -> i <= b -> b <= len data ->
  sorted_on less data a i -> lowbound less data a b ->
  let '(data', done) := sort.partialInsertionSort_loop less steps data a b i in
  Within a b data data' /\ (done = true -> sorted_on less data' a b).
Proof.
  revert data i. induction steps as [|steps IH]; intros data i Ha Hai Hib Hb Hs Hlow.
  - simpl. split; [apply Within_refl; lia | discriminate].
  - rewrite partialInsertionSort_loop_S. cbv zeta.
    destruct (skipOrdered_spec (S (Z.to_nat (b - i))) data i b) as (H1 & H2 & H3 & H4); [lia |].
    set (i' := sort.skipOrdered less (S (Z.to_nat (b - i))) data i b) in *. clearbody i'.
    assert (Hs' : sorted_on less data a i').
    { replace i' with (i + Z.of_nat (Z.to_nat (i' - i))) by lia.
      apply sorted_on_extend_many; try lia; try assumption.
      intros k Hk. apply H3. lia. }
    destruct (Z.eqb_spec i' b) as [-> | Hne].
    { split; [apply Within_refl; lia | intros _; exact Hs']. }
    destruct (Z.ltb_spec (b - a) sort.shortestShifting).
    { split; [apply Within_refl; lia | discriminate]. }
    assert (Hib' : i' < b) by lia.
    set (data1 := sort.Swap data i' (i' - 1)).
    assert (HW1 : Within a b data data1) by (apply Within_Swap; lia).
    assert (Hl1 : len data1 = len data) by apply len_Swap.
    assert (Hlow1 : lowbound less data1 a b)
      by (apply (lowbound_Within a b a b data); try lia; assumption).
    assert (Hs1 : sorted_on less data1 a (i' - 1)).
    { apply sorted_on_ext with data.
      - intros k Hk. unfold data1. rewrite elem_Swap by lia.
        destruct (Z.eqb_spec k (i' - 1)); [lia |]. destruct (Z.eqb_spec k i'); [lia | reflexivity].
      - intros p q x y Hp Hpq Hq. apply (Hs' p q); lia. }
    clearbody data1.
    set (data2 := if 2 <=? i' - a then sort.shiftLeft less (Z.to_nat i') data1 (i' - 1) else data1).
    assert (H2' : Within a i' data1 data2 /\ sorted_on less data2 a i').
    { unfold data2. destruct (Z.leb_spec 2 (i' - a)).
      - rewrite (shiftLeft_inner _ data1 a) by
            first [lia | apply lowbound_sub with b; [assumption | lia]].
        pose proof (insertionSort_inner_spec less less_swo (Z.to_nat i') data1 a
                      (i' - 1) (i' - 1)) as Hin.
        replace (i' - 1 + 1) with i' in Hin by lia.
        apply Hin; try lia; try assumption;
          first [apply sorted_on_short; lia | intros; lia].
      - split; [apply Within_refl; lia | apply sorted_on_short; lia]. }
    destruct H2' as [HW2 Hs2]. clearbody data2.
    assert (Hl2 : len data2 = len data1) by (eapply Within_len; eassumption).
    set (data3 := if 2 <=? b - i' then sort.shiftRight less (Z.to_nat (b - i')) data2 (i' + 1) b else data2).
    assert (HW3 : Within i' b data2 data3).
    { unfold data3. destruct (Z.leb_spec 2 (b - i')).
      - apply shiftRight_spec; lia.
      - apply Within_refl; lia. }
    clearbody data3.
    assert (HW : Within a b data data3).
    { eapply Within_trans; [exact HW1 |].
      eapply Within_trans; [eapply Within_mono; [exact HW2 | lia ..] |].
      eapply Within_mono; [exact HW3 | lia ..]. }
    specialize (IH data3 i').
    destruct (sort.partialInsertionSort_loop less steps data3 a b i') as [data' done].
    destruct IH as [HWr Hdone]; try lia.
    + rewrite (Within_len _ _ _ _ HW). lia.
    + apply sorted_on_ext with data2; [| exact Hs2].
      intros k Hk. apply (Within_frame _ _ _ _ k HW3). lia.
    + apply (lowbound_Within a b a b data); try lia; assumption.
    + split; [eapply Within_trans; eassumption | exact Hdone].
Qed.

Lemma partialInsertionSort_func_spec data a b :
  0 <= a -> a < b -> b <= len data -> lowbound less data a b ->
  let '(data', done) := sort.partialInsertionSort_func less data a b in
  Within a b data data' /\ (done = true -> sorted_on less data' a b).
Proof.
  intros Ha Hab Hb Hlow. unfold sort.partialInsertionSort_func.
  apply partialInsertionSort_loop_spec; try lia; try assumption.
  apply sorted_on_short. lia.
Qed.

End Partial.

(** *** [heapSort_func] *)

Section Heap.

Local Open Scope Z_scope.

Context {A : Type} (less : A -> A -> bool).
Hypothesis less_swo : sort.StrictWeakOrder less.
Implicit Types (data : list A) (i j k a b r c q lo hi first root : Z).

Lemma Less_irrefl data i : sort.Less less data i i = false.
Proof.
  unfold sort.Less. destruct (sort.elem data i); [| reflexivity].
  apply (swo_irrefl less less_swo).
Qed.

Lemma Less_asym data i j :
  sort.Less less data i j = true -> sort.Less less data j i = false.
Proof.
  unfold sort.Less. destruct (sort.elem data i), (sort.elem data j); try discriminate.
  apply (swo_asym less less_swo).
Qed.

Lemma Less_negtrans data i j k :
  0 <= j < len data ->
  sort.Less less data i j = false -> sort.Less less data j k = false ->
  sort.Less less data i k = false.
Proof.
  intros Hj. destruct (elem_in_range data j Hj) as [y Ey].
  unfold sort.Less. rewrite Ey.
  destruct (sort.elem data i), (sort.elem data k); try reflexivity.
  apply (swo_negtrans less less_swo).
Qed.

Lemma siftDown_loop_S (fuel : nat) data root hi first :
  sort.siftDown_loop less (S fuel) data root hi first =
  let child := 2 * root + 1 in
  if hi <=? child then data
  else
    let child :=
      if (child + 1 <? hi) && sort.Less less data (first + child) (first + child + 1)
      then child + 1 else child in
    if negb (sort.Less less data (first + root) (first + child)) then data
    else sort.siftDown_loop less fuel
           (sort.Swap data (first + root) (first + child)) child hi first.
Proof. reflexivity. Qed.

Lemma siftDown_loop_spec (fuel : nat) data lo hi first root :
  0 <= first -> 0 <= lo -> lo <= root -> lo <= hi -> first + hi <= len data ->
  (Z.to_nat (hi - root) <= fuel)%nat ->
  (forall r, lo <= r < hi -> r <> root -> heap_at less data first hi r) ->
  (forall q c, lo <= q -> root = 2 * q + 1 \/ root = 2 * q + 2 ->
     c = 2 * root + 1 \/ c = 2 * root + 2 -> c < hi ->
     sort.Less less data (first + q) (first + c) = false) ->
  Within (first + lo) (first + hi) data (sort.siftDown_loop less fuel data root hi first) /\
  heap_from less (sort.siftDown_loop less fuel data root hi first) first lo hi.
Proof.
  revert data root. induction fuel as [|fuel IH];
    intros data root Hf Hlo Hroot Hlh Hlen Hfuel Hrest Hgrand.
  - simpl. split; [apply Within_refl; lia |].
    intros r Hr. destruct (Z.eq_dec r root) as [-> | Hne]; [lia | now apply Hrest].
  - rewrite siftDown_loop_S. cbv zeta.
    destruct (Z.leb_spec hi (2 * root + 1)) as [Hleaf | Hchild].
    { split; [apply Within_refl; lia |].
      intros r Hr. destruct (Z.eq_dec r root) as [-> | Hne]; [| now apply Hrest].
      intros c Hc Hch. lia. }
    set (child := if (2 * root + 1 + 1 <? hi) &&
                     sort.Less less data (first + (2 * root + 1)) (first + (2 * root + 1) + 1)
                  then 2 * root + 1 + 1 else 2 * root + 1).
    assert (Hchoice : (child = 2 * root + 1 \/ child = 2 * root + 2) /\ child < hi /\
                      forall c, c = 2 * root + 1 \/ c = 2 * root + 2 -> c < hi ->
                        sort.Less less data (first + child) (first + c) = false).
    { unfold child. destruct (Z.ltb_spec (2 * root + 1 + 1) hi) as [H2 | H2]; cbn [andb].
      - destruct (sort.Less less data (first + (2 * root + 1)) (first + (2 * root + 1) + 1)) eqn:E;
          cbv iota.
        + split; [lia |]. split; [lia |]. intros c [-> | ->] Hc.
          * replace (first + (2 * root + 1 + 1)) with (first + (2 * root + 1) + 1) by lia.
            now apply Less_asym.
          * replace (2 * root + 1 + 1) with (2 * root + 2) by lia. apply Less_irrefl.
        + split; [lia |]. split; [lia |]. intros c [-> | ->] Hc.
          * apply Less_irrefl.
          * replace (first + (2 * root + 2)) with (first + (2 * root + 1) + 1) by lia.
            exact E.
      - split; [lia |]. split; [lia |]. intros c [-> | ->] Hc; [apply Less_irrefl | lia]. }
    clearbody child. destruct Hchoice as (Hc12 & Hchi & Hbig).
    destruct (sort.Less less data (first + root) (first + child)) eqn:Eroot; simpl.
    + (* the root is less than its larger child: they change places *)
      set (data1 := sort.Swap data (first + root) (first + child)).
      assert (HL : forall x y, sort.Less less data1 x y =
                        sort.Less less data (tr (first + root) (first + child) x)
                                            (tr (first + root) (first + child) y))
        by (intros; apply Less_Swap; lia).
      destruct (IH data1 child) as [HW Hheap]; try lia.
      { unfold data1. rewrite len_Swap. lia. }
      { intros r Hr Hne c Hc Hch. rewrite HL. unfold tr.
        destruct (Z.eq_dec r root) as [-> | Hnr].
        - (* the old root: it now holds the larger child *)
          destruct (Z.eqb_spec (first + root) (first + child)); [lia |].
          rewrite Z.eqb_refl.
          destruct (Z.eqb_spec (first + c) (first + child)) as [Hcc | Hcc].
          + now apply Less_asym.
          + destruct (Z.eqb_spec (first + c) (first + root)); [lia |].
            apply Hbig; assumption.
        - destruct (Z.eqb_spec (first + r) (first + child)); [lia |].
          destruct (Z.eqb_spec (first + r) (first + root)); [lia |].
          destruct (Z.eqb_spec (first + c) (first + child)); [lia |].
          destruct (Z.eqb_spec (first + c) (first + root)) as [Hcr | Hcr].
          + (* [r] is the parent of the old root *)
            assert (c = root) by lia. subst c.
            apply (Hgrand r child); try lia.
          + apply (Hrest r); try lia; assumption. }
      { intros q c Hq Hpar Hc Hch. rewrite HL. unfold tr.
        assert (q = root) by lia. subst q.
        destruct (Z.eqb_spec (first + root) (first + child)); [lia |].
        rewrite Z.eqb_refl.
        destruct (Z.eqb_spec (first + c) (first + child)); [lia |].
        destruct (Z.eqb_spec (first + c) (first + root)); [lia |].
        apply (Hrest child); try lia; assumption. }
      split; [| exact Hheap].
      eapply Within_trans; [| exact HW].
      apply Within_Swap; lia.
    + split; [apply Within_refl; lia |].
      intros r Hr. destruct (Z.eq_dec r root) as [-> | Hne]; [| now apply Hrest].
      intros c Hc Hch.
      apply Less_negtrans with (first + child); [lia | exact Eroot | now apply Hbig].
Qed.

Lemma siftDown_func_spec data lo hi first :
  0 <= first -> 0 <= lo -> lo <= hi -> first + hi <= len data ->
  (forall r, lo < r < hi -> heap_at less data first hi r) ->
  Within (first + lo) (first + hi) data (sort.siftDown_func less data lo hi first) /\
  heap_from less (sort.siftDown_func less data lo hi first) first lo hi.
Proof.
  intros Hf Hlo Hlh Hlen Hrest. unfold sort.siftDown_func.
  apply siftDown_loop_spec; try lia.
  intros r Hr Hne. apply Hrest. lia.
Qed.

(** The root of a heap is not less than any of its nodes. *)
Lemma heap_root_max data first hi :
  0 <= first -> first + hi <= len data ->
  heap_from less data first 0 hi ->
  forall r, 0 <= r < hi -> sort.Less less data first (first + r) = false.
Proof.
  intros Hf Hlen Hheap r Hr.
  assert (H : forall n : nat, forall r, 0 <= r < hi -> r <= Z.of_nat n ->
                sort.Less less data first (first + r) = false).
  { induction n as [|n IHn]; intros r' Hr' Hn.
    - assert (r' = 0) by lia. subst. rewrite Z.add_0_r. apply Less_irrefl.
    - destruct (Z.eq_dec r' 0) as [-> | Hpos].
      + rewrite Z.add_0_r. apply Less_irrefl.
      + set (q := (r' - 1) / 2).
        assert (Hq : r' = 2 * q + 1 \/ r' = 2 * q + 2).
        { unfold q. pose proof (Z.div_mod (r' - 1) 2 ltac:(lia)).
          pose proof (Z.mod_pos_bound (r' - 1) 2 ltac:(lia)). lia. }
        clearbody q.
        apply Less_negtrans with (first + q); [lia | |].
        * apply IHn; lia.
        * apply (Hheap q); try lia. }
  apply (H (Z.to_nat r)); lia.
Qed.

Lemma heapSort_build_spec (fuel : nat) data i hi first :
  0 <= first -> 0 <= hi -> first + hi <= len data -> -1 <= i -> i <= hi ->
  (Z.to_nat (i + 1) <= fuel)%nat ->
  heap_from less data first (i + 1) hi ->
  Within first (first + hi) data (sort.heapSort_build less fuel data i hi first) /\
  heap_from less (sort.heapSort_build less fuel data i hi first) first 0 hi.
Proof.
  revert data i. induction fuel as [|fuel IH]; intros data i Hf Hhi Hlen Hi Hih Hfuel Hheap.
  - simpl. split; [apply Within_refl; lia |].
    intros r Hr. apply Hheap. lia.
  - simpl. destruct (Z.ltb_spec i 0) as [Hneg | Hpos].
    + split; [apply Within_refl; lia |]. intros r Hr. apply Hheap. lia.
    + destruct (siftDown_func_spec data i hi first) as [HW Hh]; try lia.
      { intros r Hr. apply Hheap. lia. }
      destruct (IH (sort.siftDown_func less data i hi first) (i - 1)) as [HW2 Hh2]; try lia.
      { rewrite (Within_len _ _ _ _ HW). lia. }
      { now replace (i - 1 + 1) with i by lia. }
      split; [| exact Hh2].
      eapply Within_trans; [| exact HW2].
      eapply Within_mono; [exact HW | lia ..].
Qed.

Lemma popping_step data first hi i :
  0 <= first -> first + hi <= len data -> 0 <= i < hi ->
  popping less data first hi (i + 1) ->
  let data' := sort.siftDown_func less (sort.Swap data first (first + i)) 0 i first in
  Within first (first + hi) data data' /\ popping less data' first hi i.
Proof.
  intros Hf Hlen Hi (Hheap & Hsorted & Hcross). cbv zeta.
  set (data1 := sort.Swap data first (first + i)).
  assert (HL : forall x y, sort.Less less data1 x y =
                    sort.Less less data (tr first (first + i) x) (tr first (first + i) y))
    by (intros; apply Less_Swap; lia).
  assert (HE : forall x, sort.elem data1 x = sort.elem data (tr first (first + i) x))
    by (intros; apply elem_Swap_tr; lia).
  assert (Hl1 : len data1 = len data) by apply len_Swap.
  assert (HW1 : Within first (first + hi) data data1) by (apply Within_Swap; lia).
  pose proof (heap_root_max data first (i + 1) Hf ltac:(lia) Hheap) as Hmax.
  destruct (siftDown_func_spec data1 0 i first) as [HW2 Hh2]; try lia.
  { intros r Hr c Hc Hch. rewrite HL. unfold tr.
    destruct (Z.eqb_spec (first + r) (first + i)); [lia |].
    destruct (Z.eqb_spec (first + r) first); [lia |].
    destruct (Z.eqb_spec (first + c) (first + i)); [lia |].
    destruct (Z.eqb_spec (first + c) first); [lia |].
    apply (Hheap r); try lia; assumption. }
  split.
  { eapply Within_trans; [exact HW1 |]. eapply Within_mono; [exact HW2 | lia ..]. }
  assert (Hsorted1 : sorted_on less data1 (first + i) (first + hi)).
  { intros p q x y Hp Hpq Hq Ex Ey. rewrite HE in Ex, Ey. unfold tr in Ex, Ey.
    destruct (Z.eqb_spec q (first + i)); [lia |].
    destruct (Z.eqb_spec q first); [lia |].
    destruct (Z.eqb_spec p (first + i)) as [-> | Hpi].
    - (* the old root, put at [i], against the sorted part *)
      rewrite <- (Less_elem less data q first y x Ey Ex).
      generalize (Hcross 0 (q - first)).
      rewrite Z.add_0_r. replace (first + (q - first)) with q by lia.
      intros Hc. apply Hc; lia.
    - destruct (Z.eqb_spec p first); [lia |].
      apply (Hsorted p q); try lia; assumption. }
  assert (Hcross1 : forall r s, 0 <= r < i -> i <= s < hi ->
                      sort.Less less data1 (first + s) (first + r) = false).
  { intros r s Hr Hs. rewrite HL. unfold tr.
    destruct (Z.eqb_spec (first + s) (first + i)) as [Hsi | Hsi].
    - (* the old root against what is left of the heap *)
      destruct (Z.eqb_spec (first + r) (first + i)); [lia |].
      destruct (Z.eqb_spec (first + r) first) as [Hr0 | Hr0].
      + apply Hmax. lia.
      + apply Hmax. lia.
    - destruct (Z.eqb_spec (first + s) first); [lia |].
      destruct (Z.eqb_spec (first + r) (first + i)); [lia |].
      destruct (Z.eqb_spec (first + r) first) as [Hr0 | Hr0].
      + generalize (Hcross i s). intros Hc. apply Hc; lia.
      + apply Hcross; lia. }
  clearbody data1.
  set (data2 := sort.siftDown_func less data1 0 i first) in *. clearbody data2.
  rewrite Z.add_0_r in HW2.
  split; [exact Hh2 |]. split.
  - apply sorted_on_ext with data1; [| exact Hsorted1].
    intros k Hk. apply (Within_frame _ _ _ _ k HW2). lia.
  - intros r s Hr Hs.
    destruct (elem_in_range data2 (first + s)) as [y Ey];
      [rewrite (Within_len _ _ _ _ HW2); lia |].
    destruct (elem_in_range data2 (first + r)) as [x Ex];
      [rewrite (Within_len _ _ _ _ HW2); lia |].
    rewrite (Less_elem less data2 _ _ y x Ey Ex).
    assert (Ey1 : sort.elem data1 (first + s) = Some y)
      by (rewrite <- (Within_frame _ _ _ _ (first + s) HW2) by lia; exact Ey).
    assert (Hall : all_on (fun x => less y x = false) data1 first (first + i)).
    { intros k z Hk Ez.
      rewrite <- (Less_elem less data1 (first + s) k y z Ey1 Ez).
      generalize (Hcross1 (k - first) s).
      replace (first + (k - first)) with k by lia.
      intros Hc. apply Hc; lia. }
    apply (Within_all_on _ _ _ _ _ HW2) in Hall.
    apply (Hall (first + r) x); [lia | exact Ex].
Qed.

Lemma heapSort_pop_spec (fuel : nat) data i hi first :
  0 <= first -> first + hi <= len data -> -1 <= i < hi ->
  (Z.to_nat (i + 1) <= fuel)%nat ->
  popping less data first hi (i + 1) ->
  Within first (first + hi) data (sort.heapSort_pop less fuel data i 0 first) /\
  sorted_on less (sort.heapSort_pop less fuel data i 0 first) first (first + hi).
Proof.
  revert data i. induction fuel as [|fuel IH]; intros data i Hf Hlen Hi Hfuel Hpop.
  - simpl. assert (i = -1) by lia. subst i.
    split; [apply Within_refl; lia |].
    destruct Hpop as (_ & Hs & _). now rewrite Z.add_0_r in Hs.
  - simpl. destruct (Z.ltb_spec i 0) as [Hneg | Hpos].
    + assert (i = -1) by lia. subst i.
      split; [apply Within_refl; lia |].
      destruct Hpop as (_ & Hs & _). now rewrite Z.add_0_r in Hs.
    + destruct (popping_step data first hi i) as [HW Hpop']; try lia; try assumption.
      set (data' := sort.siftDown_func less (sort.Swap data first (first + i)) 0 i first) in *.
      clearbody data'.
      destruct (IH data' (i - 1)) as [HW2 Hs2]; try lia.
      { rewrite (Within_len _ _ _ _ HW). lia. }
      { now replace (i - 1 + 1) with i by lia. }
      split; [eapply Within_trans; eassumption | exact Hs2].
Qed.

Lemma heapSort_func_spec data a b :
  0 <= a -> a <= b -> b <= len data ->
  Within a b data (sort.heapSort_func less data a b) /\
  sorted_on less (sort.heapSort_func less data a b) a b.
Proof.
  intros Ha Hab Hb. unfold sort.heapSort_func.
  assert (Hq : -1 <= Z.quot (b - a - 1) 2 <= b - a /\ b - a <= 2 * Z.quot (b - a - 1) 2 + 2).
  { destruct (Z.eq_dec (b - a) 0) as [H0 | H0].
    - rewrite H0. cbn. lia.
    - rewrite Z.quot_div_nonneg by lia.
      pose proof (Z.div_mod (b - a - 1) 2 ltac:(lia)).
      pose proof (Z.mod_pos_bound (b - a - 1) 2 ltac:(lia)). lia. }
  set (i0 := Z.quot (b - a - 1) 2) in *. clearbody i0.
  destruct (heapSort_build_spec (S (Z.to_nat (b - a))) data i0 (b - a) a) as [HW Hheap];
    try lia.
  { intros r Hr c Hc Hch. lia. }
  set (data1 := sort.heapSort_build less (S (Z.to_nat (b - a))) data i0 (b - a) a) in *.
  clearbody data1.
  destruct (heapSort_pop_spec (S (Z.to_nat (b - a))) data1 (b - a - 1) (b - a) a)
    as [HW2 Hs]; try lia.
  { rewrite (Within_len _ _ _ _ HW). lia. }
  { replace (b - a - 1 + 1) with (b - a) by lia. split; [exact Hheap |]. split.
    - apply sorted_on_short. lia.
    - intros r s Hr Hs'. lia. }
  replace (a + (b - a)) with b in * by lia.
  split; [eapply Within_trans; eassumption | exact Hs].
Qed.

End Heap.

(** *** [pdqsort_func] and [Slice] *)

Section Quicksort.

Local Open Scope Z_scope.

Context {A : Type} (less : A -> A -> bool).
Hypothesis less_swo : sort.StrictWeakOrder less.
Implicit Types (data : list A) (i j k a b mid pivot limit : Z).

Lemma all_on_frame (P : A -> Prop) data data' a b :
  (forall k, a <= k < b -> sort.elem data' k = sort.elem data k) ->
  all_on P data a b -> all_on P data' a b.
Proof. intros Hext H k x Hk Ex. rewrite Hext in Ex by lia. now apply (H k). Qed.

Lemma partitioned_left data data' a b mid :
  Within a mid data data' -> partitioned less data a b mid -> partitioned less data' a b mid.
Proof.
  intros HW (Hmid & p & Ep & Hl & Hr). split; [exact Hmid |]. exists p. split; [| split].
  - rewrite (Within_frame _ _ _ _ mid HW) by lia. exact Ep.
  - now apply (Within_all_on _ _ _ _ _ HW).
  - apply all_on_frame with data; [| exact Hr].
    intros k Hk. apply (Within_frame _ _ _ _ k HW). lia.
Qed.

Lemma partitioned_right data data' a b mid :
  Within (mid + 1) b data data' -> partitioned less data a b mid ->
  partitioned less data' a b mid.
Proof.
  intros HW (Hmid & p & Ep & Hl & Hr). split; [exact Hmid |]. exists p. split; [| split].
  - rewrite (Within_frame _ _ _ _ mid HW) by lia. exact Ep.
  - apply all_on_frame with data; [| exact Hl].
    intros k Hk. apply (Within_frame _ _ _ _ k HW). lia.
  - now apply (Within_all_on _ _ _ _ _ HW).
Qed.

Lemma partitioned_lowbound data a b mid :
  partitioned less data a b mid -> lowbound less data (mid + 1) b.
Proof.
  intros (Hmid & p & Ep & Hl & Hr) q Eq.
  replace (mid + 1 - 1) with mid in Eq by lia.
  rewrite Ep in Eq. injection Eq as <-. exact Hr.
Qed.

(** Two sorted parts around a pivot in its final place make a sorted range. *)
Lemma sorted_join data a b mid :
  partitioned less data a b mid ->
  sorted_on less data a mid -> sorted_on less data (mid + 1) b ->
  sorted_on less data a b.
Proof.
  intros (Hmid & p & Ep & Hl & Hr) Hsl Hsr i j x y Hi Hij Hj Ex Ey.
  destruct (Z.lt_trichotomy j mid) as [Hjm | [-> | Hjm]].
  - apply (Hsl i j); try lia; assumption.
  - rewrite Ep in Ey. injection Ey as <-.
    apply (swo_asym less less_swo). apply (Hl i); [lia | exact Ex].
  - destruct (Z.lt_trichotomy i mid) as [Him | [-> | Him]].
    + assert (Hxp : less x p = true) by (apply (Hl i); [lia | exact Ex]).
      assert (Hyp : less y p = false) by (apply (Hr j); [lia | exact Ey]).
      destruct (less y x) eqn:E; [| reflexivity].
      rewrite (swo_trans less less_swo y x p E Hxp) in Hyp. discriminate.
    + rewrite Ep in Ex. injection Ex as <-. apply (Hr j); [lia | exact Ey].
    + apply (Hsr i j); try lia; assumption.
Qed.

(** What [partitionEqual_func] leaves on the left is sorted as it stands:
    nothing there is less than the element before the range, which is not
    less than the pivot, which is not less than anything there. *)
Lemma equal_sorted data a mid (q p : A) :
  less q p = false ->
  all_on (fun x => less x q = false) data a mid ->
  all_on (fun x => less p x = false) data a mid ->
  sorted_on less data a mid.
Proof.
  intros Hqp Hq Hp i j x y Hi Hij Hj Ex Ey.
  assert (Hyq : less y q = false) by (apply (Hq j); [lia | exact Ey]).
  assert (Hpx : less p x = false) by (apply (Hp i); [lia | exact Ex]).
  apply (swo_negtrans less less_swo y p x); [| exact Hpx].
  apply (swo_negtrans less less_swo y q p); assumption.
Qed.

Lemma sorted_joinEq data a b mid (p : A) :
  all_on (fun x => less p x = false) data a mid ->
  all_on (fun x => less p x = true) data mid b ->
  sorted_on less data a mid -> sorted_on less data mid b ->
  sorted_on less data a b.
Proof.
  intros Hl Hr Hsl Hsr i j x y Hi Hij Hj Ex Ey.
  destruct (Z.lt_ge_cases j mid) as [Hjm | Hjm].
  - apply (Hsl i j); try lia; assumption.
  - destruct (Z.lt_ge_cases i mid) as [Him | Him].
    + assert (Hpx : less p x = false) by (apply (Hl i); [lia | exact Ex]).
      assert (Hpy : less p y = true) by (apply (Hr j); [lia | exact Ey]).
      destruct (less y x) eqn:E; [| reflexivity].
      rewrite (swo_trans less less_swo p y x Hpy E) in Hpx. discriminate.
    + apply (Hsr i j); try lia; assumption.
Qed.

Lemma partitionedEq_lowbound data a b mid (p : A) :
  0 <= a -> b <= len data ->
  partitionedEq less data a b mid p -> lowbound less data mid b.
Proof.
  intros Ha Hb (Hmid & Hl & Hr) z Ez k x Hk Ex.
  assert (Hpz : less p z = false) by (apply (Hl (mid - 1)); [lia | exact Ez]).
  assert (Hpx : less p x = true) by (apply (Hr k); [lia | exact Ex]).
  destruct (less x z) eqn:E; [| reflexivity].
  rewrite (swo_trans less less_swo p x z Hpx E) in Hpz. discriminate.
Qed.

Lemma pdqsort_loop_S (fuel : nat) data a b limit (wasBalanced wasPartitioned : bool) :
  sort.pdqsort_loop less (S fuel) data a b limit wasBalanced wasPartitioned =
  if b - a <=? sort.maxInsertion then sort.insertionSort_func less data a b
  else if limit =? 0 then sort.heapSort_func less data a b
  else
    let '(data, limit) :=
      if negb wasBalanced then (sort.breakPatterns_func data a b, limit - 1)
      else (data, limit) in
    let '(pivot, hint) := sort.choosePivot_func less data a b in
    let '(data, pivot, hint) :=
      if sort.isDecreasing hint
      then (sort.reverseRange_func data a b, (b - 1) - (pivot - a), sort.increasingHint)
      else (data, pivot, hint) in
    let '(data, done) :=
      if wasBalanced && wasPartitioned && sort.isIncreasing hint
      then sort.partialInsertionSort_func less data a b else (data, false) in
    if done then data
    else if (0 <? a) && negb (sort.Less less data (a - 1) pivot) then
      let '(data, mid) := sort.partitionEqual_func less data a b pivot in
      sort.pdqsort_loop less fuel data mid b limit wasBalanced wasPartitioned
    else
      let '(data, mid, alreadyPartitioned) :=
        sort.partitionLeftRight_func less data a b pivot in
      if mid - a <? b - mid then
        let data := sort.pdqsort_loop less fuel data a mid limit true true in
        sort.pdqsort_loop less fuel data (mid + 1) b limit
          (Z.quot (b - a) 8 <=? mid - a) alreadyPartitioned
      else
        let data := sort.pdqsort_loop less fuel data (mid + 1) b limit true true in
        sort.pdqsort_loop less fuel data a mid limit
          (Z.quot (b - a) 8 <=? b - mid) alreadyPartitioned.
Proof. reflexivity. Qed.

(** [pdqsort_func] sorts [data[a:b]], given that nothing in it is less than
    the element before it, and touches nothing else. *)
Lemma pdqsort_loop_spec (fuel : nat) :
  forall data a b limit (wasBalanced wasPartitioned : bool),
  0 <= a -> a <= b -> b <= len data -> lowbound less data a b ->
  (Z.to_nat (b - a) < fuel)%nat ->
  Within a b data (sort.pdqsort_loop less fuel data a b limit wasBalanced wasPartitioned) /\
  sorted_on less (sort.pdqsort_loop less fuel data a b limit wasBalanced wasPartitioned) a b.
Proof.
  induction fuel as [|fuel IH]; intros data a b limit wB wP Ha Hab Hb Hlow Hfuel; [lia |].
  rewrite pdqsort_loop_S.
  destruct (Z.leb_spec (b - a) sort.maxInsertion) as [Hsmall | Hbig].
  { now apply (insertionSort_func_spec less less_swo). }
  unfold sort.maxInsertion in Hbig.
  destruct (Z.eqb_spec limit 0) as [Hlim | Hlim].
  { now apply (heapSort_func_spec less less_swo). }
  (* breaking patterns *)
  assert (H1 : exists data1 limit1,
             (if negb wB then (sort.breakPatterns_func data a b, limit - 1)
              else (data, limit)) = (data1, limit1) /\ Within a b data data1).
  { destruct (negb wB); eexists; eexists; (split; [reflexivity |]).
    - apply breakPatterns_func_spec; lia.
    - apply Within_refl; lia. }
  destruct H1 as (data1 & limit1 & -> & HW1).
  pose proof (Within_len _ _ _ _ HW1) as Hl1.
  (* the pivot *)
  pose proof (choosePivot_func_spec less data1 a b ltac:(lia)) as Hpiv.
  destruct (sort.choosePivot_func less data1 a b) as [pivot hint]. cbn [fst] in Hpiv.
  (* a decreasing range is reversed *)
  assert (H2 : exists data2 pivot2 hint2,
             (if sort.isDecreasing hint
              then (sort.reverseRange_func data1 a b, (b - 1) - (pivot - a), sort.increasingHint)
              else (data1, pivot, hint)) = (data2, pivot2, hint2) /\
             Within a b data1 data2 /\ a <= pivot2 < b).
  { destruct (sort.isDecreasing hint); eexists; eexists; eexists; (split; [reflexivity |]).
    - split; [apply reverseRange_func_spec; lia | lia].
    - split; [apply Within_refl; lia | lia]. }
  destruct H2 as (data2 & pivot2 & hint2 & -> & HW2 & Hpiv2).
  pose proof (Within_len _ _ _ _ HW2) as Hl2.
  assert (HW02 : Within a b data data2) by (eapply Within_trans; eassumption).
  assert (Hlow2 : lowbound less data2 a b)
    by (apply (lowbound_Within less a b a b data data2); try lia; assumption).
  (* a range that looks sorted is tried with a few insertions *)
  assert (H3 : exists data3 done,
             (if wB && wP && sort.isIncreasing hint2
              then sort.partialInsertionSort_func less data2 a b else (data2, false))
             = (data3, done) /\
             Within a b data2 data3 /\ (done = true -> sorted_on less data3 a b)).
  { destruct (wB && wP && sort.isIncreasing hint2).
    - pose proof (partialInsertionSort_func_spec less less_swo data2 a b
                    ltac:(lia) ltac:(lia) ltac:(lia) Hlow2) as Hp.
      destruct (sort.partialInsertionSort_func less data2 a b) as [data3 done].
      exists data3, done. split; [reflexivity | exact Hp].
    - exists data2, false. split; [reflexivity |].
      split; [apply Within_refl; lia | discriminate]. }
  destruct H3 as (data3 & done & -> & HW3 & Hdone).
  pose proof (Within_len _ _ _ _ HW3) as Hl3.
  assert (HW03 : Within a b data data3) by (eapply Within_trans; eassumption).
  assert (Hlow3 : lowbound less data3 a b)
    by (apply (lowbound_Within less a b a b data data3); try lia; assumption).
  destruct done.
  { split; [exact HW03 | now apply Hdone]. }
  clear Hdone.
  destruct (elem_in_range data3 pivot2 ltac:(lia)) as [p Ep].
  destruct ((0 <? a) && negb (sort.Less less data3 (a - 1) pivot2)) eqn:Eeq.
  - (* the pivot equals the element before the range *)
    apply andb_prop in Eeq. destruct Eeq as [Ea Eless].
    apply Z.ltb_lt in Ea. apply negb_true_iff in Eless.
    destruct (elem_in_range data3 (a - 1) ltac:(lia)) as [q Eq].
    rewrite (Less_elem less data3 _ _ q p Eq Ep) in Eless.
    pose proof (partitionEqual_func_spec less less_swo data3 a b pivot2 p
                  ltac:(lia) ltac:(lia) ltac:(lia) Hpiv2 Ep) as Hpe.
    destruct (sort.partitionEqual_func less data3 a b pivot2) as [data4 mid].
    destruct Hpe as [HW4 Hpart].
    pose proof (Within_len _ _ _ _ HW4) as Hl4.
    assert (Hlow4 : lowbound less data4 a b)
      by (apply (lowbound_Within less a b a b data3 data4); try lia; assumption).
    assert (Eq4 : sort.elem data4 (a - 1) = Some q)
      by (rewrite (Within_frame _ _ _ _ (a - 1) HW4) by lia; exact Eq).
    pose proof (partitionedEq_lowbound data4 a b mid p ltac:(lia) ltac:(lia) Hpart) as Hlowm.
    destruct Hpart as (Hmid & Hleft & Hright).
    destruct (IH data4 mid b limit1 wB wP) as [HW5 Hs5]; try lia; try assumption.
    set (data5 := sort.pdqsort_loop less fuel data4 mid b limit1 wB wP) in *.
    clearbody data5.
    split.
    + eapply Within_trans; [exact HW03 |].
      eapply Within_trans; [exact HW4 |].
      eapply Within_mono; [exact HW5 | lia ..].
    + assert (Hframe : forall k, a <= k < mid -> sort.elem data5 k = sort.elem data4 k)
        by (intros k Hk; apply (Within_frame _ _ _ _ k HW5); lia).
      apply sorted_joinEq with mid p.
      * apply all_on_frame with data4; assumption.
      * now apply (Within_all_on _ _ _ _ _ HW5).
      * apply sorted_on_ext with data4; [exact Hframe |].
        apply equal_sorted with q p; [exact Eless | | exact Hleft].
        intros k x Hk Ex. apply (Hlow4 q Eq4 k x); [lia | exact Ex].
      * exact Hs5.
  - clear Eeq.
    pose proof (partitionLeftRight_func_spec less data3 a b pivot2
                  ltac:(lia) ltac:(lia) ltac:(lia) Hpiv2) as Hpl.
    destruct (sort.partitionLeftRight_func less data3 a b pivot2) as [[data4 mid] ap].
    destruct Hpl as [HW4 Hpart].
    pose proof (Within_len _ _ _ _ HW4) as Hl4.
    assert (HW04 : Within a b data data4)
      by (eapply Within_trans; [exact HW03 | exact HW4]).
    assert (Hlow4 : lowbound less data4 a b)
      by (apply (lowbound_Within less a b a b data3 data4); try lia; assumption).
    assert (Hmid : a <= mid < b) by (destruct Hpart as [H _]; exact H).
    destruct (mid - a <? b - mid); cbv zeta.
    + (* the shorter left part first *)
      destruct (IH data4 a mid limit1 true true) as [HW5 Hs5]; try lia.
      { apply lowbound_sub with b; [exact Hlow4 | lia]. }
      set (data5 := sort.pdqsort_loop less fuel data4 a mid limit1 true true) in *.
      clearbody data5.
      pose proof (Within_len _ _ _ _ HW5) as Hl5.
      pose proof (partitioned_left _ _ _ b _ HW5 Hpart) as Hpart5.
      destruct (IH data5 (mid + 1) b limit1 (Z.quot (b - a) 8 <=? mid - a) ap)
        as [HW6 Hs6]; try lia.
      { now apply partitioned_lowbound with a. }
      set (data6 := sort.pdqsort_loop less fuel data5 (mid + 1) b limit1
                      (Z.quot (b - a) 8 <=? mid - a) ap) in *.
      clearbody data6.
      split.
      * eapply Within_trans; [exact HW04 |].
        eapply Within_trans.
        -- eapply Within_mono; [exact HW5 | lia ..].
        -- eapply Within_mono; [exact HW6 | lia ..].
      * apply sorted_join with mid.
        -- now apply (partitioned_right data5 data6 a b mid).
        -- apply sorted_on_ext with data5; [| exact Hs5].
           intros k Hk. apply (Within_frame _ _ _ _ k HW6). lia.
        -- exact Hs6.
    + (* the shorter right part first *)
      destruct (IH data4 (mid + 1) b limit1 true true) as [HW5 Hs5]; try lia.
      { now apply partitioned_lowbound with a. }
      set (data5 := sort.pdqsort_loop less fuel data4 (mid + 1) b limit1 true true) in *.
      clearbody data5.
      pose proof (Within_len _ _ _ _ HW5) as Hl5.
      pose proof (partitioned_right _ _ a _ _ HW5 Hpart) as Hpart5.
      assert (Hlow5 : lowbound less data5 a mid).
      { apply lowbound_sub with b; [| lia].
        apply (lowbound_Within less (mid + 1) b a b data4 data5); try lia; assumption. }
      destruct (IH data5 a mid limit1 (Z.quot (b - a) 8 <=? b - mid) ap)
        as [HW6 Hs6]; try lia; try assumption.
      set (data6 := sort.pdqsort_loop less fuel data5 a mid limit1
                      (Z.quot (b - a) 8 <=? b - mid) ap) in *.
      clearbody data6.
      split.
      * eapply Within_trans; [exact HW04 |].
        eapply Within_trans.
        -- eapply Within_mono; [exact HW5 | lia ..].
        -- eapply Within_mono; [exact HW6 | lia ..].
      * apply sorted_join with mid.
        -- now apply (partitioned_left data5 data6 a b mid).
        -- exact Hs6.
        -- apply sorted_on_ext with data5; [| exact Hs5].
           intros k Hk. apply (Within_frame _ _ _ _ k HW6). lia.
Qed.

Lemma pdqsort_func_spec data a b limit :
  0 <= a -> a <= b -> b <= len data -> lowbound less data a b ->
  Within a b data (sort.pdqsort_func less data a b limit) /\
  sorted_on less (sort.pdqsort_func less data a b limit) a b.
Proof.
  intros. unfold sort.pdqsort_func. apply pdqsort_loop_spec; try assumption. lia.
Qed.

End Quicksort.

(** Go's [sort.Slice] meets its contract. *)
Lemma Slice_Sorts : sort.Sorts sort.Slice.
Proof.
  intros A less Hswo x. unfold sort.Slice. cbv zeta.
  fold (len x).
  destruct (pdqsort_func_spec less Hswo x 0 (len x) (sort.bits_Len (len x))) as [HW Hs].
  - lia.
  - unfold len. lia.
  - lia.
  - intros q Eq. rewrite elem_neg in Eq by lia. discriminate.
  - set (x' := sort.pdqsort_func less x 0 (len x) (sort.bits_Len (len x))) in *.
    clearbody x'. split.
    + apply (Within_perm _ _ _ _ HW).
    + rewrite <- (seg_whole x'). rewrite (Within_len _ _ _ _ HW).
      apply sorted_on_seg; [lia | exact Hs].
Qed.

(** The comparison of [loadPosts] is a strict weak ordering. *)
Lemma byDate_swo : sort.StrictWeakOrder byDate.
Proof.
  unfold byDate, time.After. repeat split.
  - intros x. apply Z.ltb_irrefl.
  - intros x y z H1 H2. apply Z.ltb_lt in H1, H2. apply Z.ltb_lt. lia.
  - intros x y z H1 H2. apply Z.ltb_ge in H1, H2. apply Z.ltb_ge. lia.
Qed.

(** In a slice ordered by date every later position holds a date that is
    not after the earlier one. *)
Lemma ordered_descending (l : list Post) : sort.ordered byDate l -> descending l.
Proof.
  unfold sort.ordered, descending. intros Hs.
  induction Hs as [|a l Hs IH Ha]; intros i Hi; simpl in Hi; [lia |].
  destruct i as [|i].
  - destruct l as [|b l]; simpl in *; [lia |].
    inversion Ha as [|? ? Hab _]; subst.
    unfold byDate, time.After in Hab. apply Z.ltb_ge in Hab. exact Hab.
  - apply (IH i). simpl in Hi. lia.
Qed.

(** ** The loop over the entries *)

Section Loop.

Variable convert : string -> error + string.
Variable contentFS : FS.

Lemma loadSteps (files : list string) (st : Loading) :
  fold_left (loadStep convert contentFS) files st =
  {| posts := (posts st ++ enumerated convert contentFS files)%list;
     logged := (logged st ++ failures convert contentFS files)%list |}.
Proof.
  revert st; induction files as [|name files IH]; intros st; simpl.
  - rewrite !app_nil_r. now destruct st.
  - rewrite IH. unfold loadStep.
    destruct (loadEntry convert contentFS name) as [line | post]; simpl;
      now rewrite <- !app_assoc.
Qed.

(** What [loadPosts] leaves behind, in terms of the listing. *)
Lemma loadPosts_inr (sort_Slice : forall A : Type, (A -> A -> bool) -> list A -> list A)
  (loaded : Loaded) :
  loadPosts convert sort_Slice contentFS = inr loaded ->
  exists files,
    ReadDir contentFS "content" = inr files /\
    postCache loaded = sort_Slice Post byDate (enumerated convert contentFS files) /\
    logLines loaded = failures convert contentFS files /\
    printedCount loaded = List.length (postCache loaded).
Proof.
  unfold loadPosts. destruct (ReadDir contentFS "content") as [err | files]; [discriminate |].
  intros H. injection H as <-. exists files. rewrite loadSteps. simpl. auto.
Qed.

End Loop.

(** ** Parsing one document *)

Section Parsing.

Variable convert : string -> error + string.

Lemma threeSegments_dec (content : string) :
  (List.length (strings.SplitN content "---" 3) <? 3) = false <-> threeSegments content.
Proof. unfold threeSegments. rewrite Nat.ltb_ge. reflexivity. Qed.

(** The three outcomes of [parsePost]. *)
Lemma parsePost_cases (filename content : string) :
  (~ threeSegments content /\
   parsePost convert filename content = inl (ErrorParsingFile filename)) \/
  (threeSegments content /\
   exists err, convert (bodyOf content) = inl err /\
     parsePost convert filename content = inl (ErrorConvertingGoldmark err)) \/
  (threeSegments content /\
   exists html, convert (bodyOf content) = inr html /\
     parsePost convert filename content = inr (postOf filename content html)).
Proof.
  unfold parsePost, threeSegments, postOf, headerOf, metaLinesOf, bodyOf.
  destruct (List.length (strings.SplitN content "---" 3) <? 3) eqn:E.
  - left. apply Nat.ltb_lt in E. split; [lia | reflexivity].
  - right. apply Nat.ltb_ge in E.
    destruct (convert (nth 2 (strings.SplitN content "---" 3) "")) as [err | html] eqn:C.
    + left. split; [exact E |]. now exists err.
    + right. split; [exact E |]. now exists html.
Qed.

Lemma parsePost_inr (filename content : string) (post : Post) :
  parsePost convert filename content = inr post ->
  threeSegments content /\
  exists html, convert (bodyOf content) = inr html /\ post = postOf filename content html.
Proof.
  intros H.
  destruct (parsePost_cases filename content)
    as [[_ E] | [[_ (err & _ & E)] | [Hthree (html & C & E)]]];
    rewrite E in H; try discriminate.
  injection H as <-. split; [exact Hthree |]. now exists html.
Qed.

End Parsing.

(** ** The summary *)

Lemma summarize_short (bodyRaw : string) :
  String.length bodyRaw <= 150 -> summarize bodyRaw = bodyRaw.
Proof.
  intros H. unfold summarize.
  destruct (150 <? String.length bodyRaw) eqn:E; [| reflexivity].
  apply Nat.ltb_lt in E. lia.
Qed.

Lemma summarize_long (bodyRaw : string) :
  150 < String.length bodyRaw ->
  summarize bodyRaw = slice_to 150 bodyRaw ++ "...".
Proof.
  intros H. unfold summarize. apply Nat.ltb_lt in H. now rewrite H.
Qed.

Lemma Summary_postOf (filename content html : string) :
  Summary (postOf filename content html) = summarize (bodyOf content).
Proof. reflexivity. Qed.

(** C2.  A parsed document whose raw body has at most 150 bytes has that
    body as its summary, unchanged; one whose raw body is longer has the
    first 150 bytes of the raw body followed by ["..."]. *)
Theorem summary_of_parsed_document
  (convert : string -> error + string) (filename content : string) (post : Post) :
  parsePost convert filename content = inr post ->
  (String.length (bodyOf content) <= 150 -> Summary post = bodyOf content) /\
  (150 < String.length (bodyOf content) ->
   exists first150 rest,
     bodyOf content = first150 ++ rest /\
     String.length first150 = 150 /\
     Summary post = first150 ++ "...").
Proof.
  intros H. apply parsePost_inr in H as (_ & html & _ & ->).
  rewrite Summary_postOf. split.
  - apply summarize_short.
  - intros Hlong.
    exists (slice_to 150 (bodyOf content)), (slice_from 150 (bodyOf content)).
    repeat split.
    + symmetry. apply slice_split.
    + rewrite length_slice_to. lia.
    + now apply summarize_long.
Qed.

Lemma summary_of_parsed_document_witness :
  exists post,
    parsePost paragraph "post-b.md" postB = inr post /\
    150 < String.length (bodyOf postB) /\
    exists first150 rest,
      bodyOf postB = first150 ++ rest /\
      String.length first150 = 150 /\
      Summary post = first150 ++ "...".
Proof.
  eexists. split; [vm_compute; reflexivity |].
  split; [vm_compute; lia |].
  apply (summary_of_parsed_document paragraph "post-b.md" postB);
    [vm_compute; reflexivity | vm_compute; lia].
Defined.

(** C9.  The cutoff counts bytes: whenever the raw body has more than 150
    bytes the summary is its first 150 bytes and the marker, whatever
    characters those bytes encode.  The document [accented] is valid UTF-8
    and its body has 101 characters, yet it is cut, in the middle of a
    two-byte character, and its summary is not valid UTF-8. *)
Theorem summary_cutoff_counts_bytes :
  (forall (convert : string -> error + string) (filename content : string) (post : Post),
     parsePost convert filename content = inr post ->
     150 < String.length (bodyOf content) ->
     Summary post = slice_to 150 (bodyOf content) ++ "..." /\
     String.length (slice_to 150 (bodyOf content)) = 150) /\
  (utf8.ValidString accented = true /\
   utf8.RuneCountInString (bodyOf accented) = 101 /\
   String.length (bodyOf accented) = 201 /\
   forall (convert : string -> error + string) (filename : string) (post : Post),
     parsePost convert filename accented = inr post ->
     utf8.ValidString (slice_to 150 (bodyOf accented)) = false /\
     utf8.ValidString (Summary post) = false).
Proof.
  split.
  - intros convert filename content post H Hlong.
    apply parsePost_inr in H as (_ & html & _ & ->).
    rewrite Summary_postOf. split.
    + now apply summarize_long.
    + rewrite length_slice_to. lia.
  - split; [vm_compute; reflexivity |].
    split; [vm_compute; reflexivity |].
    split; [vm_compute; reflexivity |].
    intros convert filename post H.
    apply parsePost_inr in H as (_ & html & _ & ->).
    rewrite Summary_postOf. split; vm_compute; reflexivity.
Qed.

Lemma summary_cutoff_counts_bytes_witness :
  exists post,
    parsePost paragraph "accented.md" accented = inr post /\
    Summary post = slice_to 150 (bodyOf accented) ++ "..." /\
    utf8.ValidString (Summary post) = false.
Proof.
  eexists. split; [vm_compute; reflexivity |].
  split.
  - apply (proj1 summary_cutoff_counts_bytes paragraph "accented.md" accented);
      [vm_compute; reflexivity | vm_compute; lia].
  - apply (proj2 (proj2 (proj2 (proj2 summary_cutoff_counts_bytes)))
             paragraph "accented.md"); vm_compute; reflexivity.
Defined.

(** ** Structure and rendering *)

(** C3 (amended).  A document is parsed if and only if the split on
    ["---"] yields three segments and the conversion of its body succeeds.
    With fewer than three segments [parsePost] always reports
    [ErrorParsingFile] (the specification's [MalformedStructure]); with
    three segments it never does, and fails only when the conversion returns
    an error, with [ErrorConvertingGoldmark].  In particular, where the
    conversion cannot fail, parsing succeeds exactly on the three-segment
    documents.  A document that is not parsed is skipped: the loop logs one
    line and leaves the posts as they were. *)
Theorem parsed_iff_three_segments_and_rendered
  (convert : string -> error + string) (filename content : string) :
  ((exists post, parsePost convert filename content = inr post) <->
   threeSegments content /\ exists html, convert (bodyOf content) = inr html) /\
  (~ threeSegments content ->
   parsePost convert filename content = inl (ErrorParsingFile filename)) /\
  (threeSegments content ->
   forall line, parsePost convert filename content = inl line ->
     exists err, convert (bodyOf content) = inl err /\ line = ErrorConvertingGoldmark err) /\
  ((forall bodyRaw, exists html, convert bodyRaw = inr html) ->
   ((exists post, parsePost convert filename content = inr post) <-> threeSegments content)) /\
  (forall (contentFS : FS) (st : Loading) (line : LogLine),
     loadEntry convert contentFS filename = inl line ->
     posts (loadStep convert contentFS st filename) = posts st /\
     logged (loadStep convert contentFS st filename) = (logged st ++ [line])%list).
Proof.
  pose proof (parsePost_cases convert filename content) as Hcases.
  assert (Hiff : (exists post, parsePost convert filename content = inr post) <->
                 threeSegments content /\ exists html, convert (bodyOf content) = inr html).
  { split.
    - intros [post Hp]. apply parsePost_inr in Hp as (Hthree & html & C & _).
      split; [exact Hthree | now exists html].
    - intros [Hthree [html C]].
      destruct Hcases as [[Hno _] | [[_ (err & C' & _)] | [_ (html' & _ & E)]]].
      + contradiction.
      + congruence.
      + now exists (postOf filename content html'). }
  split; [exact Hiff |].
  split.
  { intros Hno.
    destruct Hcases as [[_ E] | [[Hthree _] | [Hthree _]]]; [exact E | | ]; contradiction. }
  split.
  { intros Hthree line Hl.
    destruct Hcases as [[Hno _] | [[_ (err & C & E)] | [_ (html & _ & E)]]].
    - contradiction.
    - exists err. split; [exact C | congruence].
    - congruence. }
  split.
  { intros Htotal. rewrite Hiff. split.
    - now intros [Hthree _].
    - intros Hthree. split; [exact Hthree | apply Htotal]. }
  intros contentFS st line Hl. unfold loadStep. rewrite Hl. split; reflexivity.
Qed.

Lemma parsed_iff_three_segments_and_rendered_witness :
  threeSegments postA /\
  (exists html, paragraph (bodyOf postA) = inr html) /\
  exists post, parsePost paragraph "post-a.md" postA = inr post.
Proof.
  assert (H3 : threeSegments postA) by (vm_compute; lia).
  assert (Hc : exists html, paragraph (bodyOf postA) = inr html) by (eexists; reflexivity).
  split; [exact H3 |]. split; [exact Hc |].
  apply (proj1 (parsed_iff_three_segments_and_rendered paragraph "post-a.md" postA)).
  split; assumption.
Defined.

(** C3 as stated fails: [postA] has its three segments, and is not parsed
    when the conversion of its body returns an error. *)
Lemma three_segments_not_parsed :
  threeSegments postA /\
  parsePost failing "post-a.md" postA = inl (ErrorConvertingGoldmark "render failure").
Proof. split; [vm_compute; lia | vm_compute; reflexivity]. Qed.

(** ** Header fields *)

Lemma headerValue_snoc (prefix : string) (lines : list string) (line : string) :
  headerValue prefix (lines ++ [line]) =
  if strings.HasPrefix line prefix then Some (strings.TrimPrefix line prefix)
  else headerValue prefix lines.
Proof. unfold headerValue. now rewrite fold_left_app. Qed.

Lemma Title_setDate (post : Post) (d : time.Time) : Title (setDate post d) = Title post.
Proof. reflexivity. Qed.

(** The title after the loop over the lines: the value of the last title
    line, as it stands. *)
Lemma Title_fold (lines : list string) (post : Post) :
  Title (fold_left metaLine lines post) =
  match headerValue "Title: " lines with
  | Some v => v
  | None => Title post
  end.
Proof.
  induction lines as [|line lines IH] using rev_ind; [reflexivity |].
  rewrite fold_left_app, headerValue_snoc. simpl fold_left. unfold metaLine.
  destruct (strings.HasPrefix line "Title: ");
    destruct (strings.HasPrefix line "Date: "); try reflexivity; exact IH.
Qed.

(** The date after the loop: what [time.Parse] returns for the trimmed value
    of the last date line. *)
Lemma Date_fold (lines : list string) (post : Post) :
  Date (fold_left metaLine lines post) =
  match headerValue "Date: " lines with
  | Some v => fst (time.Parse_2006_01_02 (strings.TrimSpace v))
  | None => Date post
  end.
Proof.
  induction lines as [|line lines IH] using rev_ind; [reflexivity |].
  rewrite fold_left_app, headerValue_snoc. simpl fold_left. unfold metaLine.
  destruct (strings.HasPrefix line "Title: ");
    destruct (strings.HasPrefix line "Date: "); try reflexivity; exact IH.
Qed.

(** [time.Parse] returns the zero time with every error. *)
Lemma Parse_error_zero (value : string) :
  snd (time.Parse_2006_01_02 value) <> None ->
  fst (time.Parse_2006_01_02 value) = time.zero.
Proof.
  unfold time.Parse_2006_01_02.
  repeat match goal with
         | |- context [match ?x with _ => _ end] => destruct x
         end; simpl; congruence.
Qed.

Lemma Date_postOf (filename content html : string) :
  Date (postOf filename content html) = Date (headerOf content).
Proof. reflexivity. Qed.

Lemma Title_postOf (filename content html : string) :
  Title (postOf filename content html) = Title (headerOf content).
Proof. reflexivity. Qed.

Lemma Slug_postOf (filename content html : string) :
  Slug (postOf filename content html) = slugOf filename.
Proof. reflexivity. Qed.

Lemma dateless_zero (content : string) :
  dateMissingOrUnparseable content -> Date (headerOf content) = time.zero.
Proof.
  unfold headerOf. rewrite Date_fold. intros [-> | (v & -> & Hv)]; [reflexivity |].
  apply Parse_error_zero. unfold parseable in Hv.
  destruct (snd (time.Parse_2006_01_02 (strings.TrimSpace v))); congruence.
Qed.

(** C10.  The two header fields are not treated alike.  The title is
    whatever follows ["Title: "] on the line, byte for byte; the date is what
    [time.Parse] makes of the value after [strings.TrimSpace].  So for a
    parsed document the title is the untouched value of the last title line
    and the date comes from the trimmed value of the last date line; in the
    CRLF document [crlf] the carriage return stays at the end of the title,
    while the date, which would not parse with it, parses. *)
Theorem title_verbatim_date_trimmed :
  (forall (post : Post) (v : string), Title (metaLine post ("Title: " ++ v)) = v) /\
  (forall (post : Post) (v : string),
     Date (metaLine post ("Date: " ++ v)) =
     fst (time.Parse_2006_01_02 (strings.TrimSpace v))) /\
  (forall (convert : string -> error + string) (filename content : string) (post : Post),
     parsePost convert filename content = inr post ->
     Title post = match headerValue "Title: " (metaLinesOf content) with
                  | Some v => v
                  | None => ""
                  end /\
     Date post = match headerValue "Date: " (metaLinesOf content) with
                 | Some v => fst (time.Parse_2006_01_02 (strings.TrimSpace v))
                 | None => time.zero
                 end) /\
  (forall (convert : string -> error + string) (filename : string) (post : Post),
     parsePost convert filename crlf = inr post ->
     Title post = "Hello" ++ CR /\
     Date post = time.Date 2024 1 1 /\
     time.Parse_2006_01_02 ("2024-01-01" ++ CR) = (time.zero, Some time.extraText)).
Proof.
  split.
  { intros post v. unfold metaLine.
    rewrite (HasPrefix_append "Title: " v), (TrimPrefix_append "Title: " v).
    destruct (strings.HasPrefix ("Title: " ++ v) "Date: "); reflexivity. }
  split.
  { intros post v. unfold metaLine.
    rewrite (HasPrefix_append "Date: " v), (TrimPrefix_append "Date: " v).
    destruct (strings.HasPrefix ("Date: " ++ v) "Title: "); reflexivity. }
  split.
  { intros convert filename content post H.
    apply parsePost_inr in H as (_ & html & _ & ->).
    rewrite Title_postOf, Date_postOf. unfold headerOf.
    rewrite Title_fold, Date_fold. split; reflexivity. }
  intros convert filename post H.
  apply parsePost_inr in H as (_ & html & _ & ->).
  rewrite Title_postOf, Date_postOf.
  repeat split; vm_compute; reflexivity.
Qed.

Lemma title_verbatim_date_trimmed_witness :
  exists post,
    parsePost paragraph "crlf.md" crlf = inr post /\
    Title post = "Hello" ++ CR /\
    Date post = time.Date 2024 1 1 /\
    time.Parse_2006_01_02 ("2024-01-01" ++ CR) = (time.zero, Some time.extraText).
Proof.
  eexists. split; [vm_compute; reflexivity |].
  apply (proj2 (proj2 (proj2 title_verbatim_date_trimmed)) paragraph "crlf.md").
  vm_compute; reflexivity.
Defined.

(** ** Lookup *)

Lemma findBySlug_cons (p : Post) (cache : list Post) (id : string) :
  findBySlug (p :: cache) id =
  if String.eqb (Slug p) id then Some p else findBySlug cache id.
Proof.
  unfold findBySlug. simpl. destruct (String.eqb (Slug p) id); reflexivity.
Qed.

Lemma findBySlug_absent (cache : list Post) (id : string) :
  (forall p, In p cache -> Slug p <> id) -> findBySlug cache id = None.
Proof.
  induction cache as [|p cache IH]; intros H; [reflexivity |].
  rewrite findBySlug_cons.
  destruct (String.eqb (Slug p) id) eqn:E.
  - apply String.eqb_eq in E. exfalso. apply (H p); [now left | exact E].
  - apply IH. intros q Hq. apply H. now right.
Qed.

(** What the scan finds is the first post of the cache with that slug. *)
Lemma findBySlug_Some (cache : list Post) (id : string) (r : Post) :
  findBySlug cache id = Some r ->
  exists before after,
    cache = (before ++ r :: after)%list /\ Slug r = id /\
    forall p, In p before -> Slug p <> id.
Proof.
  induction cache as [|p cache IH]; [discriminate |].
  rewrite findBySlug_cons.
  destruct (String.eqb (Slug p) id) eqn:E.
  - intros H. injection H as <-. apply String.eqb_eq in E.
    exists [], cache. repeat split; [exact E | intros q []].
  - intros H. destruct (IH H) as (before & after & -> & Hs & Hb).
    exists (p :: before), after. repeat split; [exact Hs |].
    intros q [<- | Hq]; [now apply String.eqb_neq | now apply Hb].
Qed.

Lemma findBySlug_present (cache : list Post) (p : Post) :
  In p cache -> exists r, findBySlug cache (Slug p) = Some r.
Proof.
  induction cache as [|q cache IH]; intros H; [destruct H |].
  rewrite findBySlug_cons.
  destruct (String.eqb (Slug q) (Slug p)) eqn:E; [now exists q |].
  destruct H as [-> | H]; [| now apply IH].
  now rewrite String.eqb_refl in E.
Qed.

Lemma postHandler_findBySlug (parsed : option error) (cache : list Post) (id : string) :
  postHandler parsed cache ("/post/" ++ id) =
  match findBySlug cache id, parsed with
  | Some foundPost, None =>
    PostPage {| PostData.Title := Title foundPost; PostData.Post := foundPost |}
  | Some _, Some err => Panics err
  | None, _ => NotFound
  end.
Proof.
  unfold postHandler, findBySlug. rewrite (TrimPrefix_append "/post/" id).
  destruct (scanPosts id cache) as [foundPost found]. now destruct found.
Qed.

(** C5.  For an identifier that is the slug of no document of the cache,
    the lookup ends with [found] false: [findBySlug] gives no document and
    the handler of [/post/<id>] answers not-found, never a page for a zero
    [Post]. *)
Theorem findBySlug_absent_not_found (cache : list Post) (id : string) :
  (forall doc, In doc cache -> Slug doc <> id) ->
  findBySlug cache id = None /\
  scanPosts id cache = (zeroPost, false) /\
  forall parsed, postHandler parsed cache ("/post/" ++ id) = NotFound.
Proof.
  intros H. pose proof (findBySlug_absent cache id H) as Hnone.
  split; [exact Hnone |]. split.
  - clear Hnone. induction cache as [|p cache IH]; [reflexivity |].
    simpl. destruct (String.eqb (Slug p) id) eqn:E.
    + apply String.eqb_eq in E. exfalso. apply (H p); [now left | exact E].
    + apply IH. intros q Hq. apply H. now right.
  - intros parsed. now rewrite postHandler_findBySlug, Hnone.
Qed.

Lemma findBySlug_absent_not_found_witness :
  exists loaded,
    loadPosts paragraph sort.Slice scenarioA = inr loaded /\
    findBySlug (postCache loaded) "post-c" = None /\
    scanPosts "post-c" (postCache loaded) = (zeroPost, false) /\
    forall parsed, postHandler parsed (postCache loaded) "/post/post-c" = NotFound.
Proof.
  eexists. split; [vm_compute; reflexivity |].
  apply (findBySlug_absent_not_found _ "post-c").
  intros doc Hdoc. cbn in Hdoc.
  destruct Hdoc as [<- | [<- | [<- | []]]]; cbn; discriminate.
Defined.

(** ** Slugs of an embedded listing *)

Section Slugs.

Variable convert : string -> error + string.
Variable contentFS : FS.

Lemma loadEntry_slug (name : string) (post : Post) :
  loadEntry convert contentFS name = inr post -> Slug post = slugOf name.
Proof.
  unfold loadEntry. destruct (ReadFile contentFS ("content/" ++ name)); [discriminate |].
  intros H. apply parsePost_inr in H as (_ & html & _ & ->). reflexivity.
Qed.

Lemma enumerated_In (files : list string) (post : Post) :
  In post (enumerated convert contentFS files) <->
  exists name, In name files /\ loadEntry convert contentFS name = inr post.
Proof.
  unfold enumerated. rewrite in_flat_map. split.
  - intros (name & Hname & Hin). exists name. split; [exact Hname |].
    destruct (loadEntry convert contentFS name) as [line | q]; [destruct Hin |].
    destruct Hin as [<- | []]. reflexivity.
  - intros (name & Hname & E). exists name. split; [exact Hname |].
    rewrite E. now left.
Qed.

Lemma enumerated_slugs (files : list string) :
  NoDup (map slugOf files) -> NoDup (map Slug (enumerated convert contentFS files)).
Proof.
  induction files as [|name files IH]; simpl; intros Hnd; [constructor |].
  inversion Hnd as [|? ? Hnot Hnd']; subst.
  destruct (loadEntry convert contentFS name) as [line | post] eqn:E; simpl.
  - apply IH, Hnd'.
  - constructor; [| apply IH, Hnd'].
    intros Hin. apply Hnot. apply in_map_iff in Hin as (q & Hq & Hin).
    apply enumerated_In in Hin as (name' & Hname' & E').
    apply loadEntry_slug in E, E'. apply in_map_iff. exists name'.
    split; [congruence | exact Hname'].
Qed.

End Slugs.

(** Names that match [*.md] and differ have different slugs. *)
Lemma md_slugs_distinct (files : list string) :
  NoDup files ->
  Forall (fun name => exists stem, name = stem ++ ".md") files ->
  NoDup (map slugOf files).
Proof.
  induction files as [|name files IH]; simpl; intros Hnd Hmd; [constructor |].
  inversion Hnd as [|? ? Hnot Hnd']; subst.
  inversion Hmd as [|? ? [stem ->] Hmd']; subst.
  constructor; [| now apply IH].
  intros Hin. apply Hnot. apply in_map_iff in Hin as (name' & E & Hin).
  rewrite Forall_forall in Hmd'. destruct (Hmd' name' Hin) as [stem' ->].
  rewrite !slugOf_md in E. now subst.
Qed.

Lemma findBySlug_unique (cache : list Post) (doc : Post) :
  NoDup (map Slug cache) -> In doc cache -> findBySlug cache (Slug doc) = Some doc.
Proof.
  induction cache as [|p cache IH]; simpl; intros Hnd Hin; [destruct Hin |].
  inversion Hnd as [|? ? Hnot Hnd']; subst.
  rewrite findBySlug_cons.
  destruct Hin as [-> | Hin].
  - now rewrite String.eqb_refl.
  - destruct (String.eqb (Slug p) (Slug doc)) eqn:E; [| now apply IH].
    apply String.eqb_eq in E. exfalso. apply Hnot. rewrite E. now apply in_map.
Qed.

(** C4.  In the index built from the embedded [content/*.md] files, looking
    up the slug of any listed document returns that very document, and it is
    the document the handler of [/post/<slug>] renders. *)
Theorem findBySlug_round_trip
  (convert : string -> error + string)
  (sort_Slice : forall A : Type, (A -> A -> bool) -> list A -> list A)
  (contentFS : FS) (loaded : Loaded) :
  sort.Sorts sort_Slice ->
  embedsContent contentFS ->
  loadPosts convert sort_Slice contentFS = inr loaded ->
  forall doc, In doc (postCache loaded) ->
    findBySlug (postCache loaded) (Slug doc) = Some doc /\
    postHandler None (postCache loaded) ("/post/" ++ Slug doc) =
      PostPage {| PostData.Title := Title doc; PostData.Post := doc |}.
Proof.
  intros Hsort (files & Hdir & Hnd & Hmd) Hload doc Hdoc.
  apply loadPosts_inr in Hload as (files' & Hdir' & Hcache & _).
  rewrite Hdir in Hdir'. injection Hdir' as <-.
  destruct (Hsort Post byDate byDate_swo (enumerated convert contentFS files)) as [Hperm _].
  rewrite <- Hcache in Hperm.
  assert (Hslugs : NoDup (map Slug (postCache loaded))).
  { apply (Permutation_NoDup (Permutation_map Slug Hperm)).
    apply enumerated_slugs. now apply md_slugs_distinct. }
  assert (Hfind : findBySlug (postCache loaded) (Slug doc) = Some doc)
    by now apply findBySlug_unique.
  split; [exact Hfind |]. now rewrite postHandler_findBySlug, Hfind.
Qed.

Lemma embedsContent_scenarioA : embedsContent scenarioA.
Proof.
  exists ["post-a.md"; "post-b.md"; "undated.md"].
  split; [reflexivity |]. split.
  - repeat constructor; cbn; intuition discriminate.
  - repeat constructor;
      [now exists "post-a" | now exists "post-b" | now exists "undated"].
Qed.

Lemma findBySlug_round_trip_witness :
  exists loaded doc,
    sort.Sorts sort.Slice /\
    embedsContent scenarioA /\
    loadPosts paragraph sort.Slice scenarioA = inr loaded /\
    In doc (postCache loaded) /\
    Slug doc = "post-a" /\
    findBySlug (postCache loaded) (Slug doc) = Some doc /\
    postHandler None (postCache loaded) ("/post/" ++ Slug doc) =
      PostPage {| PostData.Title := Title doc; PostData.Post := doc |}.
Proof.
  eexists. eexists.
  split; [exact Slice_Sorts |].
  split; [exact embedsContent_scenarioA |].
  split; [vm_compute; reflexivity |].
  split; [right; left; reflexivity |].
  split; [reflexivity |].
  apply (findBySlug_round_trip paragraph sort.Slice scenarioA _
           Slice_Sorts embedsContent_scenarioA).
  - vm_compute; reflexivity.
  - right. left. reflexivity.
Defined.

(** ** Order of the cache *)

Lemma StronglySorted_nth {A : Type} (R : A -> A -> Prop) (l : list A) :
  StronglySorted R l ->
  forall i j a b, i < j -> nth_error l i = Some a -> nth_error l j = Some b -> R a b.
Proof.
  induction 1 as [|x l Hs IH Hx]; intros i j a b Hij Ha Hb.
  - destruct i; discriminate.
  - destruct j as [|j]; [lia |]. simpl in Hb.
    destruct i as [|i]; simpl in Ha.
    + injection Ha as <-. rewrite Forall_forall in Hx.
      apply Hx. eapply nth_error_In, Hb.
    + apply (IH i j); [lia | assumption | assumption].
Qed.

(** In a cache ordered by date a document with a later date comes first. *)
Lemma ordered_precedes (l : list Post) (p q : Post) :
  sort.ordered byDate l -> (Date p < Date q)%Z -> precedes q p l.
Proof.
  intros Hs Hlt i j Hp Hq.
  destruct (Nat.lt_trichotomy j i) as [Hji | [-> | Hij]]; [exact Hji | |].
  - rewrite Hp in Hq. injection Hq as ->. lia.
  - pose proof (StronglySorted_nth _ l Hs i j p q Hij Hp Hq) as H.
    unfold byDate, time.After in H. apply Z.ltb_ge in H. lia.
Qed.

Section Built.

Variable convert : string -> error + string.
Variable sort_Slice : forall A : Type, (A -> A -> bool) -> list A -> list A.
Hypothesis sort_Slice_Sorts : sort.Sorts sort_Slice.
Variable contentFS : FS.

(** Whenever the listing succeeds the cache is built: a rearrangement, in
    the order of the dates, of the posts of the entries that load, with one
    log line for each entry that does not. *)
Lemma loadPosts_built (files : list string) :
  ReadDir contentFS "content" = inr files ->
  exists loaded,
    loadPosts convert sort_Slice contentFS = inr loaded /\
    Permutation (enumerated convert contentFS files) (postCache loaded) /\
    sort.ordered byDate (postCache loaded) /\
    logLines loaded = failures convert contentFS files.
Proof.
  intros Hdir. unfold loadPosts. rewrite Hdir, loadSteps. simpl.
  eexists. split; [reflexivity |]. simpl.
  destruct (sort_Slice_Sorts Post byDate byDate_swo (enumerated convert contentFS files)).
  repeat split; assumption.
Qed.

Lemma loadPosts_sorted (loaded : Loaded) :
  loadPosts convert sort_Slice contentFS = inr loaded ->
  exists files,
    ReadDir contentFS "content" = inr files /\
    Permutation (enumerated convert contentFS files) (postCache loaded) /\
    sort.ordered byDate (postCache loaded) /\
    logLines loaded = failures convert contentFS files.
Proof.
  intros Hload.
  destruct (loadPosts_inr _ _ _ _ Hload) as (files & Hdir & _).
  exists files. split; [exact Hdir |].
  destruct (loadPosts_built files Hdir) as (loaded' & Hload' & H).
  rewrite Hload in Hload'. injection Hload' as <-. exact H.
Qed.

End Built.

(** C7 (amended).  A document with three segments whose body converts and
    whose date header is missing or does not parse is parsed, with the zero
    time as its date.  Every document that loads is in the cache, and in the
    cache each document with a date after the zero time comes before each
    document with the zero time. *)
Theorem undated_document_parsed_with_zero_date
  (convert : string -> error + string)
  (sort_Slice : forall A : Type, (A -> A -> bool) -> list A -> list A) :
  sort.Sorts sort_Slice ->
  (forall filename content html,
     threeSegments content ->
     dateMissingOrUnparseable content ->
     convert (bodyOf content) = inr html ->
     exists post,
       parsePost convert filename content = inr post /\ Date post = time.zero) /\
  (forall contentFS loaded files,
     loadPosts convert sort_Slice contentFS = inr loaded ->
     ReadDir contentFS "content" = inr files ->
     (forall name post,
        In name files -> loadEntry convert contentFS name = inr post ->
        In post (postCache loaded)) /\
     (forall p q,
        Date p = time.zero -> (time.zero < Date q)%Z ->
        precedes q p (postCache loaded))).
Proof.
  intros Hsort. split.
  - intros filename content html Hthree Hdate Hconv.
    exists (postOf filename content html). split.
    + destruct (parsePost_cases convert filename content)
        as [[Hno _] | [[_ (err & C & _)] | [_ (html' & C & E)]]].
      * contradiction.
      * congruence.
      * rewrite E. congruence.
    + rewrite Date_postOf. now apply dateless_zero.
  - intros contentFS loaded files Hload Hdir.
    destruct (loadPosts_sorted convert sort_Slice Hsort contentFS loaded Hload)
      as (files' & Hdir' & Hperm & Hord & _).
    rewrite Hdir in Hdir'. injection Hdir' as <-. split.
    + intros name post Hname E. apply (Permutation_in _ Hperm).
      apply enumerated_In. now exists name.
    + intros p q Hp Hq. apply ordered_precedes; [exact Hord | lia].
Qed.

Lemma undated_dateless : dateMissingOrUnparseable undated.
Proof. right. exists "not-a-date". split; vm_compute; reflexivity. Qed.

Lemma undated_document_parsed_with_zero_date_witness :
  sort.Sorts sort.Slice /\
  threeSegments undated /\
  dateMissingOrUnparseable undated /\
  (exists html, paragraph (bodyOf undated) = inr html) /\
  (exists post,
     parsePost paragraph "undated.md" undated = inr post /\ Date post = time.zero) /\
  exists loaded,
    loadPosts paragraph sort.Slice scenarioA = inr loaded /\
    map Slug (postCache loaded) = ["post-b"; "post-a"; "undated"] /\
    forall p q,
      Date p = time.zero -> (time.zero < Date q)%Z -> precedes q p (postCache loaded).
Proof.
  assert (H3 : threeSegments undated) by (vm_compute; lia).
  pose proof (undated_document_parsed_with_zero_date paragraph sort.Slice
                Slice_Sorts) as [Hparse Hcache].
  split; [exact Slice_Sorts |].
  split; [exact H3 |].
  split; [exact undated_dateless |].
  split; [eexists; reflexivity |].
  split; [exact (Hparse "undated.md" undated _ H3 undated_dateless eq_refl) |].
  eexists. split; [vm_compute; reflexivity |].
  split; [vm_compute; reflexivity |].
  eapply (Hcache scenarioA); vm_compute; reflexivity.
Defined.

(** C7 as stated fails: [undated] has its three segments and a date that
    does not parse, and is not parsed when the conversion of its body
    returns an error. *)
Lemma undated_not_parsed :
  threeSegments undated /\
  dateMissingOrUnparseable undated /\
  parsePost failing "undated.md" undated = inl (ErrorConvertingGoldmark "render failure").
Proof.
  split; [vm_compute; lia |].
  split; [exact undated_dateless | vm_compute; reflexivity].
Qed.

(** ** The slug *)

(** C6 (amended).  The slug is a function of the source name alone, and
    it is the name without its extension: putting the extension back gives
    the name, so the characters that remain and their case are those of the
    name.  Deriving again from a slug leaves it unchanged exactly when the
    slug has no extension of its own, which is so for [stem.md] whenever
    [stem] has no dot in its last element. *)
Theorem slug_is_name_without_extension (filename : string) :
  (forall other, other = filename -> slugOf other = slugOf filename) /\
  slugOf filename ++ filepath.Ext filename = filename /\
  (slugOf (slugOf filename) = slugOf filename <-> filepath.Ext (slugOf filename) = "") /\
  (forall stem, filename = stem ++ ".md" -> filepath.Ext stem = "" ->
     slugOf filename = stem /\ slugOf (slugOf filename) = slugOf filename).
Proof.
  split; [now intros other -> |].
  split; [apply slugOf_Ext |].
  split; [apply slugOf_fixed |].
  intros stem -> Hstem. rewrite slugOf_md. split; [reflexivity |].
  now apply slugOf_fixed.
Qed.

Lemma slug_is_name_without_extension_witness :
  slugOf "post-a.md" = "post-a" /\ slugOf (slugOf "post-a.md") = slugOf "post-a.md".
Proof.
  apply (proj2 (proj2 (proj2 (slug_is_name_without_extension "post-a.md"))) "post-a");
    reflexivity.
Defined.

(** C6 as stated fails: the derivation is not idempotent.  The slug of
    [v1.0-release.md] is [v1.0-release], and deriving from that gives [v1]. *)
Lemma slug_not_idempotent :
  slugOf "v1.0-release.md" = "v1.0-release" /\
  slugOf (slugOf "v1.0-release.md") = "v1" /\
  slugOf (slugOf "v1.0-release.md") <> slugOf "v1.0-release.md".
Proof.
  split; [vm_compute; reflexivity |].
  split; [vm_compute; reflexivity |].
  vm_compute. discriminate.
Qed.

(** ** Documents with the same slug *)






(** ** The order of the index *)

(** C1 (amended).  After [loadPosts] the cache is sorted by date,
    descending: each document is dated no earlier than the next, and so no
    earlier than any later one; and the cache holds exactly the documents
    that loaded, each as often as the listing yields it.  Nothing is
    promised about the relative order of documents with equal dates:
    [sort.Slice] is not a stable sort. *)
Theorem cache_sorted_by_date_descending
  (convert : string -> error + string)
  (sort_Slice : forall A : Type, (A -> A -> bool) -> list A -> list A)
  (contentFS : FS) (loaded : Loaded) :
  sort.Sorts sort_Slice ->
  loadPosts convert sort_Slice contentFS = inr loaded ->
  descending (postCache loaded) /\
  (forall i j p q,
     i < j ->
     nth_error (postCache loaded) i = Some p ->
     nth_error (postCache loaded) j = Some q ->
     (Date q <= Date p)%Z) /\
  exists files,
    ReadDir contentFS "content" = inr files /\
    Permutation (enumerated convert contentFS files) (postCache loaded).
Proof.
  intros Hsort Hload.
  destruct (loadPosts_sorted convert sort_Slice Hsort contentFS loaded Hload)
    as (files & Hdir & Hperm & Hord & _).
  split; [now apply ordered_descending |]. split.
  - intros i j p q Hij Hp Hq.
    pose proof (StronglySorted_nth _ _ Hord i j p q Hij Hp Hq) as H.
    unfold byDate, time.After in H. now apply Z.ltb_ge in H.
  - now exists files.
Qed.

Lemma cache_sorted_by_date_descending_witness :
  exists loaded,
    sort.Sorts sort.Slice /\
    loadPosts paragraph sort.Slice scenarioA = inr loaded /\
    map Slug (postCache loaded) = ["post-b"; "post-a"; "undated"] /\
    descending (postCache loaded) /\
    (forall i j p q,
       i < j ->
       nth_error (postCache loaded) i = Some p ->
       nth_error (postCache loaded) j = Some q ->
       (Date q <= Date p)%Z) /\
    exists files,
      ReadDir scenarioA "content" = inr files /\
      Permutation (enumerated paragraph scenarioA files) (postCache loaded).
Proof.
  eexists.
  split; [exact Slice_Sorts |].
  split; [vm_compute; reflexivity |].
  split; [vm_compute; reflexivity |].
  apply (cache_sorted_by_date_descending paragraph sort.Slice scenarioA _
           Slice_Sorts).
  vm_compute; reflexivity.
Defined.

(** C1 as stated fails: the sort is not stable.  The fifty posts of
    [chronicle] are listed oldest first; [sort.Slice] finds the slice in
    descending order of [less], reverses it and is done, so the cache is the
    listing read backwards: sorted by date, and with the two posts of
    January 1, 2001 in the order opposite to their enumeration.  The
    contract of [sort.Slice], which it meets, allows it. *)
Lemma cache_not_stable :
  exists files loaded,
    ReadDir chronicle "content" = inr files /\
    loadPosts paragraph sort.Slice chronicle = inr loaded /\
    postCache loaded = rev (enumerated paragraph chronicle files) /\
    descending (postCache loaded) /\
    map Slug (publishedAt (time.Date 2001 1 1) (enumerated paragraph chronicle files))
      = ["01"; "02"] /\
    map Slug (publishedAt (time.Date 2001 1 1) (postCache loaded)) = ["02"; "01"] /\
    ~ stable (enumerated paragraph chronicle files) (postCache loaded) /\
    sort.Sorts sort.Slice.
Proof.
  eexists. eexists.
  split; [vm_compute; reflexivity |].
  assert (Hload : loadPosts paragraph sort.Slice chronicle = inr _)
    by (vm_compute; reflexivity).
  split; [exact Hload |].
  split; [vm_compute; reflexivity |].
  split.
  { destruct (loadPosts_sorted paragraph sort.Slice Slice_Sorts
                chronicle _ Hload) as (_ & _ & _ & Hord & _).
    now apply ordered_descending. }
  split; [vm_compute; reflexivity |].
  split; [vm_compute; reflexivity |].
  split.
  { intros H. specialize (H (time.Date 2001 1 1)).
    apply (f_equal (map Slug)) in H. vm_compute in H. discriminate. }
  exact Slice_Sorts.
Qed.

(** ** Further properties of the loader and the handlers *)

Lemma Index_unfold (s substr : string) :
  strings.Index s substr =
  if strings.HasPrefix s substr then Some 0
  else match s with
       | EmptyString => None
       | String _ s' => option_map S (strings.Index s' substr)
       end.
Proof. destruct s; reflexivity. Qed.

Lemma Index_found (a sep b : string) : strings.Index (a ++ sep ++ b) sep <> None.
Proof.
  induction a as [|c a IH]; rewrite Index_unfold.
  - cbn [String.append]. rewrite (HasPrefix_append sep b). discriminate.
  - destruct (strings.HasPrefix (String c a ++ sep ++ b) sep); [discriminate |].
    cbn [String.append].
    destruct (strings.Index (a ++ sep ++ b) sep); [discriminate | contradiction].
Qed.

(** X1.  A source made of the delimiter, a metadata block and a second
    delimiter, with nothing after it, has its three segments; so it is
    parsed whenever the conversion of its (empty or leftover) body
    succeeds, and it is never reported as malformed. *)
Theorem two_delimiters_three_segments
  (convert : string -> error + string) (filename metaRaw : string) :
  threeSegments ("---" ++ metaRaw ++ "---") /\
  parsePost convert filename ("---" ++ metaRaw ++ "---") <> inl (ErrorParsingFile filename).
Proof.
  assert (H3 : threeSegments ("---" ++ metaRaw ++ "---")).
  { unfold threeSegments, strings.SplitN, strings.genSplit.
    cbn [Z.eqb String.length Nat.eqb].
    set (s := "---" ++ metaRaw ++ "---").
    assert (Hlen : String.length s = 6 + String.length metaRaw).
    { unfold s. rewrite !length_append. simpl. lia. }
    destruct (Z.ltb_spec 3 0) as [Hneg | _]; [lia |].
    destruct (Z.ltb_spec (Z.of_nat (String.length s) + 1) 3) as [Hshort | _]; [lia |].
    change (Z.to_nat (3 - 1)) with 2.
    cbn [strings.genSplit_loop].
    assert (H0 : strings.Index s "---" = Some 0).
    { unfold s. destruct metaRaw; reflexivity. }
    rewrite H0.
    assert (Hrest : slice_from (0 + String.length "---") s = metaRaw ++ "---")
      by (unfold s; reflexivity).
    rewrite Hrest.
    pose proof (Index_found metaRaw "---" "") as Hfound.
    rewrite append_empty_r in Hfound.
    destruct (strings.Index (metaRaw ++ "---") "---"); [| contradiction].
    simpl. lia. }
  split; [exact H3 |].
  destruct (parsePost_cases convert filename ("---" ++ metaRaw ++ "---"))
    as [[Hno _] | [[_ (err & _ & E)] | [_ (html & _ & E)]]].
  - contradiction.
  - rewrite E. discriminate.
  - rewrite E. discriminate.
Qed.



Lemma enumerated_failures_length
  (convert : string -> error + string) (contentFS : FS) (files : list string) :
  List.length (enumerated convert contentFS files) +
  List.length (failures convert contentFS files) = List.length files.
Proof.
  induction files as [|name files IH]; [reflexivity |].
  unfold enumerated, failures in *. simpl.
  destruct (loadEntry convert contentFS name); simpl; rewrite ?length_app; simpl; lia.
Qed.

(** X3.  Loading stops the program exactly when the listing of [content]
    fails.  Otherwise every entry of the listing gives either one post of
    the cache or one logged line, and the count printed is the size of the
    cache. *)
Theorem loadPosts_accounts_for_every_entry
  (convert : string -> error + string)
  (sort_Slice : forall A : Type, (A -> A -> bool) -> list A -> list A)
  (contentFS : FS) :
  sort.Sorts sort_Slice ->
  (forall err, ReadDir contentFS "content" = inl err ->
     loadPosts convert sort_Slice contentFS = inl err) /\
  (forall files, ReadDir contentFS "content" = inr files ->
     exists loaded,
       loadPosts convert sort_Slice contentFS = inr loaded /\
       List.length (postCache loaded) + List.length (logLines loaded) = List.length files /\
       printedCount loaded = List.length (postCache loaded)).
Proof.
  intros Hsort. split.
  - intros err Hdir. unfold loadPosts. now rewrite Hdir.
  - intros files Hdir.
    destruct (loadPosts_built convert sort_Slice Hsort contentFS files Hdir)
      as (loaded & Hload & Hperm & _ & Hlog).
    exists loaded. split; [exact Hload |]. split.
    + rewrite <- (Permutation_length Hperm), Hlog.
      apply enumerated_failures_length.
    + now destruct (loadPosts_inr _ _ _ _ Hload) as (_ & _ & _ & _ & H).
Qed.

Lemma loadPosts_accounts_for_every_entry_witness :
  exists loaded,
    loadPosts paragraph sort.Slice scenarioA = inr loaded /\
    List.length (postCache loaded) + List.length (logLines loaded) = 3 /\
    printedCount loaded = List.length (postCache loaded).
Proof.
  exact (proj2 (loadPosts_accounts_for_every_entry paragraph sort.Slice scenarioA
                  Slice_Sorts)
               ["post-a.md"; "post-b.md"; "undated.md"] eq_refl).
Defined.

(** X4.  With the sort of the Go releases, [pdqsort_func], nothing is left
    to assume of [sort.Slice]: whenever loading returns, the cache is in
    descending order of date and is a rearrangement of the posts that
    loaded. *)
Theorem cache_sorted_by_pdqsort
  (convert : string -> error + string) (contentFS : FS) (loaded : Loaded) :
  loadPosts convert sort.Slice contentFS = inr loaded ->
  descending (postCache loaded) /\
  exists files,
    ReadDir contentFS "content" = inr files /\
    Permutation (enumerated convert contentFS files) (postCache loaded).
Proof.
  intros Hload.
  destruct (loadPosts_sorted convert sort.Slice Slice_Sorts contentFS loaded Hload)
    as (files & Hdir & Hperm & Hord & _).
  split; [now apply ordered_descending | now exists files].
Qed.

Lemma cache_sorted_by_pdqsort_witness :
  exists loaded,
    loadPosts paragraph sort.Slice chronicle = inr loaded /\
    List.length (postCache loaded) = 50 /\
    descending (postCache loaded) /\
    exists files,
      ReadDir chronicle "content" = inr files /\
      Permutation (enumerated paragraph chronicle files) (postCache loaded).
Proof.
  eexists.
  split; [vm_compute; reflexivity |].
  split; [vm_compute; reflexivity |].
  apply (cache_sorted_by_pdqsort paragraph chronicle).
  vm_compute; reflexivity.
Defined.

(** ** The answers of the [/post/] handler *)

(** The handler in terms of the lookup, for any path. *)
Lemma postHandler_lookup (parsed : option error) (cache : list Post) (path : string) :
  postHandler parsed cache path =
  match findBySlug cache (strings.TrimPrefix path "/post/"), parsed with
  | Some foundPost, None =>
    PostPage {| PostData.Title := Title foundPost; PostData.Post := foundPost |}
  | Some _, Some err => Panics err
  | None, _ => NotFound
  end.
Proof.
  unfold postHandler, findBySlug.
  destruct (scanPosts (strings.TrimPrefix path "/post/") cache) as [foundPost found].
  now destruct found.
Qed.

Lemma findBySlug_None (cache : list Post) (id : string) :
  findBySlug cache id = None <-> forall p, In p cache -> Slug p <> id.
Proof.
  split; [| apply findBySlug_absent].
  intros Hnone p Hp <-.
  destruct (findBySlug_present cache p Hp) as [r Hr]. congruence.
Qed.

Lemma findBySlug_In (cache : list Post) (id : string) (r : Post) :
  findBySlug cache id = Some r -> In r cache /\ Slug r = id.
Proof.
  intros H. apply findBySlug_Some in H as (before & after & -> & Hs & _).
  split; [apply in_elt | exact Hs].
Qed.

(** X5.  The handler of [/post/] looks up what is left of the path once a
    leading ["/post/"] is cut.  It answers not-found exactly when no post of
    the cache has that slug, and it decides so before it touches the
    templates; a page it serves is that of a post of the cache with that
    slug, under the post's title; if the templates do not parse it panics
    ([template.Must]), and only for a slug that is found: it never answers
    with an error status as the handler of [/] does. *)
Theorem postHandler_answers (parsed : option error) (cache : list Post) (path : string) :
  (postHandler parsed cache path = NotFound <->
   forall p, In p cache -> Slug p <> strings.TrimPrefix path "/post/") /\
  (forall data, postHandler parsed cache path = PostPage data ->
     parsed = None /\
     In (PostData.Post data) cache /\
     Slug (PostData.Post data) = strings.TrimPrefix path "/post/" /\
     PostData.Title data = Title (PostData.Post data)) /\
  (forall err, postHandler parsed cache path = Panics err <->
     parsed = Some err /\
     exists p, In p cache /\ Slug p = strings.TrimPrefix path "/post/") /\
  (forall err, postHandler parsed cache path <> TemplateError err) /\
  (forall data, postHandler parsed cache path <> IndexPage data).
Proof.
  rewrite postHandler_lookup.
  destruct (findBySlug cache (strings.TrimPrefix path "/post/")) as [r |] eqn:E.
  - destruct (findBySlug_In _ _ _ E) as [Hin Hslug].
    split; [| split; [| split; [| split]]].
    + split.
      * destruct parsed; discriminate.
      * intros H. exfalso. now apply (H r Hin).
    + intros data H. destruct parsed as [err |]; [discriminate |].
      injection H as <-. simpl. auto.
    + intros err. split.
      * intros H. destruct parsed as [err' |]; [| discriminate].
        injection H as ->. split; [reflexivity | now exists r].
      * intros [-> _]. reflexivity.
    + intros err. destruct parsed; discriminate.
    + intros data. destruct parsed; discriminate.
  - pose proof (proj1 (findBySlug_None _ _) E) as Hnone.
    split; [| split; [| split; [| split]]]; try discriminate.
    + split; [intros _; exact Hnone | reflexivity].
    + intros err. split; [discriminate |].
      intros [_ (p & Hp & Hs)]. exfalso. now apply (Hnone p Hp).
Qed.

(** ** The lines logged while loading *)

Lemma failures_In (convert : string -> error + string) (contentFS : FS)
  (files : list string) (line : LogLine) :
  In line (failures convert contentFS files) <->
  exists name, In name files /\ loadEntry convert contentFS name = inl line.
Proof.
  unfold failures. rewrite in_flat_map. split.
  - intros (name & Hname & Hin). exists name. split; [exact Hname |].
    destruct (loadEntry convert contentFS name) as [l | q]; [| destruct Hin].
    destruct Hin as [<- | []]. reflexivity.
  - intros (name & Hname & E). exists name. split; [exact Hname |].
    rewrite E. now left.
Qed.

(** The failures of one entry. *)
Lemma loadEntry_inl (convert : string -> error + string) (contentFS : FS)
  (name : string) (line : LogLine) :
  loadEntry convert contentFS name = inl line <->
  (exists err, ReadFile contentFS ("content/" ++ name) = inl err /\
               line = ErrorReadingFile err) \/
  (exists content, ReadFile contentFS ("content/" ++ name) = inr content /\
                   ~ threeSegments content /\ line = ErrorParsingFile name) \/
  (exists content err, ReadFile contentFS ("content/" ++ name) = inr content /\
                       threeSegments content /\
                       convert (bodyOf content) = inl err /\
                       line = ErrorConvertingGoldmark err).
Proof.
  unfold loadEntry.
  destruct (ReadFile contentFS ("content/" ++ name)) as [err | content].
  - split.
    + intros H. injection H as <-. left. now exists err.
    + intros [(err' & E & ->) | [(c & E & _) | (c & e & E & _)]]; congruence.
  - destruct (parsePost_cases convert name content)
      as [[Hno E] | [[Hthree (err & C & E)] | [Hthree (html & C & E)]]]; rewrite E.
    + split.
      * intros H. injection H as <-. right. left. now exists content.
      * intros [(err' & E' & _) | [(c & E' & _ & ->) | (c & e & E' & Hc & _)]];
          [discriminate | reflexivity |].
        injection E' as <-. contradiction.
    + split.
      * intros H. injection H as <-. right. right. now exists content, err.
      * intros [(err' & E' & _) | [(c & E' & Hc & _) | (c & e & E' & _ & C' & ->)]].
        -- discriminate.
        -- injection E' as <-. contradiction.
        -- injection E' as <-. congruence.
    + split; [discriminate |].
      intros [(err' & E' & _) | [(c & E' & Hc & _) | (c & e & E' & _ & C' & _)]].
      * discriminate.
      * injection E' as <-. contradiction.
      * injection E' as <-. congruence.
Qed.

(** X6.  What the loader logs tells what failed, whatever the sort does:
    ["Error reading file"] with an error is logged exactly when reading a
    listed file fails with it, ["Error parsing file"] with a name exactly
    when that listed file is read and has fewer than three segments, and
    ["Error converting goldmark"] with an error exactly when the body of a
    listed three-segment file is refused with it. *)
Theorem logged_lines_name_the_failures
  (convert : string -> error + string)
  (sort_Slice : forall A : Type, (A -> A -> bool) -> list A -> list A)
  (contentFS : FS) (loaded : Loaded) (files : list string) :
  loadPosts convert sort_Slice contentFS = inr loaded ->
  ReadDir contentFS "content" = inr files ->
  (forall err, In (ErrorReadingFile err) (logLines loaded) <->
     exists name, In name files /\ ReadFile contentFS ("content/" ++ name) = inl err) /\
  (forall name, In (ErrorParsingFile name) (logLines loaded) <->
     In name files /\
     exists content, ReadFile contentFS ("content/" ++ name) = inr content /\
                     ~ threeSegments content) /\
  (forall err, In (ErrorConvertingGoldmark err) (logLines loaded) <->
     exists name content,
       In name files /\ ReadFile contentFS ("content/" ++ name) = inr content /\
       threeSegments content /\ convert (bodyOf content) = inl err).
Proof.
  intros Hload Hdir.
  destruct (loadPosts_inr _ _ _ _ Hload) as (files' & Hdir' & _ & -> & _).
  rewrite Hdir in Hdir'. injection Hdir' as <-.
  split; [| split].
  - intros err. rewrite failures_In. split.
    + intros (name & Hname & E). exists name. split; [exact Hname |].
      apply loadEntry_inl in E
        as [(err' & E & H) | [(c & _ & _ & H) | (c & e & _ & _ & _ & H)]];
        try discriminate.
      now injection H as ->.
    + intros (name & Hname & E). exists name. split; [exact Hname |].
      apply loadEntry_inl. left. now exists err.
  - intros name. rewrite failures_In. split.
    + intros (name' & Hname & E).
      apply loadEntry_inl in E
        as [(err' & _ & H) | [(c & E & Hno & H) | (c & e & _ & _ & _ & H)]];
        try discriminate.
      injection H as ->. split; [exact Hname | now exists c].
    + intros (Hname & content & E & Hno). exists name. split; [exact Hname |].
      apply loadEntry_inl. right. left. now exists content.
  - intros err. rewrite failures_In. split.
    + intros (name & Hname & E).
      apply loadEntry_inl in E
        as [(err' & _ & H) | [(c & _ & _ & H) | (c & e & E & Hthree & C & H)]];
        try discriminate.
      injection H as ->. now exists name, c.
    + intros (name & content & Hname & E & Hthree & C). exists name.
      split; [exact Hname |].
      apply loadEntry_inl. right. right. now exists content, err.
Qed.

Lemma logged_lines_name_the_failures_witness :
  exists loaded,
    loadPosts paragraph sort.Slice troubled = inr loaded /\
    logLines loaded = [ErrorParsingFile "torn.md"; ErrorReadingFile "file does not exist"] /\
    (forall err, In (ErrorReadingFile err) (logLines loaded) <->
       exists name, In name ["post-a.md"; "torn.md"; "gone.md"] /\
                    ReadFile troubled ("content/" ++ name) = inl err) /\
    (forall name, In (ErrorParsingFile name) (logLines loaded) <->
       In name ["post-a.md"; "torn.md"; "gone.md"] /\
       exists content, ReadFile troubled ("content/" ++ name) = inr content /\
                       ~ threeSegments content) /\
    (forall err, In (ErrorConvertingGoldmark err) (logLines loaded) <->
       exists name content,
         In name ["post-a.md"; "torn.md"; "gone.md"] /\
         ReadFile troubled ("content/" ++ name) = inr content /\
         threeSegments content /\ paragraph (bodyOf content) = inl err).
Proof.
  eexists.
  split; [vm_compute; reflexivity |].
  split; [vm_compute; reflexivity |].
  apply (logged_lines_name_the_failures paragraph sort.Slice troubled _
           ["post-a.md"; "torn.md"; "gone.md"]); vm_compute; reflexivity.
Defined.

(** ** From the address to the file *)

(** X7.  In the index built from the embedded [content/*.md] files the
    address [/post/<id>] belongs to the file [<id>.md]: if that file is
    listed and loads, the handler serves its post, whose slug is [<id>];
    and the handler answers not-found exactly when no listed file
    [<id>.md] loads. *)
Theorem post_address_serves_its_file
  (convert : string -> error + string)
  (sort_Slice : forall A : Type, (A -> A -> bool) -> list A -> list A)
  (contentFS : FS) (loaded : Loaded) (files : list string) (id : string) :
  sort.Sorts sort_Slice ->
  embedsContent contentFS ->
  loadPosts convert sort_Slice contentFS = inr loaded ->
  ReadDir contentFS "content" = inr files ->
  (forall post,
     In (id ++ ".md") files ->
     loadEntry convert contentFS (id ++ ".md") = inr post ->
     Slug post = id /\
     postHandler None (postCache loaded) ("/post/" ++ id) =
       PostPage {| PostData.Title := Title post; PostData.Post := post |}) /\
  (postHandler None (postCache loaded) ("/post/" ++ id) = NotFound <->
   ~ (In (id ++ ".md") files /\
      exists post, loadEntry convert contentFS (id ++ ".md") = inr post)).
Proof.
  intros Hsort (files' & Hdir' & Hnd & Hmd) Hload Hdir.
  rewrite Hdir in Hdir'. injection Hdir' as <-.
  destruct (loadPosts_sorted convert sort_Slice Hsort contentFS loaded Hload)
    as (files' & Hdir' & Hperm & _).
  rewrite Hdir in Hdir'. injection Hdir' as <-.
  assert (Hslugs : NoDup (map Slug (postCache loaded))).
  { apply (Permutation_NoDup (Permutation_map Slug Hperm)).
    apply enumerated_slugs. now apply md_slugs_distinct. }
  assert (Hserve : forall post,
             In (id ++ ".md") files ->
             loadEntry convert contentFS (id ++ ".md") = inr post ->
             Slug post = id /\
             postHandler None (postCache loaded) ("/post/" ++ id) =
               PostPage {| PostData.Title := Title post; PostData.Post := post |}).
  { intros post Hin E.
    assert (Hs : Slug post = id)
      by (rewrite (loadEntry_slug convert contentFS _ _ E); apply slugOf_md).
    split; [exact Hs |].
    assert (Hcache : In post (postCache loaded)).
    { apply (Permutation_in _ Hperm). apply enumerated_In. now exists (id ++ ".md"). }
    rewrite postHandler_findBySlug. rewrite <- Hs.
    now rewrite (findBySlug_unique _ _ Hslugs Hcache). }
  split; [exact Hserve |]. split.
  - intros Hnf (Hin & post & E).
    destruct (Hserve post Hin E) as [_ H]. congruence.
  - intros Hno. rewrite postHandler_findBySlug.
    destruct (findBySlug (postCache loaded) id) as [r |] eqn:E; [| reflexivity].
    exfalso. apply Hno.
    apply findBySlug_In in E as [Hin Hs].
    apply (Permutation_in _ (Permutation_sym Hperm)) in Hin.
    apply enumerated_In in Hin as (name & Hname & El).
    rewrite Forall_forall in Hmd. destruct (Hmd name Hname) as [stem ->].
    rewrite (loadEntry_slug convert contentFS _ _ El), slugOf_md in Hs. subst stem.
    split; [exact Hname | now exists r].
Qed.

Lemma post_address_serves_its_file_witness :
  exists loaded,
    loadPosts paragraph sort.Slice scenarioA = inr loaded /\
    (forall post,
       In ("post-a" ++ ".md") ["post-a.md"; "post-b.md"; "undated.md"] ->
       loadEntry paragraph scenarioA ("post-a" ++ ".md") = inr post ->
       Slug post = "post-a" /\
       postHandler None (postCache loaded) ("/post/" ++ "post-a") =
         PostPage {| PostData.Title := Title post; PostData.Post := post |}) /\
    (postHandler None (postCache loaded) ("/post/" ++ "post-a") = NotFound <->
     ~ (In ("post-a" ++ ".md") ["post-a.md"; "post-b.md"; "undated.md"] /\
        exists post, loadEntry paragraph scenarioA ("post-a" ++ ".md") = inr post)).
Proof.
  eexists.
  split; [vm_compute; reflexivity |].
  apply (post_address_serves_its_file paragraph sort.Slice scenarioA _
           ["post-a.md"; "post-b.md"; "undated.md"] "post-a"
           Slice_Sorts embedsContent_scenarioA);
    vm_compute; reflexivity.
Defined.

(** ** A short cache keeps the order of the listing *)

Section Stable.

Context {A : Type} (less : A -> A -> bool) (P : A -> bool).

(** [P] picks elements none of which is less than another. *)
Hypothesis unordered : forall x y, less x y = true -> P x = true -> P y = false.

Lemma sink_filter (x : A) (left : list A) :
  filter P (rev (sort.sink less x left)) =
  (filter P (rev left) ++ filter P [x])%list.
Proof.
  induction left as [|y left IH]; [reflexivity |].
  cbn [sort.sink]. destruct (less x y) eqn:E.
  - cbn [rev]. rewrite !filter_app, IH, <- !app_assoc. f_equal.
    cbn [filter]. destruct (P x) eqn:Px.
    + now rewrite (unordered x y E Px).
    + now rewrite app_nil_r.
  - change (rev (x :: y :: left)) with (rev (y :: left) ++ [x])%list.
    now rewrite filter_app.
Qed.

Lemma sinks_filter (x acc : list A) :
  filter P (rev (fold_left (fun left e => sort.sink less e left) x acc)) =
  (filter P (rev acc) ++ filter P x)%list.
Proof.
  revert acc. induction x as [|e x IH]; intros acc; cbn [fold_left].
  - now rewrite app_nil_r.
  - rewrite IH, sink_filter, <- app_assoc. f_equal.
    cbn [filter app]. now destruct (P e).
Qed.

(** The insertion sort keeps the order of such elements. *)
Lemma insertionSort_filter (x : list A) :
  filter P (sort.insertionSort A less x) = filter P x.
Proof. unfold sort.insertionSort. now rewrite sinks_filter. Qed.

End Stable.

(** X8.  A cache of at most twelve posts keeps the order of the listing
    among posts of equal date: on so short a slice [sort.Slice] does an
    insertion sort, which never moves a post over one it is not after. *)
Theorem short_cache_keeps_listing_order
  (convert : string -> error + string) (contentFS : FS)
  (loaded : Loaded) (files : list string) :
  loadPosts convert sort.Slice contentFS = inr loaded ->
  ReadDir contentFS "content" = inr files ->
  List.length (enumerated convert contentFS files) <= 12 ->
  stable (enumerated convert contentFS files) (postCache loaded).
Proof.
  intros Hload Hdir Hshort d.
  destruct (loadPosts_inr _ _ _ _ Hload) as (files' & Hdir' & -> & _).
  rewrite Hdir in Hdir'. injection Hdir' as <-.
  rewrite Slice_small by exact Hshort.
  unfold publishedAt. apply insertionSort_filter.
  intros x y Hless Hx. unfold byDate, time.After in Hless.
  apply Z.ltb_lt in Hless. apply Z.eqb_eq in Hx. apply Z.eqb_neq. lia.
Qed.

Lemma short_cache_keeps_listing_order_witness :
  exists loaded,
    loadPosts paragraph sort.Slice twins = inr loaded /\
    map Slug (postCache loaded) = ["b"; "a"; "c"] /\
    stable (enumerated paragraph twins ["a.md"; "b.md"; "c.md"]) (postCache loaded).
Proof.
  eexists.
  split; [vm_compute; reflexivity |].
  split; [vm_compute; reflexivity |].
  apply (short_cache_keeps_listing_order paragraph twins _ ["a.md"; "b.md"; "c.md"]).
  - vm_compute; reflexivity.
  - vm_compute; reflexivity.
  - vm_compute. lia.
Defined.

(** ** The split at the first two delimiters *)

Lemma slice_to_app_le (n : nat) (x b : string) :
  n <= String.length x -> slice_to n (x ++ b) = slice_to n x.
Proof.
  revert x. induction n as [|n IH]; intros x H; [reflexivity |].
  destruct x as [|c x]; simpl in *; [lia |].
  now rewrite IH by lia.
Qed.

Lemma slice_from_add (p r : string) (n : nat) :
  slice_from (String.length p + n) (p ++ r) = slice_from n r.
Proof. induction p as [|c p IH]; simpl; [reflexivity | exact IH]. Qed.

(** A prefix as long as [sep] decides whether the string begins with it. *)
Lemma HasPrefix_app_long (x b sep : string) :
  String.length sep <= String.length x ->
  strings.HasPrefix (x ++ b) sep = strings.HasPrefix x sep.
Proof.
  intros H. unfold strings.HasPrefix.
  rewrite slice_to_app_le by exact H. rewrite length_append.
  destruct (Nat.leb_spec (String.length sep) (String.length x)); [| lia].
  destruct (Nat.leb_spec (String.length sep) (String.length x + String.length b)); [| lia].
  reflexivity.
Qed.

(** Where [Index] finds [sep], it is there. *)
Lemma Index_Some_split (s sep : string) (m : nat) :
  strings.Index s sep = Some m ->
  s = slice_to m s ++ sep ++ slice_from (m + String.length sep) s /\
  String.length (slice_to m s) = m.
Proof.
  revert m. induction s as [|c s IH]; intros m; rewrite Index_unfold.
  - destruct (strings.HasPrefix "" sep) eqn:E; [| discriminate].
    intros H. injection H as <-. split; [| reflexivity].
    apply (HasPrefix_inv "" sep E).
  - destruct (strings.HasPrefix (String c s) sep) eqn:E.
    + intros H. injection H as <-. split; [| reflexivity].
      apply (HasPrefix_inv _ sep E).
    + destruct (strings.Index s sep) as [m' |] eqn:Ei; [| discriminate].
      intros H. injection H as <-.
      destruct (IH m' eq_refl) as [Hs Hl]. split.
      * cbn [slice_to slice_from Nat.add String.append]. now rewrite <- Hs.
      * cbn [slice_to String.length]. now rewrite Hl.
Qed.

(** Whether the first [sep] of [a ++ sep ++ b] is the one written there
    does not depend on [b]. *)
Lemma Index_app_boundary (a sep b : string) :
  strings.Index (a ++ sep ++ b) sep = Some (String.length a) <->
  strings.Index (a ++ sep) sep = Some (String.length a).
Proof.
  induction a as [|c a IH].
  - cbn [String.append String.length]. rewrite !Index_unfold.
    rewrite (HasPrefix_append sep b).
    pose proof (HasPrefix_append sep "") as H. rewrite append_empty_r in H.
    rewrite H. tauto.
  - rewrite (Index_unfold (String c a ++ sep ++ b)), (Index_unfold (String c a ++ sep)).
    rewrite <- (append_assoc (String c a) sep b).
    rewrite HasPrefix_app_long by (rewrite length_append; lia).
    destruct (strings.HasPrefix (String c a ++ sep) sep).
    + cbn [String.length]. split; discriminate.
    + rewrite (append_assoc (String c a) sep b).
      cbn [String.append String.length].
      destruct (strings.Index (a ++ sep ++ b) sep) as [i |] eqn:E1;
        destruct (strings.Index (a ++ sep) sep) as [j |] eqn:E2; cbn [option_map].
      * split; intros H; injection H as H; f_equal; f_equal.
        -- assert (Some i = Some (String.length a)) as Hi by congruence.
           apply IH in Hi. congruence.
        -- assert (Some j = Some (String.length a)) as Hj by congruence.
           apply IH in Hj. congruence.
      * split; [| discriminate]. intros H. injection H as H.
        assert (Some i = Some (String.length a)) as Hi by congruence.
        apply IH in Hi. discriminate.
      * split; [discriminate |]. intros H. injection H as H.
        assert (Some j = Some (String.length a)) as Hj by congruence.
        apply IH in Hj. discriminate.
      * split; discriminate.
Qed.

(** The split of line 114 runs the loop of [genSplit] with two cuts left,
    except on a text too short to hold a delimiter. *)
Lemma SplitN_3 (content : string) :
  strings.SplitN content "---" 3 =
  if String.length content <? 2
  then strings.genSplit_loop (String.length content) content "---"
  else strings.genSplit_loop 2 content "---".
Proof.
  unfold strings.SplitN, strings.genSplit.
  cbn [Z.eqb String.length Nat.eqb].
  destruct (Z.ltb_spec 3 0) as [Hneg | _]; [lia |].
  destruct (Z.ltb_spec (Z.of_nat (String.length content) + 1) 3) as [Hshort | Hlong];
    destruct (Nat.ltb_spec (String.length content) 2) as [H | H]; try lia.
  - f_equal. lia.
  - reflexivity.
Qed.

Lemma Index_short (s : string) : String.length s < 3 -> strings.Index s "---" = None.
Proof.
  intros H. destruct (strings.Index s "---") as [m |] eqn:E; [| reflexivity].
  apply Index_Some_split in E as [Hs _].
  apply (f_equal String.length) in Hs. rewrite !length_append in Hs.
  cbn [String.length] in Hs. lia.
Qed.

(** The three segments, when there are three. *)
Lemma SplitN_3_cases (content : string) :
  match strings.Index content "---" with
  | None => strings.SplitN content "---" 3 = [content]
  | Some m =>
    let rest := slice_from (m + 3) content in
    match strings.Index rest "---" with
    | None => strings.SplitN content "---" 3 = [slice_to m content; rest]
    | Some m' =>
      strings.SplitN content "---" 3 =
        [slice_to m content; slice_to m' rest; slice_from (m' + 3) rest]
    end
  end.
Proof.
  rewrite SplitN_3.
  destruct (Nat.ltb_spec (String.length content) 2) as [Hshort | Hlong].
  - assert (Hnone : strings.Index content "---" = None) by (apply Index_short; lia).
    rewrite Hnone.
    destruct (String.length content); cbn [strings.genSplit_loop]; [reflexivity |].
    now rewrite Hnone.
  - cbn [strings.genSplit_loop String.length].
    destruct (strings.Index content "---") as [m |]; [| reflexivity].
    cbv zeta.
    destruct (strings.Index (slice_from (m + 3) content) "---") as [m' |]; reflexivity.
Qed.

(** X9.  The split of line 114 cuts at the first two delimiters and
    nowhere else: it yields [pre], [metaRaw] and [bodyRaw] exactly when the
    text is [pre], a delimiter, [metaRaw], a delimiter and [bodyRaw], the
    two being the first delimiter of the text and the first after it.  So
    with three segments nothing of the text is lost, what precedes the first
    delimiter is set aside, and the body is all that follows the second
    one, further delimiters included. *)
Theorem split_at_first_two_delimiters (content : string) :
  (forall pre metaRaw bodyRaw,
     strings.SplitN content "---" 3 = [pre; metaRaw; bodyRaw] <->
     content = pre ++ "---" ++ metaRaw ++ "---" ++ bodyRaw /\
     strings.Index (pre ++ "---") "---" = Some (String.length pre) /\
     strings.Index (metaRaw ++ "---") "---" = Some (String.length metaRaw)) /\
  (threeSegments content <->
   exists pre metaRaw,
     strings.SplitN content "---" 3 = [pre; metaRaw; bodyOf content]).
Proof.
  split.
  - intros pre metaRaw bodyRaw. split.
    + intros H. pose proof (SplitN_3_cases content) as Hc.
      destruct (strings.Index content "---") as [m |] eqn:E1;
        [| rewrite Hc in H; discriminate].
      cbv zeta in Hc.
      destruct (strings.Index (slice_from (m + 3) content) "---") as [m' |] eqn:E2;
        [| rewrite Hc in H; discriminate].
      rewrite Hc in H. injection H as Hpre Hmeta Hbody.
      destruct (Index_Some_split _ _ _ E1) as [Hs1 Hl1].
      destruct (Index_Some_split _ _ _ E2) as [Hs2 Hl2].
      cbn [String.length] in Hs1, Hs2.
      rewrite Hpre in Hs1, Hl1. rewrite Hmeta, Hbody in Hs2. rewrite Hmeta in Hl2.
      rewrite Hs2 in Hs1. split; [exact Hs1 |]. split.
      * apply (Index_app_boundary pre "---" (metaRaw ++ "---" ++ bodyRaw)).
        rewrite <- Hs1, Hl1. exact E1.
      * apply (Index_app_boundary metaRaw "---" bodyRaw).
        rewrite <- Hs2, Hl2. exact E2.
    + intros (-> & H1 & H2).
      apply (Index_app_boundary pre "---" (metaRaw ++ "---" ++ bodyRaw)) in H1.
      apply (Index_app_boundary metaRaw "---" bodyRaw) in H2.
      pose proof (SplitN_3_cases (pre ++ "---" ++ metaRaw ++ "---" ++ bodyRaw)) as Hc.
      rewrite H1 in Hc. cbv zeta in Hc.
      assert (Hrest : slice_from (String.length pre + 3)
                        (pre ++ "---" ++ metaRaw ++ "---" ++ bodyRaw)
                      = metaRaw ++ "---" ++ bodyRaw)
        by (rewrite slice_from_add; reflexivity).
      rewrite Hrest, H2 in Hc. rewrite Hc.
      rewrite slice_to_append, slice_to_append, slice_from_add. reflexivity.
  - unfold threeSegments, bodyOf. pose proof (SplitN_3_cases content) as Hc.
    destruct (strings.Index content "---") as [m |].
    + cbv zeta in Hc.
      destruct (strings.Index (slice_from (m + 3) content) "---") as [m' |];
        rewrite Hc; cbn [List.length nth].
      * split; [| lia]. intros _. now eexists; eexists.
      * split; [lia |]. intros (pre & metaRaw & H). discriminate.
    + rewrite Hc. cbn [List.length nth]. split; [lia |].
      intros (pre & metaRaw & H). discriminate.
Qed.

(** ** Counting the delimiters *)

Lemma Count_loop_S (fuel : nat) (s substr : string) :
  strings.Count_loop (S fuel) s substr =
  match strings.Index s substr with
  | None => 0
  | Some i => S (strings.Count_loop fuel (slice_from (i + String.length substr) s) substr)
  end.
Proof. reflexivity. Qed.

(** X10.  A file is reported with ["Error parsing file"] exactly when it
    holds fewer than two delimiters, counted as [strings.Count] counts
    them: from left to right, without overlap. *)
Theorem malformed_iff_fewer_than_two_delimiters
  (convert : string -> error + string) (filename content : string) :
  parsePost convert filename content = inl (ErrorParsingFile filename) <->
  strings.Count content "---" < 2.
Proof.
  assert (Hthree : threeSegments content <-> 2 <= strings.Count content "---").
  { unfold threeSegments, strings.Count. cbn [String.length Nat.eqb].
    pose proof (SplitN_3_cases content) as Hc.
    destruct (strings.Index content "---") as [m |] eqn:E1.
    - cbv zeta in Hc.
      destruct (Index_Some_split _ _ _ E1) as [Hs1 _].
      apply (f_equal String.length) in Hs1. rewrite !length_append in Hs1.
      cbn [String.length] in Hs1.
      destruct (String.length content) as [|[|fuel]] eqn:El; try lia.
      rewrite Count_loop_S, E1. cbn [String.length].
      destruct (strings.Index (slice_from (m + 3) content) "---") as [m' |] eqn:E2;
        rewrite Hc; cbn [List.length].
      + rewrite Count_loop_S, E2. split; lia.
      + destruct fuel as [|fuel].
        * cbn [strings.Count_loop]. split; lia.
        * rewrite Count_loop_S, E2. split; lia.
    - rewrite Hc. cbn [List.length].
      destruct (String.length content) as [|fuel]; [cbn [strings.Count_loop]; split; lia |].
      rewrite Count_loop_S, E1. split; lia. }
  destruct (parsePost_cases convert filename content)
    as [[Hno E] | [[H3 (err & _ & E)] | [H3 (html & _ & E)]]]; rewrite E.
  - split; [| reflexivity]. intros _.
    destruct (Nat.lt_ge_cases (strings.Count content "---") 2) as [H | H]; [exact H |].
    exfalso. apply Hno. now apply Hthree.
  - split; [discriminate |]. intros H. apply Hthree in H3. lia.
  - split; [discriminate |]. intros H. apply Hthree in H3. lia.
Qed.

(** ** The order of the dates *)

Section Calendar.

Local Open Scope Z_scope.

Lemma Date_days (year month day : Z) :
  time.Date year month day =
  (time.daysSinceYear1 year + dayOfYear year month day) * 86400.
Proof.
  unfold time.Date, dayOfYear, time.secondsPerDay.
  destruct (time.isLeap year && (3 <=? month)); lia.
Qed.

Lemma month_cases (month : Z) :
  1 <= month <= 12 ->
  month = 1 \/ month = 2 \/ month = 3 \/ month = 4 \/ month = 5 \/ month = 6 \/
  month = 7 \/ month = 8 \/ month = 9 \/ month = 10 \/ month = 11 \/ month = 12.
Proof. lia. Qed.

Ltac months H :=
  apply month_cases in H;
  repeat (destruct H as [H | H]; [subst |]); subst.

Ltac tables :=
  repeat match goal with
         | |- context [time.daysBefore ?k] =>
           let v := eval vm_compute in (time.daysBefore k) in
           change (time.daysBefore k) with v
         end;
  cbn [Z.eqb Z.leb Z.compare Pos.compare Pos.compare_cont Pos.eqb andb].

Lemma dayOfYear_range (year month day : Z) :
  validDate year month day -> 0 <= dayOfYear year month day < daysOf year.
Proof.
  unfold validDate, dayOfYear, daysOf, time.daysIn. intros [Hm Hd]. revert Hd.
  destruct (time.isLeap year); months Hm; tables; lia.
Qed.

Lemma dayOfYear_order (year m d m' d' : Z) :
  validDate year m d -> validDate year m' d' ->
  (dayOfYear year m d < dayOfYear year m' d' <-> m < m' \/ (m = m' /\ d < d')).
Proof.
  unfold validDate, dayOfYear, time.daysIn. intros [Hm Hd] [Hm' Hd']. revert Hd Hd'.
  destruct (time.isLeap year); months Hm; months Hm'; tables; lia.
Qed.

Lemma daysSinceYear1_next (year : Z) :
  time.daysSinceYear1 (year + 1) = time.daysSinceYear1 year + daysOf year.
Proof.
  unfold time.daysSinceYear1, daysOf, time.isLeap.
  replace (year + 1 - 1) with year by lia.
  destruct (Z.eqb_spec (year mod 4) 0) as [H4 | H4];
    destruct (Z.eqb_spec (year mod 100) 0) as [H100 | H100];
    destruct (Z.eqb_spec (year mod 400) 0) as [H400 | H400];
    cbn [andb orb negb];
    Z.div_mod_to_equations; lia.
Qed.

Lemma daysOf_pos (year : Z) : 365 <= daysOf year.
Proof. unfold daysOf. destruct (time.isLeap year); lia. Qed.

Lemma daysSinceYear1_later (year : Z) (n : nat) :
  time.daysSinceYear1 year + daysOf year <=
  time.daysSinceYear1 (year + 1 + Z.of_nat n).
Proof.
  induction n as [|n IH].
  - rewrite Z.add_0_r, daysSinceYear1_next. lia.
  - replace (year + 1 + Z.of_nat (S n)) with (year + 1 + Z.of_nat n + 1) by lia.
    rewrite daysSinceYear1_next.
    pose proof (daysOf_pos (year + 1 + Z.of_nat n)). lia.
Qed.

Lemma Date_later_year (y m d y' m' d' : Z) :
  validDate y m d -> validDate y' m' d' -> y < y' ->
  time.Date y m d < time.Date y' m' d'.
Proof.
  intros Hv Hv' Hlt. rewrite !Date_days.
  pose proof (dayOfYear_range _ _ _ Hv). pose proof (dayOfYear_range _ _ _ Hv').
  pose proof (daysSinceYear1_later y (Z.to_nat (y' - y - 1))) as Hl.
  replace (y + 1 + Z.of_nat (Z.to_nat (y' - y - 1))) with y' in Hl by lia.
  lia.
Qed.

Lemma Date_lt_iff (a b c a' b' c' : Z) :
  validDate a b c -> validDate a' b' c' ->
  (time.Date a b c < time.Date a' b' c' <-> earlierDay a b c a' b' c').
Proof.
  intros Hv Hv'. unfold earlierDay.
  destruct (Z.lt_trichotomy a a') as [H | [-> | H]].
  - pose proof (Date_later_year _ _ _ _ _ _ Hv Hv' H). split; [intros _; now left | auto].
  - rewrite !Date_days. pose proof (dayOfYear_order a' b c b' c' Hv Hv') as Ho.
    split.
    + intros Hd. right. split; [reflexivity |]. apply Ho. lia.
    + intros [Hd | [_ Hd]]; [lia |]. apply Ho in Hd. lia.
  - pose proof (Date_later_year _ _ _ _ _ _ Hv' Hv H). split; [lia |].
    intros [Hd | [Hd _]]; lia.
Qed.

(** X11.  The comparison handed to [sort.Slice] is that of the calendar:
    of two calendar days the time of the one is before the time of the
    other exactly when the day comes earlier in the calendar, by year, then
    month, then day; so [After] tells the later day, and different days
    have different times. *)
Theorem dates_compare_as_the_calendar (y m d y' m' d' : Z) :
  validDate y m d -> validDate y' m' d' ->
  (time.Date y m d < time.Date y' m' d' <-> earlierDay y m d y' m' d') /\
  (time.After (time.Date y m d) (time.Date y' m' d') = true <->
   earlierDay y' m' d' y m d) /\
  (time.Date y m d = time.Date y' m' d' <-> y = y' /\ m = m' /\ d = d').
Proof.
  intros Hv Hv'.
  pose proof Date_lt_iff as Hlt.
  split; [now apply Hlt |]. split.
  - unfold time.After. rewrite Z.ltb_lt. now apply Hlt.
  - split.
    + intros E.
      pose proof (Hlt _ _ _ _ _ _ Hv Hv') as H1. pose proof (Hlt _ _ _ _ _ _ Hv' Hv) as H2.
      unfold earlierDay in H1, H2.
      destruct (Z.lt_trichotomy y y') as [H | [-> | H]].
      * assert (time.Date y m d < time.Date y' m' d') by (apply H1; now left). lia.
      * destruct (Z.lt_trichotomy m m') as [Hm | [-> | Hm]].
        -- assert (time.Date y' m d < time.Date y' m' d') by (apply H1; right; auto). lia.
        -- destruct (Z.lt_trichotomy d d') as [Hd | [-> | Hd]]; [| auto |].
           ++ assert (time.Date y' m' d < time.Date y' m' d')
                by (apply H1; right; split; auto). lia.
           ++ assert (time.Date y' m' d' < time.Date y' m' d)
                by (apply H2; right; split; auto). lia.
        -- assert (time.Date y' m' d' < time.Date y' m d) by (apply H2; right; auto). lia.
      * assert (time.Date y' m' d' < time.Date y m d) by (apply H2; now left). lia.
    + intros (-> & -> & ->). reflexivity.
Qed.

End Calendar.

Lemma dates_compare_as_the_calendar_witness :
  validDate 2024 2 29 /\ validDate 2024 3 1 /\
  ((time.Date 2024 2 29 < time.Date 2024 3 1)%Z <-> earlierDay 2024 2 29 2024 3 1) /\
  (time.After (time.Date 2024 2 29) (time.Date 2024 3 1) = true <->
   earlierDay 2024 3 1 2024 2 29) /\
  (time.Date 2024 2 29 = time.Date 2024 3 1 <->
   2024%Z = 2024%Z /\ 2%Z = 3%Z /\ 29%Z = 1%Z).
Proof.
  assert (H1 : validDate 2024 2 29) by (unfold validDate; vm_compute; intuition discriminate).
  assert (H2 : validDate 2024 3 1) by (unfold validDate; vm_compute; intuition discriminate).
  split; [exact H1 |]. split; [exact H2 |].
  exact (dates_compare_as_the_calendar 2024 2 29 2024 3 1 H1 H2).
Defined.

(** ** The zero time among the dates *)

(** X15.  The zero time, the date of a post without a date that parses,
    is January 1 of year 1: a calendar day is at or after it exactly from
    year 1 on, and has that very time only if it is that day.  So among
    the posts the undated ones rank with those of 0001-01-01, after every
    later day, and only the days of year 0000 rank after them. *)
Theorem zero_time_is_first_day_of_year_one (y m d : Z) :
  validDate y m d ->
  ((time.zero <= time.Date y m d)%Z <-> (1 <= y)%Z) /\
  (time.Date y m d = time.zero <-> y = 1%Z /\ m = 1%Z /\ d = 1%Z) /\
  (time.After time.zero (time.Date y m d) = true <-> (y <= 0)%Z).
Proof.
  intros Hv.
  assert (H1 : validDate 1 1 1) by (unfold validDate; vm_compute; intuition discriminate).
  assert (Hz : time.zero = time.Date 1 1 1) by reflexivity.
  pose proof (Date_lt_iff y m d 1 1 1 Hv H1) as Hbefore.
  pose proof (Date_lt_iff 1 1 1 y m d H1 Hv) as Hafter.
  unfold earlierDay in Hbefore, Hafter. destruct Hv as [Hm Hd].
  rewrite Hz. split; [| split].
  - split.
    + intros H. destruct (Z.lt_ge_cases y 1) as [Hy | Hy]; [| exact Hy].
      assert (time.Date y m d < time.Date 1 1 1)%Z by (apply Hbefore; now left). lia.
    + intros Hy. destruct (Z.le_gt_cases (time.Date 1 1 1) (time.Date y m d)) as [H | H];
        [exact H |].
      apply Hbefore in H. lia.
  - split.
    + intros E.
      destruct (Z.lt_trichotomy y 1) as [Hy | [-> | Hy]].
      * assert (time.Date y m d < time.Date 1 1 1)%Z by (apply Hbefore; now left). lia.
      * destruct (Z.eq_dec m 1) as [-> | Hm1].
        -- destruct (Z.eq_dec d 1) as [-> | Hd1]; [auto |].
           assert (time.Date 1 1 1 < time.Date 1 1 d)%Z by (apply Hafter; right; lia). lia.
        -- assert (time.Date 1 1 1 < time.Date 1 m d)%Z by (apply Hafter; right; lia). lia.
      * assert (time.Date 1 1 1 < time.Date y m d)%Z by (apply Hafter; now left). lia.
    + intros (-> & -> & ->). reflexivity.
  - unfold time.After. rewrite Z.ltb_lt. split.
    + intros H. apply Hbefore in H. lia.
    + intros Hy. apply Hbefore. left. lia.
Qed.

Lemma zero_time_is_first_day_of_year_one_witness :
  validDate 0 12 31 /\
  ((time.zero <= time.Date 0 12 31)%Z <-> (1 <= 0)%Z) /\
  (time.Date 0 12 31 = time.zero <-> 0%Z = 1%Z /\ 12%Z = 1%Z /\ 31%Z = 1%Z) /\
  (time.After time.zero (time.Date 0 12 31) = true <-> (0 <= 0)%Z).
Proof.
  assert (H : validDate 0 12 31) by (unfold validDate; vm_compute; intuition discriminate).
  split; [exact H |].
  exact (zero_time_is_first_day_of_year_one 0 12 31 H).
Defined.

(** ** The values [time.Parse] accepts *)

Lemma longYear_inv (v rest : string) (y : Z) :
  time.longYear v = Some (y, rest) ->
  exists c0 c1 c2 c3 : ascii,
    v = String c0 (String c1 (String c2 (String c3 rest))) /\
    isDigitByte c0 = true /\ isDigitByte c1 = true /\
    isDigitByte c2 = true /\ isDigitByte c3 = true /\
    y = (digitOf c0 * 1000 + digitOf c1 * 100 + digitOf c2 * 10 + digitOf c3)%Z.
Proof.
  unfold time.longYear.
  destruct v as [|c0 [|c1 [|c2 [|c3 v]]]];
    cbn [String.length Nat.leb andb]; try discriminate.
  unfold time.isDigit, time.digit. cbn [String.get slice_from].
  fold (isDigitByte c0) (isDigitByte c1) (isDigitByte c2) (isDigitByte c3).
  fold (digitOf c0) (digitOf c1) (digitOf c2) (digitOf c3).
  destruct (isDigitByte c0) eqn:D0; [| discriminate].
  destruct (isDigitByte c1) eqn:D1; [| discriminate].
  destruct (isDigitByte c2) eqn:D2; [| discriminate].
  destruct (isDigitByte c3) eqn:D3; [| discriminate].
  intros H. injection H as <- <-. exists c0, c1, c2, c3. auto 10.
Qed.

Lemma getnum_fixed_inv (v rest : string) (n : Z) :
  time.getnum_fixed v = Some (n, rest) ->
  exists c0 c1 : ascii,
    v = String c0 (String c1 rest) /\
    isDigitByte c0 = true /\ isDigitByte c1 = true /\
    n = (digitOf c0 * 10 + digitOf c1)%Z.
Proof.
  unfold time.getnum_fixed, time.isDigit, time.digit.
  destruct v as [|c0 [|c1 v]]; cbn [String.get slice_from].
  - discriminate.
  - rewrite andb_false_r. discriminate.
  - fold (isDigitByte c0) (isDigitByte c1) (digitOf c0) (digitOf c1).
    destruct (isDigitByte c0) eqn:D0; [| discriminate].
    destruct (isDigitByte c1) eqn:D1; [| discriminate].
    intros H. injection H as <- <-. exists c0, c1. auto.
Qed.

Lemma skipDash_inv (v rest : string) :
  time.skipDash v = Some rest -> v = String "-" rest.
Proof.
  destruct v as [|c v]; [discriminate |]. cbn [time.skipDash].
  destruct (Ascii.eqb_spec c "-"%char) as [-> | _]; [| discriminate].
  intros H. now injection H as <-.
Qed.

Lemma Parse_ok_inv (v : string) (t : time.Time) :
  time.Parse_2006_01_02 v = (t, None) ->
  exists y1 y2 y3 y4 m1 m2 d1 d2 : ascii,
    v = dateValue y1 y2 y3 y4 m1 m2 d1 d2 /\
    (isDigitByte y1 && isDigitByte y2 && isDigitByte y3 && isDigitByte y4
     && isDigitByte m1 && isDigitByte m2 && isDigitByte d1 && isDigitByte d2 = true) /\
    validDate (digitOf y1 * 1000 + digitOf y2 * 100 + digitOf y3 * 10 + digitOf y4)
              (digitOf m1 * 10 + digitOf m2) (digitOf d1 * 10 + digitOf d2) /\
    t = time.Date (digitOf y1 * 1000 + digitOf y2 * 100 + digitOf y3 * 10 + digitOf y4)
                  (digitOf m1 * 10 + digitOf m2) (digitOf d1 * 10 + digitOf d2).
Proof.
  unfold time.Parse_2006_01_02.
  destruct (time.longYear v) as [[year v1] |] eqn:Ey; [| discriminate].
  destruct (time.skipDash v1) as [v2 |] eqn:E1; [| discriminate].
  destruct (time.getnum_fixed v2) as [[month v3] |] eqn:Em; [| discriminate].
  destruct ((month <=? 0)%Z || (12 <? month)%Z) eqn:Rm; [discriminate |].
  destruct (time.skipDash v3) as [v4 |] eqn:E2; [| discriminate].
  destruct (time.getnum_fixed v4) as [[day v5] |] eqn:Ed; [| discriminate].
  destruct (negb (String.length v5 =? 0)) eqn:El; [discriminate |].
  destruct ((day <? 1)%Z || (time.daysIn month year <? day)%Z) eqn:Rd; [discriminate |].
  intros H. injection H as <-.
  apply longYear_inv in Ey as (y1 & y2 & y3 & y4 & -> & D1 & D2 & D3 & D4 & ->).
  apply skipDash_inv in E1 as ->.
  apply getnum_fixed_inv in Em as (m1 & m2 & -> & D5 & D6 & ->).
  apply skipDash_inv in E2 as ->.
  apply getnum_fixed_inv in Ed as (d1 & d2 & -> & D7 & D8 & ->).
  destruct v5; [| discriminate].
  apply orb_false_elim in Rm as [Rm1 Rm2]. apply orb_false_elim in Rd as [Rd1 Rd2].
  apply Z.leb_gt in Rm1. apply Z.ltb_ge in Rm2, Rd1, Rd2.
  exists y1, y2, y3, y4, m1, m2, d1, d2.
  split; [reflexivity |]. split; [now rewrite D1, D2, D3, D4, D5, D6, D7, D8 |].
  split; [| reflexivity]. unfold validDate. lia.
Qed.

Lemma longYear_ok (c0 c1 c2 c3 : ascii) (rest : string) :
  isDigitByte c0 = true -> isDigitByte c1 = true ->
  isDigitByte c2 = true -> isDigitByte c3 = true ->
  time.longYear (String c0 (String c1 (String c2 (String c3 rest)))) =
  Some ((digitOf c0 * 1000 + digitOf c1 * 100 + digitOf c2 * 10 + digitOf c3)%Z, rest).
Proof.
  intros D0 D1 D2 D3. unfold time.longYear, time.isDigit, time.digit.
  cbn [String.length Nat.leb andb String.get slice_from].
  fold (isDigitByte c0) (isDigitByte c1) (isDigitByte c2) (isDigitByte c3).
  now rewrite D0, D1, D2, D3.
Qed.

Lemma getnum_fixed_ok (c0 c1 : ascii) (rest : string) :
  isDigitByte c0 = true -> isDigitByte c1 = true ->
  time.getnum_fixed (String c0 (String c1 rest)) =
  Some ((digitOf c0 * 10 + digitOf c1)%Z, rest).
Proof.
  intros D0 D1. unfold time.getnum_fixed, time.isDigit, time.digit.
  cbn [String.get slice_from].
  fold (isDigitByte c0) (isDigitByte c1).
  now rewrite D0, D1.
Qed.

Lemma skipDash_ok (rest : string) : time.skipDash (String "-" rest) = Some rest.
Proof. reflexivity. Qed.

Lemma Parse_well_formed (y1 y2 y3 y4 m1 m2 d1 d2 : ascii) :
  isDigitByte y1 && isDigitByte y2 && isDigitByte y3 && isDigitByte y4
  && isDigitByte m1 && isDigitByte m2 && isDigitByte d1 && isDigitByte d2 = true ->
  validDate (digitOf y1 * 1000 + digitOf y2 * 100 + digitOf y3 * 10 + digitOf y4)
            (digitOf m1 * 10 + digitOf m2) (digitOf d1 * 10 + digitOf d2) ->
  time.Parse_2006_01_02 (dateValue y1 y2 y3 y4 m1 m2 d1 d2) =
  (time.Date (digitOf y1 * 1000 + digitOf y2 * 100 + digitOf y3 * 10 + digitOf y4)
             (digitOf m1 * 10 + digitOf m2) (digitOf d1 * 10 + digitOf d2), None).
Proof.
  intros Hd [Hm Hday].
  apply andb_prop in Hd as [Hd D8]. apply andb_prop in Hd as [Hd D7].
  apply andb_prop in Hd as [Hd D6]. apply andb_prop in Hd as [Hd D5].
  apply andb_prop in Hd as [Hd D4]. apply andb_prop in Hd as [Hd D3].
  apply andb_prop in Hd as [D1 D2].
  unfold time.Parse_2006_01_02, dateValue.
  rewrite (longYear_ok _ _ _ _ _ D1 D2 D3 D4), skipDash_ok.
  rewrite (getnum_fixed_ok _ _ _ D5 D6).
  destruct (Z.leb_spec (digitOf m1 * 10 + digitOf m2) 0); [lia |].
  destruct (Z.ltb_spec 12 (digitOf m1 * 10 + digitOf m2)); [lia |].
  cbn [orb]. rewrite skipDash_ok, (getnum_fixed_ok _ _ _ D7 D8).
  cbn [String.length Nat.eqb negb].
  destruct (Z.ltb_spec (digitOf d1 * 10 + digitOf d2) 1); [lia |].
  match goal with |- context [(?a <? ?b)%Z] => destruct (Z.ltb_spec a b); [lia |] end.
  reflexivity.
Qed.

(** X12.  [time.Parse] with the layout of line 132 accepts exactly the
    values of ten bytes [YYYY-MM-DD], all digits but the two dashes, that
    name a day of the calendar, and gives that day; so a value with a
    missing zero, a time of day, or a day such as February 30 leaves the
    post with the zero time. *)
Theorem date_parses_iff_well_formed (v : string) (t : time.Time) :
  (time.Parse_2006_01_02 v = (t, None) <->
   exists y1 y2 y3 y4 m1 m2 d1 d2 : ascii,
     v = dateValue y1 y2 y3 y4 m1 m2 d1 d2 /\
     (isDigitByte y1 && isDigitByte y2 && isDigitByte y3 && isDigitByte y4
      && isDigitByte m1 && isDigitByte m2 && isDigitByte d1 && isDigitByte d2 = true) /\
     validDate (digitOf y1 * 1000 + digitOf y2 * 100 + digitOf y3 * 10 + digitOf y4)
               (digitOf m1 * 10 + digitOf m2) (digitOf d1 * 10 + digitOf d2) /\
     t = time.Date (digitOf y1 * 1000 + digitOf y2 * 100 + digitOf y3 * 10 + digitOf y4)
                   (digitOf m1 * 10 + digitOf m2) (digitOf d1 * 10 + digitOf d2)) /\
  (snd (time.Parse_2006_01_02 v) = None -> String.length v = 10).
Proof.
  split.
  - split; [apply Parse_ok_inv |].
    intros (y1 & y2 & y3 & y4 & m1 & m2 & d1 & d2 & -> & Hd & Hv & ->).
    now apply Parse_well_formed.
  - destruct (time.Parse_2006_01_02 v) as [t' e] eqn:E. cbn [snd]. intros ->.
    apply Parse_ok_inv in E as (y1 & y2 & y3 & y4 & m1 & m2 & d1 & d2 & -> & _).
    reflexivity.
Qed.

(** ** White space around the date *)

Lemma asciiSpace_ascii (c : ascii) :
  strings.asciiSpace c = true -> (utf8.RuneSelf <=? byte_val c)%Z = false.
Proof.
  unfold strings.asciiSpace, utf8.RuneSelf. intros H. apply Z.leb_gt.
  repeat (apply orb_prop in H as [H | H]); apply Z.eqb_eq in H; lia.
Qed.

Lemma digit_not_space (c : ascii) :
  isDigitByte c = true ->
  (utf8.RuneSelf <=? byte_val c)%Z = false /\ strings.asciiSpace c = false.
Proof.
  unfold isDigitByte, strings.asciiSpace, utf8.RuneSelf. intros H.
  apply andb_prop in H as [H1 H2]. apply Z.leb_le in H1, H2. split.
  - apply Z.leb_gt. lia.
  - repeat (apply orb_false_intro); apply Z.eqb_neq; lia.
Qed.

(** The loop of [TrimSpace] runs over leading white space... *)
Lemma skipAsciiSpace_spaces (l s : string) :
  allAsciiSpace l = true -> strings.skipAsciiSpace (l ++ s) = strings.skipAsciiSpace s.
Proof.
  induction l as [|c l IH]; [reflexivity |]. cbn [allAsciiSpace].
  intros H. apply andb_prop in H as [Hc Hl].
  cbn [String.append strings.skipAsciiSpace].
  rewrite (asciiSpace_ascii c Hc), Hc. now apply IH.
Qed.

(** ... and stops at a digit. *)
Lemma skipAsciiSpace_digit (c : ascii) (s : string) :
  isDigitByte c = true -> strings.skipAsciiSpace (String c s) = (false, String c s).
Proof.
  intros H. destruct (digit_not_space c H) as [H1 H2].
  cbn [strings.skipAsciiSpace]. now rewrite H1, H2.
Qed.

Lemma allAsciiSpace_app (a b : string) :
  allAsciiSpace (a ++ b) = allAsciiSpace a && allAsciiSpace b.
Proof.
  induction a as [|c a IH]; [reflexivity |].
  cbn [String.append allAsciiSpace]. now rewrite IH, andb_assoc.
Qed.

Lemma allAsciiSpace_rev (s : string) : allAsciiSpace (string_rev s) = allAsciiSpace s.
Proof.
  induction s as [|c s IH]; [reflexivity |].
  cbn [string_rev allAsciiSpace]. rewrite allAsciiSpace_app, IH.
  cbn [allAsciiSpace]. rewrite andb_true_r. apply andb_comm.
Qed.

(** [TrimSpace] takes the white space off a value that begins and ends
    with a digit. *)
Lemma TrimSpace_padded (l r mid : string) (first last : ascii) :
  allAsciiSpace l = true -> allAsciiSpace r = true ->
  isDigitByte first = true -> isDigitByte last = true ->
  strings.TrimSpace (l ++ String first (mid ++ String last "") ++ r) =
  String first (mid ++ String last "").
Proof.
  intros Hl Hr Hf Hla. unfold strings.TrimSpace.
  rewrite skipAsciiSpace_spaces by exact Hl.
  cbn [String.append]. rewrite skipAsciiSpace_digit by exact Hf.
  change (String first ((mid ++ String last "") ++ r))
    with (String first (mid ++ String last "") ++ r).
  rewrite string_rev_append.
  rewrite skipAsciiSpace_spaces by (now rewrite allAsciiSpace_rev).
  assert (Hrev : string_rev (String first (mid ++ String last ""))
                 = String last (string_rev (String first mid))).
  { change (String first (mid ++ String last ""))
      with (String first mid ++ String last "").
    rewrite string_rev_append. reflexivity. }
  rewrite Hrev, skipAsciiSpace_digit by exact Hla.
  rewrite <- Hrev. apply string_rev_involutive.
Qed.

(** X13.  White space around the value of the date line does not count:
    a well-formed date between ASCII white space (blanks, tabs, the
    carriage return of a CRLF line end) gives the post the same date as the
    bare value, and leaves the rest of the post as it is. *)
Theorem date_value_may_be_padded (post : Post) (l v r : string) :
  allAsciiSpace l = true -> allAsciiSpace r = true ->
  snd (time.Parse_2006_01_02 v) = None ->
  metaLine post ("Date: " ++ l ++ v ++ r) = setDate post (fst (time.Parse_2006_01_02 v)).
Proof.
  intros Hl Hr Hok.
  destruct (time.Parse_2006_01_02 v) as [t e] eqn:E. cbn [snd fst] in *. subst e.
  pose proof E as E'.
  apply Parse_ok_inv in E' as (y1 & y2 & y3 & y4 & m1 & m2 & d1 & d2 & -> & Hd & _).
  apply andb_prop in Hd as [Hd D8]. apply andb_prop in Hd as [Hd _].
  apply andb_prop in Hd as [Hd _]. apply andb_prop in Hd as [Hd _].
  apply andb_prop in Hd as [Hd _]. apply andb_prop in Hd as [Hd _].
  apply andb_prop in Hd as [D1 _].
  unfold metaLine.
  rewrite (HasPrefix_append "Date: " _), (TrimPrefix_append "Date: " _).
  assert (Hno : strings.HasPrefix
                  ("Date: " ++ l ++ dateValue y1 y2 y3 y4 m1 m2 d1 d2 ++ r) "Title: "
                = false).
  { unfold strings.HasPrefix. apply andb_false_intro2.
    cbn [String.append String.length slice_to].
    apply String.eqb_neq. discriminate. }
  rewrite Hno.
  pose proof (TrimSpace_padded l r
                (String y2 (String y3 (String y4 (String "-"
                   (String m1 (String m2 (String "-" (String d1 ""))))))))
                y1 d2 Hl Hr D1 D8) as Ht.
  cbn [String.append] in Ht. unfold dateValue. cbn [String.append].
  rewrite Ht. fold (dateValue y1 y2 y3 y4 m1 m2 d1 d2). now rewrite E.
Qed.

Lemma date_value_may_be_padded_witness :
  metaLine zeroPost ("Date: " ++ " " ++ "2024-01-01" ++ CR) =
  setDate zeroPost (fst (time.Parse_2006_01_02 "2024-01-01")).
Proof.
  exact (date_value_may_be_padded zeroPost " " "2024-01-01" CR eq_refl eq_refl eq_refl).
Defined.

(** ** A file in the documented format *)

Lemma length_slice_from (n : nat) (s : string) :
  String.length (slice_from n s) = String.length s - n.
Proof.
  revert s. induction n as [|n IH]; intros s; [simpl; lia |].
  destruct s as [|c s]; simpl; [reflexivity | apply IH].
Qed.

Lemma Index_empty (sep : string) : sep <> "" -> strings.Index "" sep = None.
Proof. intros H. destruct sep; [contradiction | reflexivity]. Qed.

(** Two ways to cut one string. *)
Lemma append_eq_append (a u p r : string) :
  a ++ u = p ++ r ->
  (exists w, p = a ++ w /\ u = w ++ r) \/ (exists w, a = p ++ w /\ r = w ++ u).
Proof.
  revert p. induction a as [|x a IH]; intros p H.
  - left. now exists p.
  - destruct p as [|y p].
    + right. now exists (String x a).
    + cbn [String.append] in H. injection H as -> H.
      destruct (IH p H) as [(w & -> & ->) | (w & -> & ->)].
      * left. now exists w.
      * right. now exists w.
Qed.

Lemma HasPrefix_iff (s p : string) :
  strings.HasPrefix s p = true <-> exists r, s = p ++ r.
Proof.
  split.
  - intros H. eexists. apply (HasPrefix_inv s p H).
  - intros [r ->]. apply HasPrefix_append.
Qed.

Lemma without_app (c : ascii) (a w : string) :
  without c (a ++ String c w) = false.
Proof.
  induction a as [|x a IH]; cbn [String.append without].
  - now rewrite Ascii.eqb_refl.
  - rewrite IH. apply andb_false_r.
Qed.

(** A byte that is not in [sep] cannot complete a [sep] begun before it. *)
Lemma HasPrefix_break (a s sep : string) (c : ascii) :
  without c sep = true ->
  strings.HasPrefix a sep = false ->
  strings.HasPrefix (a ++ String c s) sep = false.
Proof.
  intros Hc Ha.
  destruct (strings.HasPrefix (a ++ String c s) sep) eqn:E; [| reflexivity].
  apply HasPrefix_iff in E as [r E].
  apply append_eq_append in E as [(w & -> & Hw) | (w & -> & _)].
  - destruct w as [|x w].
    + rewrite append_empty_r in Ha.
      pose proof (HasPrefix_append a "") as H. rewrite append_empty_r in H. congruence.
    + cbn [String.append] in Hw. injection Hw as -> _.
      now rewrite without_app in Hc.
  - now rewrite HasPrefix_append in Ha.
Qed.

Lemma Index_None_inv (x : ascii) (a sep : string) :
  strings.Index (String x a) sep = None ->
  strings.HasPrefix (String x a) sep = false /\ strings.Index a sep = None.
Proof.
  rewrite Index_unfold.
  destruct (strings.HasPrefix (String x a) sep); [discriminate |].
  destruct (strings.Index a sep); [discriminate | auto].
Qed.

(** Past a part without [sep] that ends before a byte foreign to [sep],
    [Index] finds what it finds in the rest. *)
Lemma Index_break (a s sep : string) (c : ascii) :
  sep <> "" -> without c sep = true ->
  strings.Index a sep = None ->
  strings.Index (a ++ String c s) sep =
  option_map (fun j => String.length a + S j) (strings.Index s sep).
Proof.
  intros Hsep Hc. induction a as [|x a IH]; intros Ha.
  - cbn [String.append String.length Nat.add]. rewrite Index_unfold.
    assert (H : strings.HasPrefix (String c s) sep = false).
    { apply (HasPrefix_break "" s sep c Hc).
      destruct sep; [contradiction | reflexivity]. }
    rewrite H. now destruct (strings.Index s sep).
  - apply Index_None_inv in Ha as [Hp Ha].
    rewrite Index_unfold, (HasPrefix_break _ s sep c Hc Hp).
    cbn [String.append]. rewrite (IH Ha).
    now destruct (strings.Index s sep).
Qed.

(** Bytes foreign to [sep] in front of a string hide no [sep]. *)
Lemma Index_skip (c : ascii) (s sep : string) :
  sep <> "" -> without c sep = true ->
  strings.Index (String c s) sep = option_map S (strings.Index s sep).
Proof.
  intros Hsep Hc.
  pose proof (Index_break "" s sep c Hsep Hc (Index_empty sep Hsep)) as H.
  cbn [String.append String.length Nat.add] in H. rewrite H.
  now destruct (strings.Index s sep).
Qed.

(** *** [Split] cuts at every separator *)

Section Splitting.

Variable sep : string.
Hypothesis sep_nonempty : sep <> "".

Lemma sep_length : 1 <= String.length sep.
Proof. destruct sep; [contradiction | simpl; lia]. Qed.

Lemma rest_shorter (s : string) (m : nat) :
  strings.Index s sep = Some m ->
  String.length (slice_from (m + String.length sep) s) < String.length s.
Proof.
  intros H. apply Index_Some_split in H as [Hs Hl].
  apply (f_equal String.length) in Hs. rewrite !length_append, Hl in Hs.
  pose proof sep_length. lia.
Qed.

Lemma Count_loop_enough (f1 f2 : nat) (s : string) :
  String.length s <= f1 -> String.length s <= f2 ->
  strings.Count_loop f1 s sep = strings.Count_loop f2 s sep.
Proof.
  revert f2 s. induction f1 as [|f1 IH]; intros f2 s H1 H2.
  - destruct s; [| simpl in H1; lia].
    destruct f2; [reflexivity |]. rewrite Count_loop_S.
    now rewrite Index_empty.
  - destruct f2 as [|f2].
    + destruct s; [| simpl in H2; lia].
      rewrite Count_loop_S. now rewrite Index_empty.
    + rewrite !Count_loop_S.
      destruct (strings.Index s sep) as [m |] eqn:E; [| reflexivity].
      pose proof (rest_shorter s m E). f_equal. apply IH; lia.
Qed.

Lemma Count_loop_le (f : nat) (s : string) :
  strings.Count_loop f s sep <= String.length s.
Proof.
  revert s. induction f as [|f IH]; intros s; [simpl; lia |].
  rewrite Count_loop_S.
  destruct (strings.Index s sep) as [m |] eqn:E; [| lia].
  pose proof (rest_shorter s m E). pose proof (IH (slice_from (m + String.length sep) s)).
  lia.
Qed.

Lemma Split_Count (s : string) :
  strings.Split s sep =
  strings.genSplit_loop (strings.Count_loop (String.length s) s sep) s sep.
Proof.
  unfold strings.Split, strings.genSplit, strings.Count.
  change (-1 =? 0)%Z with false. change (-1 <? 0)%Z with true. cbv iota.
  pose proof sep_length as Hl.
  destruct (Nat.eqb_spec (String.length sep) 0) as [H0 | _]; [lia |].
  pose proof (Count_loop_le (String.length s) s) as Hle.
  destruct (Z.ltb_spec (Z.of_nat (String.length s) + 1)
              (Z.of_nat (strings.Count_loop (String.length s) s sep) + 1)); [lia |].
  f_equal. lia.
Qed.

Lemma Split_last (s : string) :
  strings.Index s sep = None -> strings.Split s sep = [s].
Proof.
  intros H. rewrite Split_Count.
  destruct (String.length s) as [|f]; [reflexivity |].
  now rewrite Count_loop_S, H.
Qed.

Lemma Split_cut (s : string) (m : nat) :
  strings.Index s sep = Some m ->
  strings.Split s sep =
  slice_to m s :: strings.Split (slice_from (m + String.length sep) s) sep.
Proof.
  intros H. rewrite !Split_Count. pose proof (rest_shorter s m H) as Hr.
  destruct (String.length s) as [|f] eqn:El; [lia |].
  rewrite Count_loop_S, H. cbn [strings.genSplit_loop]. rewrite H.
  f_equal. f_equal. apply Count_loop_enough; lia.
Qed.

(** A part without [sep], then [sep]: the part is the first piece. *)
Lemma Split_part (a b : string) :
  strings.Index (a ++ sep) sep = Some (String.length a) ->
  strings.Split (a ++ sep ++ b) sep = a :: strings.Split b sep.
Proof.
  intros H. apply (Index_app_boundary a sep b) in H.
  rewrite (Split_cut _ _ H), slice_to_append.
  f_equal. f_equal.
  rewrite <- append_assoc, <- length_append. apply slice_from_append.
Qed.

End Splitting.

(** With a separator of one byte, a part without it ends at the first
    separator. *)
Lemma HasPrefix_single (x c : ascii) (s : string) :
  strings.HasPrefix (String x s) (String c "") = Ascii.eqb x c.
Proof.
  unfold strings.HasPrefix. cbn [String.length Nat.leb slice_to String.eqb andb].
  now destruct (Ascii.eqb x c).
Qed.

Lemma Index_single_end (a s : string) (c : ascii) :
  strings.Index a (String c "") = None ->
  strings.Index (a ++ String c s) (String c "") = Some (String.length a).
Proof.
  induction a as [|x a IH]; intros Ha.
  - cbn [String.append String.length]. rewrite Index_unfold, HasPrefix_single.
    now rewrite Ascii.eqb_refl.
  - apply Index_None_inv in Ha as [Hp Ha]. rewrite HasPrefix_single in Hp.
    cbn [String.append String.length]. rewrite Index_unfold, HasPrefix_single, Hp.
    now rewrite (IH Ha).
Qed.

(** The two header lines hold neither a delimiter nor a line feed when
    their values hold none. *)
Lemma Title_line_clean (title sep : string) :
  sep = "---" \/ sep = LF ->
  strings.Index title sep = None -> strings.Index ("Title: " ++ title) sep = None.
Proof.
  intros [-> | ->] H; cbn [String.append];
    rewrite !Index_skip by (discriminate || reflexivity); now rewrite H.
Qed.

Lemma Date_line_clean (date sep : string) :
  sep = "---" \/ sep = LF ->
  strings.Index date sep = None -> strings.Index ("Date: " ++ date) sep = None.
Proof.
  intros [-> | ->] H; cbn [String.append];
    rewrite !Index_skip by (discriminate || reflexivity); now rewrite H.
Qed.

Lemma metaLine_blank (post : Post) : metaLine post "" = post.
Proof. reflexivity. Qed.

Lemma metaLine_Title (post : Post) (v : string) :
  metaLine post ("Title: " ++ v) = setTitle post v.
Proof.
  unfold metaLine.
  rewrite (HasPrefix_append "Title: " v), (TrimPrefix_append "Title: " v).
  assert (H : strings.HasPrefix ("Title: " ++ v) "Date: " = false).
  { unfold strings.HasPrefix. apply andb_false_intro2.
    cbn [String.append String.length slice_to]. apply String.eqb_neq. discriminate. }
  now rewrite H.
Qed.

Lemma metaLine_Date (post : Post) (v : string) :
  metaLine post ("Date: " ++ v) =
  setDate post (fst (time.Parse_2006_01_02 (strings.TrimSpace v))).
Proof.
  unfold metaLine.
  rewrite (HasPrefix_append "Date: " v), (TrimPrefix_append "Date: " v).
  assert (H : strings.HasPrefix ("Date: " ++ v) "Title: " = false).
  { unfold strings.HasPrefix. apply andb_false_intro2.
    cbn [String.append String.length slice_to]. apply String.eqb_neq. discriminate. }
  now rewrite H.
Qed.

Section Documented.

Variables title date body : string.
Hypothesis title_line : strings.Index title LF = None.
Hypothesis title_whole : strings.Index title "---" = None.
Hypothesis date_line : strings.Index date LF = None.
Hypothesis date_whole : strings.Index date "---" = None.


Lemma document_parts :
  document title date body = "" ++ "---" ++ headerBlock title date ++ "---" ++ LF ++ body.
Proof. unfold document, headerBlock. now rewrite !append_assoc. Qed.

Lemma block_delimiter :
  strings.Index (headerBlock title date ++ "---") "---" =
  Some (String.length (headerBlock title date)).
Proof.
  unfold headerBlock. rewrite !append_assoc.
  change (LF ++ "Title: " ++ title ++ LF ++ "Date: " ++ date ++ LF ++ "---")
    with (String (ascii_of_nat 10)
            (("Title: " ++ title) ++ String (ascii_of_nat 10)
               (("Date: " ++ date) ++ String (ascii_of_nat 10) "---"))).
  rewrite Index_skip by (discriminate || reflexivity).
  rewrite Index_break
    by (discriminate || reflexivity || (apply Title_line_clean; auto)).
  rewrite Index_break
    by (discriminate || reflexivity || (apply Date_line_clean; auto)).
  cbn [strings.Index option_map].
  change (strings.HasPrefix "---" "---") with true. cbv iota. cbn [option_map].
  f_equal. rewrite !length_append. cbn [String.length LF]. lia.
Qed.

Lemma document_split :
  strings.SplitN (document title date body) "---" 3 = [""; headerBlock title date; LF ++ body].
Proof.
  pose proof (SplitN_3_cases (document title date body)) as Hc.
  rewrite document_parts in *.
  assert (H1 : strings.Index
                 ("" ++ "---" ++ headerBlock title date ++ "---" ++ LF ++ body) "---"
               = Some 0) by reflexivity.
  rewrite H1 in Hc. cbv zeta in Hc.
  change (slice_from (0 + 3) ("" ++ "---" ++ headerBlock title date ++ "---" ++ LF ++ body))
    with (headerBlock title date ++ "---" ++ LF ++ body) in Hc.
  pose proof (proj2 (Index_app_boundary (headerBlock title date) "---" (LF ++ body))
                block_delimiter) as H2.
  rewrite H2 in Hc. rewrite Hc.
  rewrite slice_to_append, slice_from_add. reflexivity.
Qed.

Lemma block_lines :
  strings.Split (headerBlock title date) LF = [""; "Title: " ++ title; "Date: " ++ date; ""].
Proof.
  assert (Hlf : LF <> "") by discriminate.
  unfold headerBlock.
  change (LF ++ "Title: " ++ title ++ LF ++ "Date: " ++ date ++ LF)
    with ("" ++ LF ++ "Title: " ++ title ++ LF ++ "Date: " ++ date ++ LF).
  rewrite (Split_part LF Hlf "") by reflexivity. f_equal.
  rewrite <- (append_assoc "Title: " title).
  rewrite (Split_part LF Hlf ("Title: " ++ title))
    by (apply Index_single_end, Title_line_clean; auto).
  f_equal.
  rewrite <- (append_assoc "Date: " date).
  rewrite <- (append_empty_r LF) at 1.
  rewrite (Split_part LF Hlf ("Date: " ++ date))
    by (apply Index_single_end, Date_line_clean; auto).
  f_equal.
Qed.

Lemma document_post (convert : string -> error + string) (filename : string) :
  threeSegments (document title date body) /\
  bodyOf (document title date body) = LF ++ body /\
  parsePost convert filename (document title date body) =
  match convert (LF ++ body) with
  | inl err => inl (ErrorConvertingGoldmark err)
  | inr html =>
    inr {| Title := title;
           Date := fst (time.Parse_2006_01_02 (strings.TrimSpace date));
           Slug := slugOf filename;
           Content := html;
           Summary := summarize (LF ++ body) |}
  end.
Proof.
  unfold threeSegments, bodyOf, parsePost. rewrite document_split.
  cbn [List.length nth Nat.ltb Nat.leb]. rewrite block_lines.
  cbn [fold_left]. rewrite metaLine_blank, metaLine_Title, metaLine_Date, metaLine_blank.
  split; [lia |]. split; [reflexivity |].
  destruct (convert (LF ++ body)); reflexivity.
Qed.

End Documented.

(** X14.  A file in the documented format, ["---"], a line feed, the
    title line, the date line, ["---"], a line feed and the text, whose
    title and date hold neither a line feed nor a delimiter, has its three
    segments and gives back what was written: the title as it stands and
    the date that [time.Parse] makes of the trimmed value.  Its raw body
    is the text with the line feed that follows the second delimiter in
    front: that is what is converted, and what the summary is cut from. *)
Theorem documented_format_round_trip
  (convert : string -> error + string) (filename title date body : string) :
  strings.Index title LF = None -> strings.Index title "---" = None ->
  strings.Index date LF = None -> strings.Index date "---" = None ->
  threeSegments (document title date body) /\
  bodyOf (document title date body) = LF ++ body /\
  (forall html, convert (LF ++ body) = inr html ->
     parsePost convert filename (document title date body) =
     inr {| Title := title;
            Date := fst (time.Parse_2006_01_02 (strings.TrimSpace date));
            Slug := slugOf filename;
            Content := html;
            Summary := summarize (LF ++ body) |}) /\
  (forall err, convert (LF ++ body) = inl err ->
     parsePost convert filename (document title date body) =
     inl (ErrorConvertingGoldmark err)).
Proof.
  intros H1 H2 H3 H4.
  destruct (document_post title date body H1 H2 H3 H4 convert filename)
    as (Hthree & Hbody & Hparse).
  split; [exact Hthree |]. split; [exact Hbody |]. split.
  - intros html E. now rewrite Hparse, E.
  - intros err E. now rewrite Hparse, E.
Qed.

Lemma documented_format_round_trip_witness :
  threeSegments (document "Hello" "2024-01-01" "Hello") /\
  bodyOf (document "Hello" "2024-01-01" "Hello") = LF ++ "Hello" /\
  (forall html, paragraph (LF ++ "Hello") = inr html ->
     parsePost paragraph "post-a.md" (document "Hello" "2024-01-01" "Hello") =
     inr {| Title := "Hello";
            Date := fst (time.Parse_2006_01_02 (strings.TrimSpace "2024-01-01"));
            Slug := slugOf "post-a.md";
            Content := html;
            Summary := summarize (LF ++ "Hello") |}) /\
  (forall err, paragraph (LF ++ "Hello") = inl err ->
     parsePost paragraph "post-a.md" (document "Hello" "2024-01-01" "Hello") =
     inl (ErrorConvertingGoldmark err)).
Proof.
  exact (documented_format_round_trip paragraph "post-a.md" "Hello" "2024-01-01" "Hello"
           eq_refl eq_refl eq_refl eq_refl).
Defined.

(** ** The title is one line *)

Lemma Index_None_app_l (a b sep : string) :
  strings.Index (a ++ b) sep = None -> strings.Index a sep = None.
Proof.
  intros H. destruct (strings.Index a sep) as [m |] eqn:E; [| reflexivity].
  apply Index_Some_split in E as [Hs _]. exfalso.
  rewrite Hs, !append_assoc in H. now apply Index_found in H.
Qed.

Lemma Index_None_app_r (a b sep : string) :
  strings.Index (a ++ b) sep = None -> strings.Index b sep = None.
Proof.
  induction a as [|x a IH]; intros H; [exact H |].
  cbn [String.append] in H. apply Index_None_inv in H as [_ H]. now apply IH.
Qed.

(** [Index] finds no instance after the first. *)
Lemma Index_le (a sep x : string) (i : nat) :
  strings.Index (a ++ sep ++ x) sep = Some i -> i <= String.length a.
Proof.
  revert i. induction a as [|c a IH]; intros i; rewrite Index_unfold.
  - cbn [String.append]. rewrite (HasPrefix_append sep x).
    intros H. injection H as <-. lia.
  - destruct (strings.HasPrefix (String c a ++ sep ++ x) sep).
    + intros H. injection H as <-. lia.
    + cbn [String.append String.length].
      destruct (strings.Index (a ++ sep ++ x) sep) as [j |]; [| discriminate].
      intros H. injection H as <-. specialize (IH j eq_refl). lia.
Qed.

(** What precedes the first instance holds none. *)
Lemma Index_first (s sep : string) (m : nat) :
  sep <> "" -> strings.Index s sep = Some m ->
  strings.Index (slice_to m s) sep = None.
Proof.
  intros Hsep H.
  destruct (strings.Index (slice_to m s) sep) as [j |] eqn:E; [| reflexivity].
  exfalso.
  destruct (Index_Some_split _ _ _ H) as [Hs Hl].
  destruct (Index_Some_split _ _ _ E) as [Hp Hj].
  apply (f_equal String.length) in Hp as Hlen. rewrite !length_append, Hj, Hl in Hlen.
  rewrite Hs, Hp, !append_assoc in H. apply Index_le in H. rewrite Hj in H.
  pose proof (sep_length sep Hsep). lia.
Qed.

(** The pieces of [Split] are parts of the string that hold no separator. *)
Lemma Split_pieces (sep : string) (n : nat) :
  sep <> "" ->
  forall s piece, String.length s <= n -> In piece (strings.Split s sep) ->
    strings.Index piece sep = None /\ exists u v, s = u ++ piece ++ v.
Proof.
  intros Hsep. induction n as [|n IH]; intros s piece Hlen Hin.
  - destruct s; [| simpl in Hlen; lia].
    rewrite Split_last in Hin by (exact Hsep || now apply Index_empty).
    destruct Hin as [<- | []]. split; [now apply Index_empty | now exists "", ""].
  - destruct (strings.Index s sep) as [m |] eqn:E.
    + rewrite (Split_cut sep Hsep s m E) in Hin.
      destruct (Index_Some_split _ _ _ E) as [Hs _].
      destruct Hin as [<- | Hin].
      * split; [now apply Index_first |].
        exists "", (sep ++ slice_from (m + String.length sep) s). exact Hs.
      * pose proof (rest_shorter sep Hsep s m E) as Hr.
        assert (Hle : String.length (slice_from (m + String.length sep) s) <= n) by lia.
        destruct (IH _ piece Hle Hin) as [Hnone (u & v & Hrest)].
        split; [exact Hnone |].
        exists (slice_to m s ++ sep ++ u), v.
        rewrite Hs at 1. rewrite Hrest, !append_assoc. reflexivity.
    + rewrite (Split_last sep Hsep s E) in Hin. destruct Hin as [<- | []].
      split; [exact E |]. exists "", "". now rewrite append_empty_r.
Qed.

(** The metadata block holds no delimiter. *)
Lemma metaRaw_whole (content : string) :
  strings.Index (nth 1 (strings.SplitN content "---" 3) "") "---" = None.
Proof.
  pose proof (SplitN_3_cases content) as Hc.
  destruct (strings.Index content "---") as [m |] eqn:E1.
  - cbv zeta in Hc.
    destruct (strings.Index (slice_from (m + 3) content) "---") as [m' |] eqn:E2;
      rewrite Hc; cbn [nth].
    + apply Index_first; [discriminate | exact E2].
    + exact E2.
  - rewrite Hc. reflexivity.
Qed.

(** A header value comes from a line that begins with the prefix. *)
Lemma headerValue_Some (prefix : string) (lines : list string) (v : string) :
  headerValue prefix lines = Some v ->
  exists line, In line lines /\ line = prefix ++ v.
Proof.
  induction lines as [|line lines IH] using rev_ind; [discriminate |].
  rewrite headerValue_snoc.
  destruct (strings.HasPrefix line prefix) eqn:E.
  - intros H. injection H as <-. exists line. split; [apply in_or_app; right; now left |].
    unfold strings.TrimPrefix. rewrite E. now apply HasPrefix_inv.
  - intros H. destruct (IH H) as (l & Hl & ->). exists (prefix ++ v).
    split; [apply in_or_app; now left | reflexivity].
Qed.

(** X16.  The title of a parsed document is one line without a
    delimiter: it holds no line feed and no ["---"], whatever the file
    looks like. *)
Theorem title_is_one_line
  (convert : string -> error + string) (filename content : string) (post : Post) :
  parsePost convert filename content = inr post ->
  strings.Index (Title post) LF = None /\ strings.Index (Title post) "---" = None.
Proof.
  intros H. apply parsePost_inr in H as (_ & html & _ & ->).
  rewrite Title_postOf. unfold headerOf. rewrite Title_fold.
  destruct (headerValue "Title: " (metaLinesOf content)) as [v |] eqn:E;
    [| split; reflexivity].
  apply headerValue_Some in E as (line & Hin & ->).
  unfold metaLinesOf in Hin.
  assert (Hlf : LF <> "") by discriminate.
  destruct (Split_pieces LF _ Hlf _ _ (Nat.le_refl _) Hin) as [Hnone (u & w & Hmeta)].
  split.
  - now apply Index_None_app_r in Hnone.
  - pose proof (metaRaw_whole content) as Hwhole. rewrite Hmeta in Hwhole.
    apply Index_None_app_r, Index_None_app_l, Index_None_app_r in Hwhole.
    exact Hwhole.
Qed.

Lemma title_is_one_line_witness :
  exists post,
    parsePost paragraph "post-a.md" crlf = inr post /\
    Title post = "Hello" ++ CR /\
    strings.Index (Title post) LF = None /\ strings.Index (Title post) "---" = None.
Proof.
  eexists.
  split; [vm_compute; reflexivity |].
  split; [vm_compute; reflexivity |].
  apply (title_is_one_line paragraph "post-a.md" crlf). vm_compute; reflexivity.
Defined.
